(** * Memories store of terraform-aws-boid: a shallow embedding of
      [scripts/memory_lib.py] and the properties of its confidence model,
      upsert logic, override resolver and fork exporter. *)

From Stdlib Require Import ZArith List String Ascii Bool Lia DecimalString.
From Stdlib Require Import SpecFloat.
From Stdlib Require Import Permutation Sorted.
Import ListNotations.

Local Open Scope string_scope.
Local Open Scope Z_scope.

(** ** Python floats

    A Python [float] is an IEEE 754 binary64 number.  The operations are the
    ones of the Standard Library's executable specification [SpecFloat],
    instantiated at 53 bits of precision. *)

Module Float64.

Definition prec : Z := 53.
Definition emax : Z := 1024.

Definition float : Type := spec_float.

Definition add : float -> float -> float := SFadd prec emax.
Definition sub : float -> float -> float := SFsub prec emax.
Definition mul : float -> float -> float := SFmul prec emax.
Definition div : float -> float -> float := SFdiv prec emax.
Definition ltb : float -> float -> bool := SFltb.
Definition leb : float -> float -> bool := SFleb.
Definition eqb : float -> float -> bool := SFeqb.

(** [a >= b] of Python. *)
Definition geb (a b : float) : bool := leb b a.

(** [float(n)] for a Python int: the nearest double, ties to even.  Python
    raises OverflowError from 2^1024 on, far outside what an SQLite INTEGER
    column holds; there this conversion gives an infinity. *)
Definition of_int (n : Z) : float := binary_normalize prec emax n 0 false.

(** The double a decimal literal [n/d] denotes: literals are read correctly
    rounded, as is the quotient of two exactly representable integers. *)
Definition literal (n d : Z) : float := div (of_int n) (of_int d).

Definition is_nan (x : float) : bool :=
  match x with S754_nan => true | _ => false end.

(** Python's builtin [min(a, b)]: the first argument stays unless the
    second is strictly smaller. *)
Definition py_min (a b : float) : float := if ltb b a then b else a.

(** [n / d] rounded to the nearest integer, ties to even ([0 < d]). *)
Definition round_half_even (n d : Z) : Z :=
  let q := n / d in
  let r := n mod d in
  match 2 * r ?= d with
  | Lt => q
  | Gt => q + 1
  | Eq => if Z.even q then q else q + 1
  end.

(** The magnitude [m * 2^e] in hundredths, correctly rounded. *)
Definition hundredths (m : positive) (e : Z) : Z :=
  if 0 <=? e then Zpos m * 100 * 2 ^ e
  else round_half_even (Zpos m * 100) (2 ^ (- e)).

Definition decimal (n : Z) : string :=
  NilZero.string_of_uint (N.to_uint (Z.to_N n)).

Definition two_digits (n : Z) : string :=
  if n <? 10 then "0" ++ decimal n else decimal n.

(** [f"{x:.2f}"]. *)
Definition format_2f (x : float) : string :=
  match x with
  | S754_nan => "nan"
  | S754_infinity s => if s then "-inf" else "inf"
  | S754_zero s => if s then "-0.00" else "0.00"
  | S754_finite s m e =>
      let h := hundredths m e in
      (if s then "-" else "") ++ decimal (h / 100) ++ "." ++ two_digits (h mod 100)
  end.

End Float64.

Import Float64.

Declare Scope py_scope.
Delimit Scope py_scope with py.
Infix "+" := Float64.add : py_scope.
Infix "-" := Float64.sub : py_scope.
Infix "*" := Float64.mul : py_scope.
Infix "<" := Float64.ltb : py_scope.
Infix ">=" := Float64.geb : py_scope.

(** ** Confidence model constants *)

Definition CONFIDENCE_BASE : float := literal 5 10.
Definition CORRECTION_DELTA : float := literal 2 10.
Definition REINFORCE_DELTA : float := literal 1 10.
Definition CONTRADICTION_RESET : float := literal 3 10.
Definition SINGLE_SESSION_CEILING : float := literal 7 10.
Definition SESSION_BONUS_PER : float := literal 5 100.
Definition SESSION_BONUS_CAP : float := literal 2 10.
Definition CONFIDENCE_CAP : float := literal 1 1.

(** ** Confidence model *)

Definition effective_confidence (raw : float) (distinct_sessions : Z) : float :=
  if distinct_sessions <=? 1 then py_min raw SINGLE_SESSION_CEILING
  else
    let session_bonus :=
      py_min (of_int (distinct_sessions - 1) * SESSION_BONUS_PER)%py SESSION_BONUS_CAP in
    py_min (raw + session_bonus)%py CONFIDENCE_CAP.

(** ** Strings

    A Python [str] is modelled by a [string] whose characters are the code
    points below 256. *)

Definition code (c : ascii) : Z := Z.of_N (N_of_ascii c).
Definition chr (n : Z) : ascii := ascii_of_N (Z.to_N n).

(** [str.isspace] on one character, which is also what [\s] matches. *)
Definition isspace (c : ascii) : bool :=
  let n := code c in
  ((9 <=? n) && (n <=? 13)) || ((28 <=? n) && (n <=? 32))
  || (n =? 133) || (n =? 160).

Definition lower_char (c : ascii) : ascii :=
  let n := code c in
  if ((65 <=? n) && (n <=? 90))
     || ((192 <=? n) && (n <=? 222) && negb (n =? 215))
  then chr (n + 32) else c.

Fixpoint lower (s : string) : string :=
  match s with
  | EmptyString => EmptyString
  | String c s' => String (lower_char c) (lower s')
  end.

Fixpoint lstrip (s : string) : string :=
  match s with
  | EmptyString => EmptyString
  | String c s' => if isspace c then lstrip s' else s
  end.

Fixpoint reverse_onto (s acc : string) : string :=
  match s with
  | EmptyString => acc
  | String c s' => reverse_onto s' (String c acc)
  end.

Definition reverse (s : string) : string := reverse_onto s EmptyString.

Definition rstrip (s : string) : string := reverse (lstrip (reverse s)).

Definition strip (s : string) : string := rstrip (lstrip s).

(** [re.sub(r"\s+", " ", s)]: every maximal run of whitespace becomes one
    space.  [in_run] tells that the previous character was whitespace. *)
Fixpoint collapse_spaces (in_run : bool) (s : string) : string :=
  match s with
  | EmptyString => EmptyString
  | String c s' =>
      if isspace c
      then if in_run then collapse_spaces true s'
           else String " " (collapse_spaces true s')
      else String c (collapse_spaces false s')
  end.

(** [str.encode()]: UTF-8. *)
Fixpoint encode (s : string) : list Z :=
  match s with
  | EmptyString => []
  | String c s' =>
      let n := code c in
      if n <? 128 then n :: encode s'
      else Z.lor 192 (Z.shiftr n 6) :: Z.lor 128 (Z.land n 63) :: encode s'
  end.

(** ** SHA-256 ([hashlib.sha256(...).hexdigest()]), FIPS 180-4 *)

Module SHA256.

Definition w32 (x : Z) : Z := Z.land x 4294967295.
Definition rotr (n x : Z) : Z := Z.lor (Z.shiftr x n) (w32 (Z.shiftl x (32 - n))).
Definition xor3 (a b c : Z) : Z := Z.lxor a (Z.lxor b c).
Definition Ch (x y z : Z) : Z :=
  Z.lxor (Z.land x y) (Z.land (Z.lxor x 4294967295) z).
Definition Maj (x y z : Z) : Z := xor3 (Z.land x y) (Z.land x z) (Z.land y z).
Definition Sigma0 (x : Z) : Z := xor3 (rotr 2 x) (rotr 13 x) (rotr 22 x).
Definition Sigma1 (x : Z) : Z := xor3 (rotr 6 x) (rotr 11 x) (rotr 25 x).
Definition sigma0 (x : Z) : Z := xor3 (rotr 7 x) (rotr 18 x) (Z.shiftr x 3).
Definition sigma1 (x : Z) : Z := xor3 (rotr 17 x) (rotr 19 x) (Z.shiftr x 10).

(** The round constants and the initial hash value are the first 32 bits of
    the fractional parts of the cube roots of the first 64 primes and of the
    square roots of the first 8. *)
Definition is_prime (n : Z) : bool :=
  forallb (fun d => negb (n mod Z.of_nat d =? 0)) (seq 2 (Z.to_nat n - 2)).

Definition primes : list Z :=
  filter is_prime (map Z.of_nat (seq 2 310)).

(** The integer cube root, one bit at a time from bit [bits] down. *)
Fixpoint cube_root (bits : nat) (n : Z) (x : Z) : Z :=
  match bits with
  | O => x
  | S b =>
      let y := x + 2 ^ Z.of_nat b in
      cube_root b n (if y * y * y <=? n then y else x)
  end.

Definition K : list Z :=
  Eval vm_compute in map (fun p => w32 (cube_root 40 (p * 2 ^ 96) 0)) (firstn 64 primes).

Definition H0 : list Z :=
  Eval vm_compute in map (fun p => w32 (Z.sqrt (p * 2 ^ 64))) (firstn 8 primes).

(** Big-endian bytes of [x], [n] of them. *)
Fixpoint be_bytes (n : nat) (x : Z) : list Z :=
  match n with
  | O => []
  | S n' => Z.land (Z.shiftr x (8 * Z.of_nat n')) 255 :: be_bytes n' x
  end.

Definition pad (msg : list Z) : list Z :=
  let len := Z.of_nat (List.length msg) in
  let zeros := Z.to_nat ((55 - len) mod 64) in
  (msg ++ 128 :: repeat 0 zeros ++ be_bytes 8 (8 * len))%list.

(** The big-endian 32-bit words of a byte string. *)
Fixpoint words (fuel : nat) (bs : list Z) : list Z :=
  match fuel, bs with
  | S fuel', b0 :: b1 :: b2 :: b3 :: rest =>
      (((b0 * 256 + b1) * 256 + b2) * 256 + b3) :: words fuel' rest
  | _, _ => []
  end.

(** The message schedule, last word first. *)
Fixpoint schedule (n : nat) (rev_w : list Z) : list Z :=
  match n with
  | O => rev_w
  | S n' =>
      let w :=
        w32 (sigma1 (nth 1 rev_w 0) + nth 6 rev_w 0
             + sigma0 (nth 14 rev_w 0) + nth 15 rev_w 0) in
      schedule n' (w :: rev_w)
  end.

Definition round (h : list Z) (kw : Z * Z) : list Z :=
  match h with
  | [a; b; c; d; e; f; g; hh] =>
      let t1 := hh + Sigma1 e + Ch e f g + fst kw + snd kw in
      let t2 := Sigma0 a + Maj a b c in
      [w32 (t1 + t2); a; b; c; w32 (d + t1); e; f; g]
  | _ => h
  end.

Definition compress (h : list Z) (block : list Z) : list Z :=
  let w := rev (schedule 48 (rev block)) in
  map (fun p => w32 (fst p + snd p)) (combine h (fold_left round (combine K w) h)).

Fixpoint blocks (fuel : nat) (ws : list Z) : list (list Z) :=
  match fuel, ws with
  | S fuel', _ :: _ => firstn 16 ws :: blocks fuel' (skipn 16 ws)
  | _, _ => []
  end.

Definition digest (msg : list Z) : list Z :=
  let bs := pad msg in
  let ws := words (List.length bs) bs in
  fold_left compress (blocks (List.length ws) ws) H0.

Definition hex_digit (n : Z) : ascii :=
  if n <? 10 then chr (48 + n) else chr (87 + n).

Fixpoint hex (n : nat) (x : Z) : string :=
  match n with
  | O => EmptyString
  | S n' => String (hex_digit (Z.land (Z.shiftr x (4 * Z.of_nat n')) 15)) (hex n' x)
  end.

Definition hexdigest (msg : list Z) : string :=
  fold_right (fun w acc => hex 8 w ++ acc) EmptyString (digest msg).

End SHA256.

(** ** Helpers *)

Definition _normalize_error (error_text : string) : string :=
  collapse_spaces false (lower (strip error_text)).

Definition _error_hash (error_text : string) : string :=
  SHA256.hexdigest (encode (_normalize_error error_text)).

(** ** Exceptions *)

Inductive error : Type :=
| IntegrityError (msg : string)     (* sqlite3.IntegrityError *)
| OperationalError (msg : string)   (* sqlite3.OperationalError *)
| DatabaseError (msg : string)      (* sqlite3.DatabaseError *)
| ValueError (msg : string)
| OSError (msg : string).

Inductive result (A : Type) : Type :=
| Ok (a : A)
| Raise (e : error).
Arguments Ok {A} a.
Arguments Raise {A} e.

(** ** The persistent store

    One record per table row; a table is the list of its rows in rowid order.
    [None] is SQL NULL and Python None. *)

Record Fix : Type := mkFix {
  f_id : Z;
  f_error_hash : string;
  f_error_text : string;
  f_root_cause : string;
  f_fix : string;
  f_resource : option string;
  f_provider : option string;
  f_validated : Z;
  f_scope : string;
  f_created_at : string;
  f_updated_at : string;
  f_hit_count : Z;
  f_session_id : option string
}.

Record Convention : Type := mkConvention {
  c_id : Z;
  c_category : string;
  c_pattern : string;
  c_example : option string;
  c_source : string;
  c_scope : string;
  c_created_at : string;
  c_updated_at : string;
  c_confidence : float;
  c_session_id : option string;
  c_distinct_sessions : Z
}.

Record Quirk : Type := mkQuirk {
  q_id : Z;
  q_service : string;
  q_description : string;
  q_region : option string;
  q_workaround : option string;
  q_scope : string;
  q_created_at : string;
  q_updated_at : string;
  q_session_id : option string
}.

(** A database with the v2 schema.  Of a session row only [session_id] is
    ever referenced. *)
Record Store : Type := mkStore {
  fixes : list Fix;
  conventions : list Convention;
  quirks : list Quirk;
  sessions : list string
}.

(** What [executescript(SCHEMA_FILE.read_text())] leaves in a new database. *)
Definition empty_store : Store := mkStore [] [] [] [].

Definition with_fixes (s : Store) (l : list Fix) : Store :=
  mkStore l (conventions s) (quirks s) (sessions s).
Definition with_conventions (s : Store) (l : list Convention) : Store :=
  mkStore (fixes s) l (quirks s) (sessions s).
Definition with_quirks (s : Store) (l : list Quirk) : Store :=
  mkStore (fixes s) (conventions s) l (sessions s).

(** *** Schema constraints

    Modelled from the spec: memory/schema.sql is not among the sources.  The
    spec's section 6 gives the columns, defaults and constraints: scope
    CHECK IN (personal, team, org), session_id NULL or a key of sessions,
    conventions unique on (category, pattern), hit_count default 1,
    distinct_sessions default 1, created_at and updated_at default to the
    current time, id an integer primary key. *)

Definition scope_check (scope : string) : bool :=
  (scope =? "personal")%string || (scope =? "team")%string || (scope =? "org")%string.

Definition session_known (s : Store) (session_id : option string) : bool :=
  match session_id with
  | None => true
  | Some sid => existsb (String.eqb sid) (sessions s)
  end.

Definition same_key (category pattern : string) (c : Convention) : bool :=
  (c_category c =? category)%string && (c_pattern c =? pattern)%string.

(** The rowid a new row gets: one more than the largest in the table. *)
Definition next_id (ids : list Z) : Z := fold_right Z.max 0 ids + 1.

(** [UPDATE t SET ... WHERE p]. *)
Definition update_where {A : Type} (p : A -> bool) (set : A -> A) (rows : list A) : list A :=
  map (fun r => if p r then set r else r) rows.

(** [SET hit_count = ?, updated_at = ?]. *)
Definition set_hits (hit_count : Z) (updated_at : string) (r : Fix) : Fix :=
  mkFix (f_id r) (f_error_hash r) (f_error_text r) (f_root_cause r) (f_fix r)
    (f_resource r) (f_provider r) (f_validated r) (f_scope r) (f_created_at r)
    updated_at hit_count (f_session_id r).

(** [SET confidence = ?, distinct_sessions = ?, session_id = ?, updated_at = ?]. *)
Definition set_learning (confidence : float) (distinct_sessions : Z)
    (session_id : option string) (updated_at : string) (r : Convention) : Convention :=
  mkConvention (c_id r) (c_category r) (c_pattern r) (c_example r) (c_source r)
    (c_scope r) (c_created_at r) updated_at confidence session_id distinct_sessions.

(** [SET confidence = ?, updated_at = ?]. *)
Definition set_confidence (confidence : float) (updated_at : string) (r : Convention)
    : Convention :=
  mkConvention (c_id r) (c_category r) (c_pattern r) (c_example r) (c_source r)
    (c_scope r) (c_created_at r) updated_at confidence (c_session_id r)
    (c_distinct_sessions r).

(** [cursor.fetchone()]. *)
Definition fetchone {A : Type} (rows : list A) : option A := hd_error rows.

Definition with_fix_id (id : Z) (r : Fix) : Fix :=
  mkFix id (f_error_hash r) (f_error_text r) (f_root_cause r) (f_fix r) (f_resource r)
    (f_provider r) (f_validated r) (f_scope r) (f_created_at r) (f_updated_at r)
    (f_hit_count r) (f_session_id r).

Definition with_convention_id (id : Z) (r : Convention) : Convention :=
  mkConvention id (c_category r) (c_pattern r) (c_example r) (c_source r) (c_scope r)
    (c_created_at r) (c_updated_at r) (c_confidence r) (c_session_id r)
    (c_distinct_sessions r).

Definition with_quirk_id (id : Z) (r : Quirk) : Quirk :=
  mkQuirk id (q_service r) (q_description r) (q_region r) (q_workaround r) (q_scope r)
    (q_created_at r) (q_updated_at r) (q_session_id r).

(** [INSERT INTO fixes (...)]; the row comes without its id. *)
Definition insert_fix (s : Store) (row : Fix) : result (Z * Store) :=
  if negb (scope_check (f_scope row)) then
    Raise (IntegrityError "CHECK constraint failed: scope")
  else if negb (session_known s (f_session_id row)) then
    Raise (IntegrityError "FOREIGN KEY constraint failed")
  else
    let id := next_id (map f_id (fixes s)) in
    Ok (id, with_fixes s (fixes s ++ [with_fix_id id row])%list).

Definition insert_convention (s : Store) (row : Convention) : result (Z * Store) :=
  if negb (scope_check (c_scope row)) then
    Raise (IntegrityError "CHECK constraint failed: scope")
  else if negb (session_known s (c_session_id row)) then
    Raise (IntegrityError "FOREIGN KEY constraint failed")
  else if existsb (same_key (c_category row) (c_pattern row)) (conventions s) then
    Raise (IntegrityError "UNIQUE constraint failed: conventions.category, conventions.pattern")
  else
    let id := next_id (map c_id (conventions s)) in
    Ok (id, with_conventions s (conventions s ++ [with_convention_id id row])%list).

Definition insert_quirk (s : Store) (row : Quirk) : result (Z * Store) :=
  if negb (scope_check (q_scope row)) then
    Raise (IntegrityError "CHECK constraint failed: scope")
  else if negb (session_known s (q_session_id row)) then
    Raise (IntegrityError "FOREIGN KEY constraint failed")
  else
    let id := next_id (map q_id (quirks s)) in
    Ok (id, with_quirks s (quirks s ++ [with_quirk_id id row])%list).

(** An operation on a connection returns its value or raises, and leaves a
    store behind; a statement that raises changes nothing. *)
Definition commit {A : Type} (conn : Store) (r : result (A * Store)) : result A * Store :=
  match r with
  | Ok (a, conn') => (Ok a, conn')
  | Raise e => (Raise e, conn)
  end.

(** [str(n)] for an int. *)
Definition str_of_int (n : Z) : string :=
  if n <? 0 then "-" ++ decimal (- n) else decimal n.

(** Truth value of an [Optional[str]]. *)
Definition truthy (s : option string) : bool :=
  match s with
  | Some (String _ _) => true
  | _ => false
  end.

Definition opt_eqb (a b : option string) : bool :=
  match a, b with
  | Some x, Some y => (x =? y)%string
  | None, None => true
  | _, _ => false
  end.

(** ** Write operations

    [now] is what [_now()] and the schema's timestamp defaults read from the
    clock during the call. *)

Definition record_fix (conn : Store) (now : string)
    (error_text root_cause fix_ : string) (resource provider : option string)
    (validated : Z) (scope : string) (session_id : option string)
    : result Z * Store :=
  let eh := _error_hash error_text in
  match fetchone (filter (fun r => (f_error_hash r =? eh)%string) (fixes conn)) with
  | Some existing =>
      let row_id := f_id existing in
      (Ok row_id,
       with_fixes conn
         (update_where (fun r => f_id r =? row_id)
            (set_hits (f_hit_count existing + 1) now) (fixes conn)))
  | None =>
      commit conn
        (insert_fix conn
           (mkFix 0 eh error_text root_cause fix_ resource provider validated scope
              now now 1 session_id))
  end.

Definition record_convention (conn : Store) (now : string)
    (category pattern : string) (example : option string) (source scope : string)
    (session_id : option string) : result Z * Store :=
  match fetchone (filter (same_key category pattern) (conventions conn)) with
  | Some existing =>
      let row_id := c_id existing in
      let new_confidence :=
        py_min (c_confidence existing + CORRECTION_DELTA)%py CONFIDENCE_CAP in
      let new_distinct :=
        if truthy session_id && negb (opt_eqb session_id (c_session_id existing))
        then c_distinct_sessions existing + 1
        else c_distinct_sessions existing in
      if negb (session_known conn session_id) then
        (Raise (IntegrityError "FOREIGN KEY constraint failed"), conn)
      else
        (Ok row_id,
         with_conventions conn
           (update_where (fun r => c_id r =? row_id)
              (set_learning new_confidence new_distinct session_id now)
              (conventions conn)))
  | None =>
      commit conn
        (insert_convention conn
           (mkConvention 0 category pattern example source scope now now
              CONFIDENCE_BASE session_id 1))
  end.

Definition record_quirk (conn : Store) (now : string)
    (service description : string) (region workaround : option string)
    (scope : string) (session_id : option string) : result Z * Store :=
  commit conn
    (insert_quirk conn
       (mkQuirk 0 service description region workaround scope now now session_id)).

Definition reinforce_convention (conn : Store) (now : string)
    (convention_id : Z) (session_id : option string) : result float * Store :=
  match fetchone (filter (fun r => c_id r =? convention_id) (conventions conn)) with
  | None => (Raise (ValueError ("Convention " ++ str_of_int convention_id ++ " not found")), conn)
  | Some row =>
      let new_confidence :=
        py_min (c_confidence row + REINFORCE_DELTA)%py CONFIDENCE_CAP in
      let bump := truthy session_id && negb (opt_eqb session_id (c_session_id row)) in
      let new_distinct :=
        if bump then c_distinct_sessions row + 1 else c_distinct_sessions row in
      let update_session_id := if bump then session_id else c_session_id row in
      if negb (session_known conn update_session_id) then
        (Raise (IntegrityError "FOREIGN KEY constraint failed"), conn)
      else
        (Ok new_confidence,
         with_conventions conn
           (update_where (fun r => c_id r =? convention_id)
              (set_learning new_confidence new_distinct update_session_id now)
              (conventions conn)))
  end.

Definition contradict_convention (conn : Store) (now : string) (convention_id : Z)
    : result float * Store :=
  (Ok CONTRADICTION_RESET,
   with_conventions conn
     (update_where (fun r => c_id r =? convention_id)
        (set_confidence CONTRADICTION_RESET now) (conventions conn))).

(** ** Read operations *)

(** [ORDER BY hit_count DESC]; rows with equal counts keep their order. *)
Fixpoint insert_by_hits (r : Fix) (l : list Fix) : list Fix :=
  match l with
  | [] => [r]
  | x :: l' => if f_hit_count x <=? f_hit_count r then r :: l else x :: insert_by_hits r l'
  end.

Definition order_by_hit_count_desc (rows : list Fix) : list Fix :=
  fold_right insert_by_hits [] rows.

Definition lookup_fix (conn : Store) (error_text error_hash resource scope_filter : option string)
    : list Fix :=
  let hash_condition :=
    if truthy error_hash then fun r => opt_eqb (Some (f_error_hash r)) error_hash
    else match error_text with
         | Some (String _ _ as t) => fun r => (f_error_hash r =? _error_hash t)%string
         | _ => fun _ => true
         end in
  let resource_condition :=
    if truthy resource then fun r => opt_eqb (f_resource r) resource else fun _ => true in
  let scope_condition :=
    if truthy scope_filter then fun r => opt_eqb (Some (f_scope r)) scope_filter
    else fun _ => true in
  order_by_hit_count_desc
    (filter (fun r => hash_condition r && resource_condition r && scope_condition r)
       (fixes conn)).

(** ** Override resolver *)

(** The keys of a fix dict that the resolver reads; [None] is a missing key. *)
Record FixDict : Type := mkFixDict {
  fd_scope : option string;
  fd_validated : option Z
}.

(** The keys of a convention dict that the resolver reads. *)
Record ConvDict : Type := mkConvDict {
  cd_scope : option string;
  cd_confidence : option float;
  cd_distinct_sessions : option Z
}.

(** [_row_to_dict], seen through the keys above. *)
Definition fix_dict (r : Fix) : FixDict :=
  mkFixDict (Some (f_scope r)) (Some (f_validated r)).

Definition conv_dict (c : Convention) : ConvDict :=
  mkConvDict (Some (c_scope c)) (Some (c_confidence c)) (Some (c_distinct_sessions c)).

(** [d.get(key, default)]. *)
Definition get {A : Type} (field : option A) (default : A) : A :=
  match field with
  | Some v => v
  | None => default
  end.

Definition _should_override (fix_ : FixDict) : bool * option string :=
  let scope := get (fd_scope fix_) "personal" in
  if (scope =? "team")%string || (scope =? "org")%string then
    (true, Some (scope ++ "-scoped"))
  else if (scope =? "personal")%string then
    match fd_validated fix_ with
    | Some 1 => (true, Some "validated fix")
    | _ => (false, None)
    end
  else (false, None).

(** The threshold [0.8 - 1e-9]. *)
Definition OVERRIDE_THRESHOLD : float := (literal 8 10 - literal 1 1000000000)%py.

Definition _should_override_convention (conv : ConvDict) : bool * option string :=
  let scope := get (cd_scope conv) "personal" in
  if (scope =? "team")%string || (scope =? "org")%string then
    (true, Some (scope ++ "-scoped"))
  else if (scope =? "personal")%string then
    let eff :=
      effective_confidence (get (cd_confidence conv) (of_int 0))
        (get (cd_distinct_sessions conv) 1) in
    if (eff >= OVERRIDE_THRESHOLD)%py then
      (true, Some ("confidence " ++ format_2f eff ++ " >= 0.8"))
    else (false, None)
  else (false, None).

(** ** Canon lookup ([canon_lib.match_error])

    A Canon signature is a JSON object of which only [error_pattern] is read;
    the regular-expression engine is a parameter: [re_search pattern text] is
    [re.search(pattern, text, re.IGNORECASE)] as a truth value, [None] when
    the pattern does not compile ([re.error]). *)

Fixpoint prefix_of (p s : string) : bool :=
  match p, s with
  | EmptyString, _ => true
  | String a p', String b s' => Ascii.eqb a b && prefix_of p' s'
  | String _ _, EmptyString => false
  end.

(** [p in s]. *)
Fixpoint contains (s p : string) : bool :=
  prefix_of p s ||
  match s with
  | EmptyString => false
  | String _ s' => contains s' p
  end.

Inductive Entry (Sig : Type) : Type :=
| CanonEntry (c : Sig)
| MemoryEntry (f : Fix).
Arguments CanonEntry {Sig} c.
Arguments MemoryEntry {Sig} f.

Record Merged (Sig : Type) : Type := mkMerged {
  source : string;
  overrides_canon : bool;
  override_reason : option string;
  entry : Entry Sig
}.
Arguments mkMerged {Sig}.
Arguments source {Sig}.
Arguments overrides_canon {Sig}.
Arguments override_reason {Sig}.
Arguments entry {Sig}.

Record QueryResult (Sig : Type) : Type := mkQueryResult {
  canon_results : list Sig;
  memory_results : list Fix;
  merged : list (Merged Sig)
}.
Arguments mkQueryResult {Sig}.
Arguments canon_results {Sig}.
Arguments memory_results {Sig}.
Arguments merged {Sig}.

Section Canon.

Variable Sig : Type.
Variable error_pattern : Sig -> string.
Variable re_search : string -> string -> option bool.

Definition match_error (error_text : string) (signatures : list Sig) : list Sig :=
  filter
    (fun sig =>
       let pattern := error_pattern sig in
       match re_search pattern error_text with
       | Some found => found
       | None => contains (lower error_text) (lower pattern)
       end)
    signatures.

Definition memory_entry (fix_ : Fix) : Merged Sig :=
  let '(override, reason) := _should_override (fix_dict fix_) in
  mkMerged "memory" override reason (MemoryEntry fix_).

Definition canon_entry (c : Sig) : Merged Sig :=
  mkMerged "canon" false None (CanonEntry c).

(** [signatures_file] is what [load_canon("error-signatures.json")] gives
    under the key "signatures", [None] when loading raises; [conn] is the
    database at [db_path]. *)
Definition query_with_priority (signatures_file : option (list Sig)) (conn : Store)
    (error_text : string) : QueryResult Sig :=
  let canon_results :=
    match signatures_file with
    | Some signatures => match_error error_text signatures
    | None => []
    end in
  let memory_fixes := lookup_fix conn (Some error_text) None None None in
  let '(overriding, non_overriding) :=
    partition (fun e => overrides_canon e) (map memory_entry memory_fixes) in
  let canon_entries := map canon_entry canon_results in
  mkQueryResult canon_results memory_fixes
    (overriding ++ canon_entries ++ non_overriding)%list.

End Canon.

(** ** Fork export

    The export works on files.  A path stands for the file it names.
    [file_at] gives what a path holds; [mkdir_ok p] tells whether
    [Path(p).parent.mkdir(parents=True, exist_ok=True)] succeeds and
    [can_open p] whether the process may open or create a file at [p].
    [plan table scope rowid] is the rank at which a [SELECT] without
    [ORDER BY] visits a row of [table]: the rowid itself for a table scan,
    the scope and then the rowid through an index on scope such as the
    schema in the tests declares for the three tables.

    The world holds the database files and directories at the paths that
    the call names.  The side files that SQLite keeps next to a database
    while a connection is open ([-wal], [-shm]) are not part of it, nor are
    the directories that [mkdir] makes on the way. *)

Inductive file : Type :=
| NotADatabase                        (* some other content *)
| Database (tables : option Store)    (* an SQLite file; [None]: no table yet *)
| Directory.

Record World : Type := mkWorld {
  file_at : string -> option file;
  mkdir_ok : string -> bool;
  can_open : string -> bool;
  plan : string -> string -> Z -> Z
}.

Definition is_directory (f : option file) : bool :=
  match f with
  | Some Directory => true
  | _ => false
  end.

(** Whether [sqlite3.connect(path)] can open or create a database at
    [path]: never at a directory. *)
Definition openable (w : World) (path : string) : bool :=
  can_open w path && negb (is_directory (file_at w path)).

Definition write_file (w : World) (path : string) (f : option file) : World :=
  mkWorld (fun p => if (p =? path)%string then f else file_at w p)
          (mkdir_ok w) (can_open w) (plan w).

(** [sqlite3.connect(path)] followed by a first read: a missing file is
    created empty. *)
Definition sqlite_open (w : World) (path : string) : result (option Store) * World :=
  if negb (openable w path) then
    (Raise (OperationalError "unable to open database file"), w)
  else
    match file_at w path with
    | None => (Ok None, write_file w path (Some (Database None)))
    | Some (Database tables) => (Ok tables, w)
    | Some NotADatabase => (Raise (DatabaseError "file is not a database"), w)
    | Some Directory => (Raise (OperationalError "unable to open database file"), w)
    end.

(** [SELECT * FROM t] on an opened database. *)
Definition select_all {A : Type} (table : Store -> list A) (name : string)
    (db : option Store) : result (list A) :=
  match db with
  | Some s => Ok (table s)
  | None => Raise (OperationalError ("no such table: " ++ name))
  end.

Definition in_scopes (scopes : list string) (scope : string) : bool :=
  existsb (String.eqb scope) scopes.

(** The rows in the order of their ranks; rows of equal rank keep their
    order. *)
Fixpoint insert_by_rank {A : Type} (rank : A -> Z) (r : A) (l : list A) : list A :=
  match l with
  | [] => [r]
  | x :: l' => if rank r <=? rank x then r :: l else x :: insert_by_rank rank r l'
  end.

Definition in_plan_order {A : Type} (rank : A -> Z) (rows : list A) : list A :=
  fold_right (insert_by_rank rank) [] rows.

(** [SELECT * FROM t WHERE scope IN (...)], which has no [ORDER BY]. *)
Definition select_where {A : Type} (rank : A -> Z) (p : A -> bool) (rows : list A)
    : list A :=
  in_plan_order rank (filter p rows).

(** The rows as the copy loops insert them: the id is left to the
    destination, the session is NULL, a convention counts one session. *)
Definition forked_fix (f : Fix) : Fix :=
  mkFix 0 (f_error_hash f) (f_error_text f) (f_root_cause f) (f_fix f) (f_resource f)
    (f_provider f) (f_validated f) (f_scope f) (f_created_at f) (f_updated_at f)
    (f_hit_count f) None.

Definition forked_convention (c : Convention) : Convention :=
  mkConvention 0 (c_category c) (c_pattern c) (c_example c) (c_source c) (c_scope c)
    (c_created_at c) (c_updated_at c) (c_confidence c) None 1.

Definition forked_quirk (q : Quirk) : Quirk :=
  mkQuirk 0 (q_service q) (q_description q) (q_region q) (q_workaround q) (q_scope q)
    (q_created_at q) (q_updated_at q) None.

(** The three copy loops. *)
Fixpoint copy_fixes (dst : Store) (rows : list Fix) : result Store :=
  match rows with
  | [] => Ok dst
  | f :: rest =>
      match insert_fix dst (forked_fix f) with
      | Ok (_, dst') => copy_fixes dst' rest
      | Raise e => Raise e
      end
  end.

Fixpoint copy_conventions (dst : Store) (rows : list Convention) : result Store :=
  match rows with
  | [] => Ok dst
  | c :: rest =>
      match insert_convention dst (forked_convention c) with
      | Ok (_, dst') => copy_conventions dst' rest
      | Raise e => Raise e
      end
  end.

Fixpoint copy_quirks (dst : Store) (rows : list Quirk) : result Store :=
  match rows with
  | [] => Ok dst
  | q :: rest =>
      match insert_quirk dst (forked_quirk q) with
      | Ok (_, dst') => copy_quirks dst' rest
      | Raise e => Raise e
      end
  end.

(** Everything after both connections are open, up to [dst.commit()]. *)
Definition copy_tables (rank_of : string -> string -> Z -> Z) (scopes : list string)
    (src : option Store) (dst : Store) : result Store :=
  match select_all fixes "fixes" src with
  | Raise e => Raise e
  | Ok all_fixes =>
  match copy_fixes dst
          (select_where (fun f => rank_of "fixes" (f_scope f) (f_id f))
             (fun f => in_scopes scopes (f_scope f)) all_fixes) with
  | Raise e => Raise e
  | Ok dst1 =>
  match select_all conventions "conventions" src with
  | Raise e => Raise e
  | Ok convs =>
  match copy_conventions dst1
          (select_where (fun c => rank_of "conventions" (c_scope c) (c_id c))
             (fun c => in_scopes scopes (c_scope c)) convs) with
  | Raise e => Raise e
  | Ok dst2 =>
  match select_all quirks "quirks" src with
  | Raise e => Raise e
  | Ok all_quirks =>
      copy_quirks dst2
        (select_where (fun q => rank_of "quirks" (q_scope q) (q_id q))
           (fun q => in_scopes scopes (q_scope q)) all_quirks)
  end end end end end.

(** Returns the output path, or raises; the world is as the call leaves it.
    [out.unlink()] raises IsADirectoryError, an OSError, when the output
    path is a directory.  The schema script commits on its own, so the
    destination holds the empty schema from then on; the copied rows reach
    the file with [dst.commit()]. *)
Definition export_for_fork (w : World) (db_path output_path scope_filter : string)
    : result string * World :=
  if negb (mkdir_ok w output_path) then
    (Raise (OSError "cannot create the destination directory"), w)
  else if is_directory (file_at w output_path) then
    (Raise (OSError "Is a directory"), w)
  else
    let w1 := write_file w output_path None in
    if negb (openable w1 output_path) then
      (Raise (OperationalError "unable to open database file"), w1)
    else
      let w2 := write_file w1 output_path (Some (Database (Some empty_store))) in
      let scopes := if (scope_filter =? "org")%string then ["org"] else ["team"; "org"] in
      match sqlite_open w2 db_path with
      | (Raise e, w3) => (Raise e, w3)
      | (Ok src, w3) =>
          match copy_tables (plan w3) scopes src empty_store with
          | Raise e => (Raise e, w3)
          | Ok dst => (Ok output_path, write_file w3 output_path (Some (Database (Some dst))))
          end
      end.

Arguments memory_entry {Sig} fix_.
Arguments canon_entry {Sig} c.
Arguments match_error {Sig} error_pattern re_search error_text signatures.
Arguments query_with_priority {Sig} error_pattern re_search signatures_file conn error_text.

(** * Vocabulary of the properties

    Stores and worlds of the examples, what an update makes of a row, the
    lookups by key, and the invariants that the statements below use. *)

(** Runs an operation for its effect on the store. *)
Definition after {A : Type} (r : result A * Store) : Store := snd r.

Definition three_sessions : Store :=
  mkStore [] [] [] ["session-A"; "session-B"; "session-C"; "session-D"].

(** A correction, then reinforcements from three other sessions. *)
Definition lifecycle : Store :=
  after (reinforce_convention
    (after (reinforce_convention
      (after (reinforce_convention
        (after (record_convention three_sessions "t1" "naming" "snake_case" None
                  "correction" "personal" (Some "session-A")))
        "t2" 1 (Some "session-B")))
      "t3" 1 (Some "session-C")))
    "t4" 1 (Some "session-D")).

(** What an assertion makes of the row it finds. *)
Definition asserted (existing : Convention) (now : string) (session_id : option string)
    : Convention :=
  set_learning
    (py_min (c_confidence existing + CORRECTION_DELTA)%py CONFIDENCE_CAP)
    (if truthy session_id && negb (opt_eqb session_id (c_session_id existing))
     then c_distinct_sessions existing + 1 else c_distinct_sessions existing)
    session_id now existing.

(** What a reinforcement makes of the row it finds. *)
Definition reinforced (row : Convention) (now : string) (session_id : option string)
    : Convention :=
  let bump := truthy session_id && negb (opt_eqb session_id (c_session_id row)) in
  set_learning
    (py_min (c_confidence row + REINFORCE_DELTA)%py CONFIDENCE_CAP)
    (if bump then c_distinct_sessions row + 1 else c_distinct_sessions row)
    (if bump then session_id else c_session_id row)
    now row.

Definition find_convention (conn : Store) (category pattern : string) : option Convention :=
  fetchone (filter (same_key category pattern) (conventions conn)).

Definition convention_by_id (conn : Store) (id : Z) : option Convention :=
  fetchone (filter (fun r => c_id r =? id) (conventions conn)).

Definition has_hash (h : string) (r : Fix) : bool := (f_error_hash r =? h)%string.

Definition find_fix (conn : Store) (h : string) : option Fix :=
  fetchone (filter (has_hash h) (fixes conn)).

(** The invariant of the fixes table. *)
Definition one_row_per_hash (conn : Store) : Prop :=
  forall h, (List.length (filter (has_hash h) (fixes conn)) <= 1)%nat.

(** One call of [record_fix]: the time it runs at and its arguments. *)
Record FixCall : Type := mkFixCall {
  at_time : string;
  call_error_text : string;
  call_root_cause : string;
  call_fix : string;
  call_resource : option string;
  call_provider : option string;
  call_validated : Z;
  call_scope : string;
  call_session_id : option string
}.

Definition record_fix_call (conn : Store) (c : FixCall) : result Z * Store :=
  record_fix conn (at_time c) (call_error_text c) (call_root_cause c) (call_fix c)
    (call_resource c) (call_provider c) (call_validated c) (call_scope c)
    (call_session_id c).

(** Calls one after the other on the same connection. *)
Fixpoint record_fix_calls (conn : Store) (calls : list FixCall)
    : list (result Z) * Store :=
  match calls with
  | [] => ([], conn)
  | c :: rest =>
      let (r, conn1) := record_fix_call conn c in
      let (rs, conn2) := record_fix_calls conn1 rest in
      (r :: rs, conn2)
  end.

Definition with_validated (v : Z) (r : Fix) : Fix :=
  mkFix (f_id r) (f_error_hash r) (f_error_text r) (f_root_cause r) (f_fix r)
    (f_resource r) (f_provider r) v (f_scope r) (f_created_at r) (f_updated_at r)
    (f_hit_count r) (f_session_id r).

(** A personal unvalidated fix is reported, then reported again with
    [validated = 1]. *)
Definition reported_twice : Store :=
  after (record_fix
           (after (record_fix empty_store "t1" "Error: timeout" "Network issue"
                     "Increase timeout" None None 0 "personal" None))
           "t2" "Error: timeout" "Network issue" "Increase timeout" None None 1
           "personal" None).

(** The rule of the spec: which scopes a filter lets through. *)
Definition qualifies (scope_filter scope : string) : bool :=
  if (scope_filter =? "org")%string then (scope =? "org")%string
  else (scope =? "team")%string || (scope =? "org")%string.

(** Rows numbered [k], [k + 1], ... in their order. *)
Fixpoint number_from {A : Type} (with_id : Z -> A -> A) (k : Z) (rows : list A) : list A :=
  match rows with
  | [] => []
  | r :: rest => with_id k r :: number_from with_id (k + 1) rest
  end.

Definition key_of (c : Convention) : string * string := (c_category c, c_pattern c).

(** The source of the fork tests: one fix per scope, a personal and a team
    convention, a personal and an org quirk, all from one session. *)
Definition fork_test_source : Store :=
  mkStore
    [mkFix 1 "h1" "personal fix" "rc1" "f1" None None 0 "personal" "t0" "t0" 1 (Some "sess-src");
     mkFix 2 "h2" "team fix" "rc2" "f2" None None 0 "team" "t0" "t0" 1 (Some "sess-src");
     mkFix 3 "h3" "org fix" "rc3" "f3" None None 0 "org" "t0" "t0" 1 (Some "sess-src")]
    [mkConvention 1 "naming" "personal conv" None "correction" "personal" "t0" "t0"
       (literal 8 10) (Some "sess-src") 3;
     mkConvention 2 "naming" "team conv" None "correction" "team" "t0" "t0"
       (literal 9 10) (Some "sess-src") 5]
    [mkQuirk 1 "ec2" "personal quirk" None None "personal" "t0" "t0" (Some "sess-src");
     mkQuirk 2 "rds" "org quirk" None None "org" "t0" "t0" (Some "sess-src")]
    ["sess-src"].

(** A table scan visits the rows by rowid. *)
Definition table_scan : string -> string -> Z -> Z := fun _ _ rowid => rowid.

(** A scan through an index on scope visits the rows by scope, in the
    order of the strings, and then by rowid. *)
Definition scope_index : string -> string -> Z -> Z :=
  fun _ scope rowid =>
    (if (scope =? "org")%string then 0 else if (scope =? "personal")%string then 1 else 2)
    * 2 ^ 63 + rowid.

Definition fork_test_world : World :=
  mkWorld (fun p => if (p =? "source.db")%string
                    then Some (Database (Some fork_test_source)) else None)
          (fun _ => true) (fun _ => true) scope_index.

(** A file that opens as a store with the schema in place. *)
Definition usable (f : option file) : bool :=
  match f with
  | Some (Database (Some _)) => true
  | _ => false
  end.

(** The ways a source fails to be a store. *)
Definition source_unreadable (w : World) (db_path : string) : Prop :=
  openable w db_path = false
  \/ file_at w db_path = None
  \/ file_at w db_path = Some NotADatabase
  \/ file_at w db_path = Some (Database None).

Definition nothing_there : World :=
  mkWorld (fun _ => None) (fun _ => true) (fun _ => true) scope_index.

(** Three fixes filed under one error text: a personal one that is not
    validated, a team one, and a personal one that is validated. *)
Definition mixed_fixes : Store :=
  mkStore
    [mkFix 1 (_error_hash "Error: timeout") "Error: timeout" "rc1" "f1" None None 0
       "personal" "t0" "t0" 5 None;
     mkFix 2 (_error_hash "Error: timeout") "Error: timeout" "rc2" "f2" None None 0
       "team" "t0" "t0" 3 None;
     mkFix 3 (_error_hash "Error: timeout") "Error: timeout" "rc3" "f3" None None 1
       "personal" "t0" "t0" 1 None]
    [] [] [].

(** A corpus of literal patterns, and an engine for them: a literal
    pattern is found where it occurs, letter case aside. *)
Definition literal_corpus : list string := ["access denied"; "timeout"].

Definition literal_search (pattern text : string) : option bool :=
  Some (contains (lower text) (lower pattern)).

(** The columns that a fork copies from a row: all but the id and the
    session, for a convention also all but the session count. *)
Abbreviation fix_columns :=
  (fun f : Fix =>
     (f_error_hash f, f_error_text f, f_root_cause f, f_fix f, f_resource f, f_provider f,
      f_validated f, f_scope f, f_created_at f, f_updated_at f, f_hit_count f)).

Abbreviation convention_columns :=
  (fun c : Convention =>
     (c_category c, c_pattern c, c_example c, c_source c, c_scope c, c_created_at c,
      c_updated_at c, c_confidence c)).

Abbreviation quirk_columns :=
  (fun q : Quirk =>
     (q_service q, q_description q, q_region q, q_workaround q, q_scope q, q_created_at q,
      q_updated_at q)).

(** * Further operations of the library *)

(** ** The other read operations of [memory_lib] *)

(** A row of [lookup_conventions]: the column values and the added key
    "effective_confidence". *)
Record ConventionResult : Type := mkConventionResult {
  cr_row : Convention;
  cr_effective_confidence : float
}.

(** [ORDER BY confidence DESC]; rows with equal confidence keep their order. *)
Fixpoint insert_by_confidence (r : Convention) (l : list Convention) : list Convention :=
  match l with
  | [] => [r]
  | x :: l' =>
      if leb (c_confidence x) (c_confidence r) then r :: l
      else x :: insert_by_confidence r l'
  end.

Definition order_by_confidence_desc (rows : list Convention) : list Convention :=
  fold_right insert_by_confidence [] rows.

Definition lookup_conventions (conn : Store) (category scope_filter : option string)
    (min_confidence : float) : list ConventionResult :=
  let category_condition :=
    if truthy category then fun r => opt_eqb (Some (c_category r)) category
    else fun _ => true in
  let scope_condition :=
    if truthy scope_filter then fun r => opt_eqb (Some (c_scope r)) scope_filter
    else fun _ => true in
  let confidence_condition :=
    if (of_int 0 < min_confidence)%py then fun r => (c_confidence r >= min_confidence)%py
    else fun _ => true in
  map (fun d => mkConventionResult d
                  (effective_confidence (c_confidence d) (c_distinct_sessions d)))
    (order_by_confidence_desc
       (filter (fun r => category_condition r && scope_condition r && confidence_condition r)
          (conventions conn))).

Definition lookup_quirks (conn : Store) (service region scope_filter : option string)
    : list Quirk :=
  let service_condition :=
    if truthy service then fun r => opt_eqb (Some (q_service r)) service else fun _ => true in
  let region_condition :=
    if truthy region then fun r => opt_eqb (q_region r) region else fun _ => true in
  let scope_condition :=
    if truthy scope_filter then fun r => opt_eqb (Some (q_scope r)) scope_filter
    else fun _ => true in
  filter (fun r => service_condition r && region_condition r && scope_condition r)
    (quirks conn).

(** ** Deduplication ([canon_lib.dedup_by_field])

    [field_of entry] is [entry.get(field, "")], a string; [seen] is the set
    of keys met so far. *)

Section Dedup.

Variable Entry : Type.
Variable field_of : Entry -> string.

Fixpoint dedup_from (seen : list string) (entries : list Entry) : list Entry :=
  match entries with
  | [] => []
  | entry :: rest =>
      let key := field_of entry in
      if truthy (Some key) && negb (existsb (String.eqb key) seen)
      then entry :: dedup_from (key :: seen) rest
      else dedup_from seen rest
  end.

Definition dedup_by_field (entries : list Entry) : list Entry := dedup_from [] entries.

End Dedup.

Arguments dedup_from {Entry} field_of seen entries.
Arguments dedup_by_field {Entry} field_of entries.

(** ** Version comparison ([tf_plan_analyzer._compare_versions]) *)

(** [v.split(".")]: the pieces between the dots, at least one. *)
Fixpoint split_dots (piece : string) (v : string) : list string :=
  match v with
  | EmptyString => [reverse piece]
  | String c v' =>
      if Ascii.eqb c "." then reverse piece :: split_dots EmptyString v'
      else split_dots (String c piece) v'
  end.

Definition is_ascii_digit (c : ascii) : bool := (48 <=? code c) && (code c <=? 57).

(** The characters below 256 that [str.isdigit] accepts and [int] does not:
    the superscripts two, three and one. *)
Definition is_superscript_digit (c : ascii) : bool :=
  (code c =? 178) || (code c =? 179) || (code c =? 185).

Fixpoint all_chars (p : ascii -> bool) (s : string) : bool :=
  match s with
  | EmptyString => true
  | String c s' => p c && all_chars p s'
  end.

(** [x.isdigit()]: non-empty and every character a digit. *)
Definition isdigit (x : string) : bool :=
  match x with
  | EmptyString => false
  | _ => all_chars (fun c => is_ascii_digit c || is_superscript_digit c) x
  end.

(** The value of a string of ASCII digits, most significant first. *)
Fixpoint digits_value (acc : Z) (x : string) : Z :=
  match x with
  | EmptyString => acc
  | String c x' => digits_value (10 * acc + (code c - 48)) x'
  end.

(** [int(x)] on a string that passed [isdigit]. *)
Definition int_of_digits (x : string) : result Z :=
  if all_chars is_ascii_digit x then Ok (digits_value 0 x)
  else Raise (ValueError "invalid literal for int() with base 10").

(** [[int(x) for x in v.split(".") if x.isdigit()]]. *)
Fixpoint ints_of (pieces : list string) : result (list Z) :=
  match pieces with
  | [] => Ok []
  | x :: rest =>
      if isdigit x then
        match int_of_digits x with
        | Raise e => Raise e
        | Ok n =>
            match ints_of rest with
            | Raise e => Raise e
            | Ok ns => Ok (n :: ns)
            end
        end
      else ints_of rest
  end.

Definition version_parts (v : string) : result (list Z) := ints_of (split_dots EmptyString v).

(** The loop over [range(max(len(pa), len(pb)))]; a missing part counts 0. *)
Fixpoint compare_at (indices : list nat) (pa pb : list Z) : Z :=
  match indices with
  | [] => 0
  | i :: rest =>
      let va := nth i pa 0 in
      let vb := nth i pb 0 in
      if va <? vb then -1
      else if va >? vb then 1
      else compare_at rest pa pb
  end.

Definition _compare_versions (a b : string) : result Z :=
  match version_parts a with
  | Raise e => Raise e
  | Ok pa =>
      match version_parts b with
      | Raise e => Raise e
      | Ok pb => Ok (compare_at (seq 0 (Nat.max (List.length pa) (List.length pb))) pa pb)
      end
  end.

(** ** Sequences of write operations *)

Inductive write_op : Type :=
| RecordFix (error_text root_cause fix_ : string) (resource provider : option string)
    (validated : Z) (scope : string) (session_id : option string)
| RecordConvention (category pattern : string) (example : option string)
    (source scope : string) (session_id : option string)
| RecordQuirk (service description : string) (region workaround : option string)
    (scope : string) (session_id : option string)
| ReinforceConvention (convention_id : Z) (session_id : option string)
| ContradictConvention (convention_id : Z).

(** Whether the call raised, and the store it leaves. *)
Definition run_op (conn : Store) (now : string) (op : write_op) : bool * Store :=
  match op with
  | RecordFix error_text root_cause fix_ resource provider validated scope session_id =>
      match record_fix conn now error_text root_cause fix_ resource provider validated
              scope session_id with
      | (Ok _, conn') => (false, conn')
      | (Raise _, conn') => (true, conn')
      end
  | RecordConvention category pattern example source scope session_id =>
      match record_convention conn now category pattern example source scope session_id with
      | (Ok _, conn') => (false, conn')
      | (Raise _, conn') => (true, conn')
      end
  | RecordQuirk service description region workaround scope session_id =>
      match record_quirk conn now service description region workaround scope session_id with
      | (Ok _, conn') => (false, conn')
      | (Raise _, conn') => (true, conn')
      end
  | ReinforceConvention convention_id session_id =>
      match reinforce_convention conn now convention_id session_id with
      | (Ok _, conn') => (false, conn')
      | (Raise _, conn') => (true, conn')
      end
  | ContradictConvention convention_id =>
      match contradict_convention conn now convention_id with
      | (Ok _, conn') => (false, conn')
      | (Raise _, conn') => (true, conn')
      end
  end.

(** The calls of a session, each at its time, a raising call being caught. *)
Fixpoint run_ops (conn : Store) (ops : list (string * write_op)) : Store :=
  match ops with
  | [] => conn
  | (now, op) :: rest => run_ops (snd (run_op conn now op)) rest
  end.

(** * Vocabulary of the further properties *)

(** Stripping on the right, read from the left. *)
Fixpoint rstrip_rec (s : string) : string :=
  match s with
  | EmptyString => EmptyString
  | String c s' =>
      match rstrip_rec s' with
      | EmptyString => if isspace c then EmptyString else String c EmptyString
      | String d r => String c (String d r)
      end
  end.

(** Non-empty and beginning with a character that is not whitespace. *)
Definition starts_clean (s : string) : bool :=
  match s with
  | EmptyString => false
  | String c _ => negb (isspace c)
  end.

(** Non-empty and ending with a character that is not whitespace. *)
Fixpoint ends_nonspace (s : string) : bool :=
  match s with
  | EmptyString => false
  | String c s' =>
      match s' with
      | EmptyString => negb (isspace c)
      | String _ _ => ends_nonspace s'
      end
  end.

(** Every whitespace character is one space between two other characters;
    [after_space] tells that a space came just before (or nothing yet). *)
Fixpoint spaced (after_space : bool) (s : string) : bool :=
  match s with
  | EmptyString => negb after_space
  | String c s' =>
      if isspace c then negb after_space && Ascii.eqb c " " && spaced true s'
      else spaced false s'
  end.

(** The shape of a normalized error text. *)
Definition normal_form (s : string) : Prop :=
  (s = "" \/ spaced true s = true) /\ lower s = s.

(** [a] comes before [b] under [ORDER BY hit_count DESC]. *)
Definition hits_desc (a b : Fix) : Prop := f_hit_count b <= f_hit_count a.


(** A number that is not negative and not infinite. *)
Definition finite_nonneg (x : float) : Prop :=
  match x with
  | S754_zero _ => True
  | S754_finite s _ _ => s = false
  | _ => False
  end.

(** A number with the sign given, zero and infinity included. *)
Definition has_sign (sx : bool) (x : float) : Prop :=
  match x with
  | S754_nan => False
  | S754_zero s | S754_infinity s | S754_finite s _ _ => s = sx
  end.

(** The changes that the write operations make, one constructor for each
    statement that writes. *)
Inductive effect (conn : Store) : Store -> Prop :=
| effect_none : effect conn conn
| effect_fix_hit (existing : Fix) (now : string) :
    In existing (fixes conn) ->
    effect conn
      (with_fixes conn
         (update_where (fun r => f_id r =? f_id existing)
            (set_hits (f_hit_count existing + 1) now) (fixes conn)))
| effect_fix_new (row : Fix) :
    f_id row = next_id (map f_id (fixes conn)) ->
    f_error_hash row = _error_hash (f_error_text row) ->
    f_hit_count row = 1 ->
    scope_check (f_scope row) = true ->
    session_known conn (f_session_id row) = true ->
    find_fix conn (f_error_hash row) = None ->
    effect conn (with_fixes conn (fixes conn ++ [row])%list)
| effect_learned (existing : Convention) (id : Z) (delta : float) (distinct : Z)
    (session_id : option string) (now : string) :
    In existing (conventions conn) ->
    delta = CORRECTION_DELTA \/ delta = REINFORCE_DELTA ->
    distinct = c_distinct_sessions existing
    \/ distinct = c_distinct_sessions existing + 1 ->
    session_known conn session_id = true ->
    effect conn
      (with_conventions conn
         (update_where (fun r => c_id r =? id)
            (set_learning (py_min (c_confidence existing + delta)%py CONFIDENCE_CAP)
               distinct session_id now)
            (conventions conn)))
| effect_reset (id : Z) (now : string) :
    effect conn
      (with_conventions conn
         (update_where (fun r => c_id r =? id) (set_confidence CONTRADICTION_RESET now)
            (conventions conn)))
| effect_convention_new (row : Convention) :
    c_id row = next_id (map c_id (conventions conn)) ->
    c_confidence row = CONFIDENCE_BASE ->
    c_distinct_sessions row = 1 ->
    scope_check (c_scope row) = true ->
    session_known conn (c_session_id row) = true ->
    find_convention conn (c_category row) (c_pattern row) = None ->
    effect conn (with_conventions conn (conventions conn ++ [row])%list)
| effect_quirk_new (row : Quirk) :
    q_id row = next_id (map q_id (quirks conn)) ->
    scope_check (q_scope row) = true ->
    session_known conn (q_session_id row) = true ->
    effect conn (with_quirks conn (quirks conn ++ [row])%list).

(** The keys of the schema: ids are unique in each table, no two fixes
    share an error hash, no two conventions a (category, pattern). *)
Definition keys_unique (conn : Store) : Prop :=
  NoDup (map f_id (fixes conn))
  /\ NoDup (map c_id (conventions conn))
  /\ NoDup (map q_id (quirks conn))
  /\ NoDup (map f_error_hash (fixes conn))
  /\ NoDup (map key_of (conventions conn)).

(** Every row has a scope of the schema and a session that exists, if any. *)
Definition constraints_hold (conn : Store) : Prop :=
  Forall (fun r => scope_check (f_scope r) = true
                   /\ session_known conn (f_session_id r) = true) (fixes conn)
  /\ Forall (fun c => scope_check (c_scope c) = true
                      /\ session_known conn (c_session_id c) = true) (conventions conn)
  /\ Forall (fun q => scope_check (q_scope q) = true
                      /\ session_known conn (q_session_id q) = true) (quirks conn).

(** Every fix carries the hash of its own text and at least one hit; every
    convention at least one session and a confidence of at most 1.0. *)
Definition counters_sound (conn : Store) : Prop :=
  Forall (fun r => f_error_hash r = _error_hash (f_error_text r)
                   /\ 1 <= f_hit_count r) (fixes conn)
  /\ Forall (fun c => 1 <= c_distinct_sessions c
                      /\ leb (c_confidence c) CONFIDENCE_CAP = true) (conventions conn).

(** A session's calls: a timeout reported twice, a convention asserted,
    reinforced from another session and contradicted, and a quirk with a
    scope that the schema rejects. *)
Definition session_log : list (string * write_op) :=
  [("t1", RecordFix "Error: timeout" "Network issue" "Increase timeout" None None 0
            "personal" (Some "session-A"));
   ("t2", RecordFix "error:  TIMEOUT" "Network issue" "Increase timeout" None None 1
            "personal" (Some "session-B"));
   ("t3", RecordConvention "naming" "snake_case" None "correction" "personal"
            (Some "session-A"));
   ("t4", ReinforceConvention 1 (Some "session-B"));
   ("t5", RecordQuirk "s3" "eventual consistency" None None "galaxy" None);
   ("t6", ContradictConvention 1);
   ("t7", RecordQuirk "s3" "eventual consistency" None None "org" None)].

(** The calls of [reinforce_convention] on one convention, each with its
    time and its session. *)
Fixpoint reinforce_each (conn : Store) (convention_id : Z) (visits : list (string * string))
    : Store :=
  match visits with
  | [] => conn
  | (now, session_id) :: rest =>
      reinforce_each (after (reinforce_convention conn now convention_id (Some session_id)))
        convention_id rest
  end.

(** How often the session changes along the visits, from the one stored. *)
Fixpoint session_changes (stored : option string) (visits : list string) : Z :=
  match visits with
  | [] => 0
  | session_id :: rest =>
      (if opt_eqb (Some session_id) stored then 0 else 1)
      + session_changes (Some session_id) rest
  end.

(** The store that a fork of [src] under [scope_filter] holds when the
    rows are visited in the order of [rank_of]. *)
Definition forked (rank_of : string -> string -> Z -> Z) (scope_filter : string)
    (src : Store) : Store :=
  mkStore
    (number_from with_fix_id 1
       (map forked_fix
          (select_where (fun f => rank_of "fixes" (f_scope f) (f_id f))
             (fun f => qualifies scope_filter (f_scope f)) (fixes src))))
    (number_from with_convention_id 1
       (map forked_convention
          (select_where (fun c => rank_of "conventions" (c_scope c) (c_id c))
             (fun c => qualifies scope_filter (c_scope c)) (conventions src))))
    (number_from with_quirk_id 1
       (map forked_quirk
          (select_where (fun q => rank_of "quirks" (q_scope q) (q_id q))
             (fun q => qualifies scope_filter (q_scope q)) (quirks src))))
    [].

(** * Properties *)

Arguments literal : simpl never.
Arguments py_min : simpl never.
Arguments Float64.add : simpl never.
Arguments _error_hash : simpl never.
Arguments str_of_int : simpl never.

(** ** SHA-256 on the standard test vectors *)

Example sha256_empty :
  SHA256.hexdigest (encode "")
  = "e3b0c44298fc1c149afbf4c8996fb92427ae41e4649b934ca495991b7852b855".
Proof. vm_compute. reflexivity. Qed.

Example sha256_abc :
  SHA256.hexdigest (encode "abc")
  = "ba7816bf8f01cfea414140de5dae2223b00361a396177a9cb410ff61f20015ad".
Proof. vm_compute. reflexivity. Qed.

Example sha256_two_blocks :
  SHA256.hexdigest (encode "abcdbcdecdefdefgefghfghighijhijkijkljklmklmnlmnomnopnopq")
  = "248d6a61d20638b8e5c026930c3e6039a33ce45964ff2167f6ecedd419db06c1".
Proof. vm_compute. reflexivity. Qed.

Example normalize_example :
  _normalize_error "  Error:   TIMEOUT after	30s " = "error: timeout after 30s".
Proof. vm_compute. reflexivity. Qed.

(** ** The model on cases of the repository's tests *)

(** test_scope_constraint_enforced *)
Example invalid_scope_is_rejected :
  record_fix three_sessions "t1" "Error: bad" "Bad" "Fix" None None 0 "invalid" None
  = (Raise (IntegrityError "CHECK constraint failed: scope"), three_sessions).
Proof. vm_compute. reflexivity. Qed.

(** A session that is not in the sessions table. *)
Example unknown_session_is_rejected :
  record_fix three_sessions "t1" "Error: bad" "Bad" "Fix" None None 0 "personal"
    (Some "session-Z")
  = (Raise (IntegrityError "FOREIGN KEY constraint failed"), three_sessions).
Proof. vm_compute. reflexivity. Qed.

(** test_full_lifecycle *)
Example full_lifecycle :
  map (fun c => (format_2f (c_confidence c), c_distinct_sessions c,
                 format_2f (effective_confidence (c_confidence c) (c_distinct_sessions c))))
    (conventions lifecycle)
  = [("0.80", 4, "0.95")].
Proof. vm_compute. reflexivity. Qed.

(** test_should_override_at_threshold: sessions A, B and C on one pattern. *)
Example three_sessions_reach_the_threshold :
  map (fun c => (format_2f (c_confidence c), c_distinct_sessions c,
                 _should_override_convention (conv_dict c)))
    (conventions
       (after (reinforce_convention
         (after (reinforce_convention
           (after (record_convention three_sessions "t1" "naming"
                     "s3-buckets-use-kebab-case" None "correction" "personal"
                     (Some "session-A")))
           "t2" 1 (Some "session-B")))
         "t3" 1 (Some "session-C"))))
  = [("0.70", 3, (true, Some "confidence 0.80 >= 0.8"))].
Proof. vm_compute. reflexivity. Qed.

(** test_contradict_resets_to_0_3 *)
Example contradict_resets :
  fst (contradict_convention lifecycle "t5" 1) = Ok (literal 3 10)
  /\ map (fun c => (format_2f (c_confidence c), c_distinct_sessions c))
       (conventions (after (contradict_convention lifecycle "t5" 1)))
     = [("0.30", 4)].
Proof. vm_compute. split; reflexivity. Qed.

(** ** Floats: the constants and Python's [min] *)

Example ceiling_bits : SINGLE_SESSION_CEILING = S754_finite false 0x16666666666666 (-53).
Proof. vm_compute. reflexivity. Qed.

Example threshold_bits : OVERRIDE_THRESHOLD = S754_finite false 7205759394785595 (-53).
Proof. vm_compute. reflexivity. Qed.

Example literal_0_8_bits : literal 8 10 = S754_finite false 7205759403792794 (-53).
Proof. vm_compute. reflexivity. Qed.

Example literal_0_79_bits : literal 79 100 = S754_finite false 7115687411245384 (-53).
Proof. vm_compute. reflexivity. Qed.

Example effective_confidence_0_7_5 :
  format_2f (effective_confidence (literal 7 10) 5) = "0.90".
Proof. vm_compute. reflexivity. Qed.

Example effective_confidence_0_95_10 :
  effective_confidence (literal 95 100) 10 = literal 1 1.
Proof. vm_compute. reflexivity. Qed.

Lemma SFcompare_antisym (a b : float) :
  SFcompare a b = option_map CompOpp (SFcompare b a).
Proof.
  destruct a as [sa | sa | | sa ma ea], b as [sb | sb | | sb mb eb]; simpl;
    try destruct sa; try destruct sb; simpl; try reflexivity.
  - rewrite (Z.compare_antisym eb ea).
    destruct (eb ?= ea); simpl; try reflexivity.
    f_equal. rewrite CompOpp_involutive. exact (Pos.compare_cont_antisym ma mb Eq).
  - rewrite (Z.compare_antisym eb ea).
    destruct (eb ?= ea); simpl; try reflexivity.
    f_equal. symmetry. exact (Pos.compare_cont_antisym mb ma Eq).
Qed.

Lemma SFcompare_refl (a : float) : is_nan a = false -> SFcompare a a = Some Eq.
Proof.
  destruct a as [s | s | | s m e]; simpl; intros H; try discriminate;
    destruct s; try reflexivity;
    rewrite Z.compare_refl, Pos.compare_cont_refl; reflexivity.
Qed.

(** On numbers Python's [min] is the least of its arguments in the order of
    the floats, and one of them. *)
Lemma py_min_least (a b : float) :
  is_nan a = false -> is_nan b = false ->
  leb (py_min a b) a = true /\ leb (py_min a b) b = true
  /\ (py_min a b = a \/ py_min a b = b).
Proof.
  intros Ha Hb. unfold py_min, leb, ltb, SFleb, SFltb.
  destruct (SFcompare b a) as [[ | | ] | ] eqn:E.
  - rewrite (SFcompare_refl a Ha), SFcompare_antisym, E. simpl. auto.
  - rewrite E, (SFcompare_refl b Hb). auto.
  - rewrite (SFcompare_refl a Ha), SFcompare_antisym, E. simpl. auto.
  - destruct a, b; simpl in *; discriminate.
Qed.

(** ** C1 *)

(** C1: for every raw confidence and distinct-session count,
    [effective_confidence] is [min(raw, 0.7)] when the count is at most 1 and
    [min(raw + min((count - 1) * 0.05, 0.2), 1.0)] otherwise, with Python's
    [min] and float arithmetic; in particular with count 1 it is
    [min(raw, 0.7)], which for a number [raw] also holds under Python's [==]
    and is the lesser of [raw] and 0.7. *)
Theorem effective_confidence_formula (raw : float) (distinct_sessions : Z) :
  effective_confidence raw distinct_sessions =
    (if distinct_sessions <=? 1 then py_min raw (literal 7 10)
     else py_min
            (raw + py_min (of_int (distinct_sessions - 1) * literal 5 100)
                     (literal 2 10))%py
            (literal 1 1))
  /\ effective_confidence raw 1 = py_min raw (literal 7 10)
  /\ (is_nan raw = false ->
      Float64.eqb (effective_confidence raw 1) (py_min raw (literal 7 10)) = true
      /\ leb (effective_confidence raw 1) raw = true
      /\ leb (effective_confidence raw 1) (literal 7 10) = true
      /\ (effective_confidence raw 1 = raw \/ effective_confidence raw 1 = literal 7 10)).
Proof.
  split; [| split].
  - unfold effective_confidence. destruct (distinct_sessions <=? 1); reflexivity.
  - reflexivity.
  - intros Hraw. change (effective_confidence raw 1) with (py_min raw (literal 7 10)).
    assert (H07 : is_nan (literal 7 10) = false) by (vm_compute; reflexivity).
    destruct (py_min_least raw (literal 7 10) Hraw H07) as (H1 & H2 & Hone).
    split; [| auto].
    unfold Float64.eqb, SFeqb. rewrite SFcompare_refl; [reflexivity |].
    destruct Hone as [-> | ->]; assumption.
Qed.

Lemma effective_confidence_formula_witness :
  effective_confidence (literal 9 10) 1 = literal 7 10
  /\ leb (effective_confidence (literal 9 10) 1) (literal 9 10) = true.
Proof.
  destruct (effective_confidence_formula (literal 9 10) 1) as (_ & Heq & Hle).
  destruct (Hle eq_refl) as (_ & Hraw & _ & _).
  split; [rewrite Heq; vm_compute; reflexivity | exact Hraw].
Defined.

(** ** C2 *)

Lemma compare_cont_Z (a b : positive) :
  PosDef.Pos.compare_cont Eq a b = (Zpos a ?= Zpos b).
Proof. reflexivity. Qed.

Lemma at_least_0_8_passes (eff : float) :
  leb (literal 8 10) eff = true -> (eff >= OVERRIDE_THRESHOLD)%py = true.
Proof.
  rewrite literal_0_8_bits, threshold_bits. unfold geb, leb, SFleb.
  destruct eff as [s | s | | s m e]; cbn [SFcompare]; try destruct s;
    try discriminate; try reflexivity.
  destruct (-53 ?= e); try discriminate; try reflexivity.
  rewrite !compare_cont_Z.
  destruct (Z.compare_spec 7205759403792794 (Zpos m)); try discriminate;
    intros _; destruct (Z.compare_spec 7205759394785595 (Zpos m)); try reflexivity; lia.
Qed.

Lemma at_most_0_79_fails (eff : float) :
  leb eff (literal 79 100) = true -> (eff >= OVERRIDE_THRESHOLD)%py = false.
Proof.
  rewrite literal_0_79_bits, threshold_bits. unfold geb, leb, SFleb.
  destruct eff as [s | s | | s m e]; cbn [SFcompare]; try destruct s;
    try discriminate; try reflexivity.
  rewrite (Z.compare_antisym e (-53)).
  destruct (e ?= -53); cbn [CompOpp]; try discriminate; try reflexivity.
  rewrite !compare_cont_Z.
  destruct (Z.compare_spec (Zpos m) 7115687411245384); try discriminate;
    intros _; destruct (Z.compare_spec 7205759394785595 (Zpos m)); try reflexivity; lia.
Qed.

(** C2, as the spec words it, at raw confidence 0.7 and 3 distinct sessions:
    the effective confidence is not the double 0.8 but the one just below. *)
Lemma boundary_effective_confidence_below_0_8 :
  ~ effective_confidence (literal 7 10) 3 = literal 8 10.
Proof. vm_compute. discriminate. Qed.

(** Nor are the two equal for Python's [==]; the first is the smaller. *)
Example boundary_effective_confidence_differs :
  Float64.eqb (effective_confidence (literal 7 10) 3) (literal 8 10) = false
  /\ (effective_confidence (literal 7 10) 3 < literal 8 10)%py = true.
Proof. vm_compute. split; reflexivity. Qed.

(** C2 (amended): team- and org-scoped conventions override with reason
    "<scope>-scoped"; a personal one overrides exactly when its effective
    confidence is at least [0.8 - 1e-9], the reason giving it to two
    decimals; so every effective confidence of at least 0.8 overrides and
    every one of at most 0.79 does not.  Raw confidence 0.7 with 3 distinct
    sessions gives 0.7999999999999999, one unit in the last place below 0.8,
    which overrides through the tolerance and is reported as 0.80. *)
Theorem should_override_convention_rule (conv : ConvDict) :
  let scope := get (cd_scope conv) "personal" in
  let eff :=
    effective_confidence (get (cd_confidence conv) (of_int 0))
      (get (cd_distinct_sessions conv) 1) in
  (scope = "team" \/ scope = "org" ->
     _should_override_convention conv = (true, Some (scope ++ "-scoped")))
  /\ (scope = "personal" ->
        _should_override_convention conv =
          if (eff >= literal 8 10 - literal 1 1000000000)%py
          then (true, Some ("confidence " ++ format_2f eff ++ " >= 0.8"))
          else (false, None))
  /\ (scope = "personal" -> leb (literal 8 10) eff = true ->
        fst (_should_override_convention conv) = true)
  /\ (scope = "personal" -> leb eff (literal 79 100) = true ->
        _should_override_convention conv = (false, None))
  /\ effective_confidence (literal 7 10) 3 = S754_finite false 7205759403792793 (-53)
  /\ literal 8 10 = S754_finite false 7205759403792794 (-53)
  /\ _should_override_convention (mkConvDict (Some "personal") (Some (literal 7 10)) (Some 3))
       = (true, Some "confidence 0.80 >= 0.8")
  /\ _should_override_convention (mkConvDict (Some "personal") (Some (literal 69 100)) (Some 3))
       = (false, None).
Proof.
  intros scope eff.
  assert (Hpersonal : scope = "personal" ->
            _should_override_convention conv =
              if (eff >= OVERRIDE_THRESHOLD)%py
              then (true, Some ("confidence " ++ format_2f eff ++ " >= 0.8"))
              else (false, None)).
  { intros H. unfold _should_override_convention. fold scope. rewrite H. reflexivity. }
  split; [| split; [| split; [| split; [| split; [| split; [| split]]]]]].
  - intros [H | H]; unfold _should_override_convention; fold scope; rewrite H; reflexivity.
  - exact Hpersonal.
  - intros H Hge. rewrite (Hpersonal H), (at_least_0_8_passes eff Hge). reflexivity.
  - intros H Hle. rewrite (Hpersonal H), (at_most_0_79_fails eff Hle). reflexivity.
  - vm_compute. reflexivity.
  - vm_compute. reflexivity.
  - vm_compute. reflexivity.
  - vm_compute. reflexivity.
Qed.

Lemma should_override_convention_rule_witness :
  _should_override_convention (mkConvDict (Some "org") None None) = (true, Some "org-scoped")
  /\ fst (_should_override_convention
            (mkConvDict (Some "personal") (Some (literal 9 10)) (Some 2))) = true
  /\ _should_override_convention
       (mkConvDict (Some "personal") (Some (literal 7 10)) (Some 1)) = (false, None).
Proof.
  split; [| split].
  - exact (proj1 (should_override_convention_rule (mkConvDict (Some "org") None None))
             (or_intror eq_refl)).
  - apply (proj1 (proj2 (proj2 (should_override_convention_rule
             (mkConvDict (Some "personal") (Some (literal 9 10)) (Some 2)))))).
    + reflexivity.
    + vm_compute. reflexivity.
  - apply (proj1 (proj2 (proj2 (proj2 (should_override_convention_rule
             (mkConvDict (Some "personal") (Some (literal 7 10)) (Some 1))))))).
    + reflexivity.
    + vm_compute. reflexivity.
Defined.

(** ** Tables: selecting and updating rows *)

Section Tables.

Context {A : Type}.
Implicit Types (p q : A -> bool) (set : A -> A) (rows : list A).

Lemma update_where_length q set rows :
  List.length (update_where q set rows) = List.length rows.
Proof. apply length_map. Qed.

Lemma update_where_no_match q set rows :
  (forall r, In r rows -> q r = false) -> update_where q set rows = rows.
Proof.
  induction rows as [| r rows IH]; intros H; simpl.
  - reflexivity.
  - rewrite (H r (or_introl eq_refl)), IH; [reflexivity |].
    intros r' Hr'. apply H. now right.
Qed.

(** An update that leaves the selected columns alone commutes with the
    selection. *)
Lemma filter_update_where p q set rows :
  (forall r, p (set r) = p r) ->
  filter p (update_where q set rows) = update_where q set (filter p rows).
Proof.
  intros Hp. induction rows as [| r rows IH]; simpl.
  - reflexivity.
  - assert (E : p (if q r then set r else r) = p r) by (destruct (q r); auto).
    rewrite E. destruct (p r); simpl; now rewrite IH.
Qed.

Lemma fetchone_update_where q set rows :
  fetchone (update_where q set rows)
  = option_map (fun r => if q r then set r else r) (fetchone rows).
Proof. destruct rows; reflexivity. Qed.

Lemma fetchone_none p rows :
  fetchone (filter p rows) = None -> filter p rows = [].
Proof. destruct (filter p rows); [reflexivity | discriminate]. Qed.

Lemma filter_nil_existsb p rows : filter p rows = [] -> existsb p rows = false.
Proof.
  induction rows as [| r rows IH]; simpl; [reflexivity |].
  destruct (p r); [discriminate | exact IH].
Qed.

Lemma fetchone_filter_matches p rows r :
  fetchone (filter p rows) = Some r -> p r = true /\ In r rows.
Proof.
  intros H. assert (Hin : In r (filter p rows)).
  { destruct (filter p rows); [discriminate |]. injection H as ->. now left. }
  apply filter_In in Hin. tauto.
Qed.

End Tables.

Lemma opt_eqb_eq (a b : option string) : opt_eqb a b = true <-> a = b.
Proof.
  destruct a as [x |], b as [y |]; simpl; split; intros H;
    try discriminate; try reflexivity.
  - apply String.eqb_eq in H. now subst.
  - injection H as ->. apply String.eqb_refl.
Qed.

Lemma with_conventions_same (s : Store) : with_conventions s (conventions s) = s.
Proof. destruct s; reflexivity. Qed.

(** ** C5 *)

(** C5 (the code at an id that no convention has): [reinforce_convention]
    raises ValueError and leaves the store as it was, whereas
    [contradict_convention] returns 0.3 as for an existing row, without any
    failure, the store being unchanged. *)
Theorem missing_convention_id (conn : Store) (now : string) (convention_id : Z)
    (session_id : option string) :
  (forall r, In r (conventions conn) -> c_id r <> convention_id) ->
  reinforce_convention conn now convention_id session_id
    = (Raise (ValueError ("Convention " ++ str_of_int convention_id ++ " not found")), conn)
  /\ contradict_convention conn now convention_id = (Ok (literal 3 10), conn).
Proof.
  intros Hmiss.
  assert (Hq : forall r, In r (conventions conn) -> (c_id r =? convention_id) = false).
  { intros r Hr. apply Z.eqb_neq. auto. }
  split.
  - unfold reinforce_convention.
    destruct (fetchone (filter (fun r => c_id r =? convention_id) (conventions conn)))
      as [row |] eqn:E; [| reflexivity].
    apply fetchone_filter_matches in E. destruct E as [E Hin].
    rewrite (Hq row Hin) in E. discriminate.
  - unfold contradict_convention.
    rewrite (update_where_no_match _ _ _ Hq), with_conventions_same. reflexivity.
Qed.

Lemma missing_convention_id_witness :
  reinforce_convention empty_store "2026-01-01T00:00:00Z" 999 (Some "sess-001")
    = (Raise (ValueError "Convention 999 not found"), empty_store)
  /\ contradict_convention empty_store "2026-01-01T00:00:00Z" 999
     = (Ok (literal 3 10), empty_store).
Proof.
  apply (missing_convention_id empty_store "2026-01-01T00:00:00Z" 999 (Some "sess-001")).
  intros r [].
Defined.

(** ** Conventions: the two paths of [record_convention], and reinforcing *)

Lemma record_convention_existing conn now category pattern example source scope
    session_id existing :
  find_convention conn category pattern = Some existing ->
  session_known conn session_id = true ->
  exists conn',
    record_convention conn now category pattern example source scope session_id
      = (Ok (c_id existing), conn')
    /\ find_convention conn' category pattern = Some (asserted existing now session_id)
    /\ List.length (conventions conn') = List.length (conventions conn)
    /\ fixes conn' = fixes conn /\ quirks conn' = quirks conn
    /\ sessions conn' = sessions conn.
Proof.
  unfold find_convention. intros Hfound Hknown.
  unfold record_convention. rewrite Hfound, Hknown. cbn [negb].
  eexists. split; [reflexivity |].
  cbn [conventions with_conventions fixes quirks sessions].
  rewrite update_where_length, filter_update_where by reflexivity.
  rewrite fetchone_update_where, Hfound. cbn [option_map].
  rewrite Z.eqb_refl. auto.
Qed.

Lemma record_convention_new conn now category pattern example source scope session_id :
  find_convention conn category pattern = None ->
  scope_check scope = true ->
  session_known conn session_id = true ->
  let row :=
    mkConvention (next_id (map c_id (conventions conn))) category pattern example source
      scope now now CONFIDENCE_BASE session_id 1 in
  exists conn',
    record_convention conn now category pattern example source scope session_id
      = (Ok (c_id row), conn')
    /\ conventions conn' = (conventions conn ++ [row])%list
    /\ find_convention conn' category pattern = Some row
    /\ fixes conn' = fixes conn /\ quirks conn' = quirks conn
    /\ sessions conn' = sessions conn.
Proof.
  intros Hnone Hscope Hknown. unfold find_convention in *. cbv zeta.
  unfold record_convention, insert_convention. rewrite Hnone.
  cbn [c_scope c_session_id c_category c_pattern c_example c_source c_created_at
       c_updated_at c_confidence c_distinct_sessions].
  rewrite Hscope, Hknown. cbn [negb].
  apply fetchone_none in Hnone.
  rewrite (filter_nil_existsb _ _ Hnone). cbn [commit].
  eexists. split; [reflexivity |].
  cbn [conventions with_conventions fixes quirks sessions].
  split; [reflexivity |]. split; [| auto].
  rewrite filter_app, Hnone. cbn [filter app]. unfold same_key at 1.
  cbn [c_category c_pattern]. rewrite !String.eqb_refl. reflexivity.
Qed.

Lemma reinforce_convention_existing conn now convention_id session_id row :
  convention_by_id conn convention_id = Some row ->
  session_known conn (c_session_id (reinforced row now session_id)) = true ->
  exists conn',
    reinforce_convention conn now convention_id session_id
      = (Ok (c_confidence (reinforced row now session_id)), conn')
    /\ convention_by_id conn' convention_id = Some (reinforced row now session_id)
    /\ List.length (conventions conn') = List.length (conventions conn)
    /\ sessions conn' = sessions conn
    /\ (forall category pattern r,
          find_convention conn category pattern = Some r ->
          find_convention conn' category pattern
          = Some (if c_id r =? convention_id
                  then set_learning (c_confidence (reinforced row now session_id))
                         (c_distinct_sessions (reinforced row now session_id))
                         (c_session_id (reinforced row now session_id)) now r
                  else r)).
Proof.
  unfold convention_by_id. intros Hfound Hknown.
  unfold reinforce_convention. rewrite Hfound.
  cbn [reinforced set_learning c_session_id] in Hknown. rewrite Hknown. cbn [negb].
  eexists. split; [reflexivity |].
  cbn [conventions with_conventions sessions].
  rewrite update_where_length, filter_update_where by reflexivity.
  rewrite fetchone_update_where, Hfound. cbn [option_map].
  destruct (fetchone_filter_matches _ _ _ Hfound) as [Hid _].
  rewrite Hid. split; [| split; [reflexivity | split; [reflexivity |]]].
  - reflexivity.
  - intros category pattern r Hr. unfold find_convention in *.
    cbn [conventions with_conventions].
    rewrite filter_update_where by reflexivity.
    rewrite fetchone_update_where, Hr. cbn [option_map].
    destruct (c_id r =? convention_id) eqn:E; reflexivity.
Qed.

(** ** C4 *)

(** C4: on an existing (category, pattern) [record_convention] returns the
    row's id and leaves that row with confidence [min(old + 0.2, 1.0)],
    [updated_at] refreshed and [distinct_sessions] one higher exactly when
    the supplied session id is non-empty and differs from the stored one, so
    only when it differs; on a new key it appends a row with confidence 0.5
    and [distinct_sessions = 1]. *)
Theorem record_convention_upsert conn now category pattern example source scope session_id :
  session_known conn session_id = true ->
  match find_convention conn category pattern with
  | Some existing =>
      exists conn' row',
        record_convention conn now category pattern example source scope session_id
          = (Ok (c_id existing), conn')
        /\ find_convention conn' category pattern = Some row'
        /\ List.length (conventions conn') = List.length (conventions conn)
        /\ c_id row' = c_id existing
        /\ c_confidence row' = py_min (c_confidence existing + literal 2 10)%py (literal 1 1)
        /\ c_updated_at row' = now
        /\ c_distinct_sessions row'
           = (if truthy session_id && negb (opt_eqb session_id (c_session_id existing))
              then c_distinct_sessions existing + 1 else c_distinct_sessions existing)
        /\ (c_distinct_sessions row' = c_distinct_sessions existing + 1 ->
            session_id <> c_session_id existing)
  | None =>
      scope_check scope = true ->
      exists id conn',
        record_convention conn now category pattern example source scope session_id
          = (Ok id, conn')
        /\ conventions conn'
           = (conventions conn
              ++ [mkConvention id category pattern example source scope now now
                    (literal 5 10) session_id 1])%list
  end.
Proof.
  intros Hknown.
  destruct (find_convention conn category pattern) as [existing |] eqn:Hfind.
  - destruct (record_convention_existing conn now category pattern example source scope
                session_id existing Hfind Hknown) as (conn' & Hrun & Hrow & Hlen & _).
    exists conn', (asserted existing now session_id).
    repeat (split; [assumption || reflexivity |]).
    cbn [asserted set_learning c_distinct_sessions].
    destruct (truthy session_id && negb (opt_eqb session_id (c_session_id existing)))
      eqn:Hbump.
    + intros _ Heq. apply andb_prop in Hbump. destruct Hbump as [_ Hne].
      apply opt_eqb_eq in Heq. rewrite Heq in Hne. discriminate.
    + lia.
  - intros Hscope.
    destruct (record_convention_new conn now category pattern example source scope
                session_id Hfind Hscope Hknown) as (conn' & Hrun & Hrows & _).
    eexists. exists conn'. split; [exact Hrun | exact Hrows].
Qed.

Lemma record_convention_upsert_witness :
  exists conn' row',
    record_convention
      (mkStore [] [mkConvention 1 "naming" "Use snake_case" None "correction" "personal"
                     "t0" "t0" (literal 5 10) (Some "sess-001") 1] [] ["sess-001"; "sess-002"])
      "t1" "naming" "Use snake_case" None "correction" "personal" (Some "sess-002")
      = (Ok 1, conn')
    /\ find_convention conn' "naming" "Use snake_case" = Some row'
    /\ format_2f (c_confidence row') = "0.70"
    /\ c_distinct_sessions row' = 2.
Proof.
  destruct (record_convention_upsert
              (mkStore [] [mkConvention 1 "naming" "Use snake_case" None "correction"
                             "personal" "t0" "t0" (literal 5 10) (Some "sess-001") 1]
                 [] ["sess-001"; "sess-002"])
              "t1" "naming" "Use snake_case" None "correction" "personal" (Some "sess-002")
              eq_refl)
    as (conn' & row' & Hrun & Hrow & _ & _ & Hconf & _ & Hds & _).
  exists conn', row'. split; [exact Hrun |]. split; [exact Hrow |].
  split; [rewrite Hconf | rewrite Hds]; vm_compute; reflexivity.
Defined.

(** ** C10 *)

Lemma next_id_above (ids : list Z) (i : Z) : In i ids -> i < next_id ids.
Proof.
  unfold next_id. induction ids as [| j ids IH]; simpl; intros H.
  - destruct H.
  - destruct H as [-> | H]; [lia |]. specialize (IH H). lia.
Qed.

Lemma convention_by_id_appended (conn conn' : Store) (row : Convention) :
  conventions conn' = (conventions conn ++ [row])%list ->
  c_id row = next_id (map c_id (conventions conn)) ->
  convention_by_id conn' (c_id row) = Some row.
Proof.
  intros Hrows Hid. unfold convention_by_id. rewrite Hrows, filter_app.
  assert (Hold : filter (fun r => c_id r =? c_id row) (conventions conn) = []).
  { destruct (filter (fun r => c_id r =? c_id row) (conventions conn)) as [| r l] eqn:E;
      [reflexivity |].
    assert (Hin : In r (filter (fun r => c_id r =? c_id row) (conventions conn)))
      by (rewrite E; now left).
    apply filter_In in Hin. destruct Hin as [Hin Heq]. apply Z.eqb_eq in Heq.
    pose proof (next_id_above (map c_id (conventions conn)) (c_id r) (in_map c_id _ _ Hin)).
    lia. }
  rewrite Hold. cbn [filter app]. rewrite Z.eqb_refl. reflexivity.
Qed.

(** C10: on an existing key [record_convention] stores the supplied session
    id whatever it is, None included, also when [distinct_sessions] stays;
    [reinforce_convention] keeps the stored one unless a non-empty differing
    one is supplied.  So asserting from session [a], then without a session,
    then from [a] again counts [a] twice: [distinct_sessions] is 2 with one
    contributing session, whereas a reinforcement without a session in
    between leaves the count at 1. *)
Theorem session_id_overwrite_recounts conn t1 t2 t3 category pattern example source scope a :
  find_convention conn category pattern = None ->
  scope_check scope = true ->
  a <> "" ->
  session_known conn (Some a) = true ->
  (forall c now sid existing,
      find_convention c category pattern = Some existing ->
      session_known c sid = true ->
      exists c' row',
        record_convention c now category pattern example source scope sid
          = (Ok (c_id existing), c')
        /\ find_convention c' category pattern = Some row'
        /\ c_session_id row' = sid)
  /\ (forall c now id sid row,
        convention_by_id c id = Some row ->
        session_known c sid = true ->
        session_known c (c_session_id row) = true ->
        exists c' row',
          reinforce_convention c now id sid = (Ok (c_confidence row'), c')
          /\ convention_by_id c' id = Some row'
          /\ c_session_id row'
             = (if truthy sid && negb (opt_eqb sid (c_session_id row))
                then sid else c_session_id row))
  /\ exists id conn1 conn2 conn3 row2 row3,
       record_convention conn t1 category pattern example source scope (Some a)
         = (Ok id, conn1)
       /\ record_convention conn1 t2 category pattern example source scope None
          = (Ok id, conn2)
       /\ find_convention conn2 category pattern = Some row2
       /\ c_session_id row2 = None /\ c_distinct_sessions row2 = 1
       /\ record_convention conn2 t3 category pattern example source scope (Some a)
          = (Ok id, conn3)
       /\ find_convention conn3 category pattern = Some row3
       /\ c_session_id row3 = Some a /\ c_distinct_sessions row3 = 2
       /\ exists conn2' conn3' row3',
            reinforce_convention conn1 t2 id None = (Ok (literal 6 10), conn2')
            /\ record_convention conn2' t3 category pattern example source scope (Some a)
               = (Ok id, conn3')
            /\ find_convention conn3' category pattern = Some row3'
            /\ c_session_id row3' = Some a /\ c_distinct_sessions row3' = 1.
Proof.
  intros Hnone Hscope Ha Hknown.
  split; [| split].
  - intros c now sid existing Hfind Hsid.
    destruct (record_convention_existing c now category pattern example source scope
                sid existing Hfind Hsid) as (c' & Hrun & Hrow & _).
    exists c', (asserted existing now sid). auto.
  - intros c now id sid row Hfind Hsid Hstored.
    assert (Hk : session_known c (c_session_id (reinforced row now sid)) = true).
    { cbn [reinforced set_learning c_session_id].
      destruct (truthy sid && negb (opt_eqb sid (c_session_id row))); assumption. }
    destruct (reinforce_convention_existing c now id sid row Hfind Hk)
      as (c' & Hrun & Hrow & _).
    exists c', (reinforced row now sid). auto.
  - destruct (record_convention_new conn t1 category pattern example source scope
                (Some a) Hnone Hscope Hknown)
      as (conn1 & Hrun1 & Hrows1 & Hfind1 & _ & _ & Hsess1).
    set (row1 := mkConvention (next_id (map c_id (conventions conn))) category pattern
                   example source scope t1 t1 CONFIDENCE_BASE (Some a) 1) in *.
    assert (Hknown1 : session_known conn1 (Some a) = true).
    { unfold session_known in *. rewrite Hsess1. exact Hknown. }
    destruct (record_convention_existing conn1 t2 category pattern example source scope
                None row1 Hfind1 eq_refl)
      as (conn2 & Hrun2 & Hfind2 & _ & _ & _ & Hsess2).
    assert (Hknown2 : session_known conn2 (Some a) = true).
    { unfold session_known in *. rewrite Hsess2, Hsess1. exact Hknown. }
    destruct (record_convention_existing conn2 t3 category pattern example source scope
                (Some a) _ Hfind2 Hknown2)
      as (conn3 & Hrun3 & Hfind3 & _).
    exists (c_id row1), conn1, conn2, conn3, (asserted row1 t2 None),
      (asserted (asserted row1 t2 None) t3 (Some a)).
    assert (Htruthy : truthy (Some a) = true) by (destruct a; [congruence | reflexivity]).
    repeat (split; [assumption || reflexivity |]).
    split; [unfold asserted, set_learning; cbn [c_distinct_sessions c_session_id];
            rewrite Htruthy; reflexivity |].
    assert (Hbyid : convention_by_id conn1 (c_id row1) = Some row1)
      by (apply (convention_by_id_appended conn conn1 row1 Hrows1); reflexivity).
    destruct (reinforce_convention_existing conn1 t2 (c_id row1) None row1 Hbyid Hknown1)
      as (conn2' & Hrun2' & _ & _ & Hsess2' & Hkeys).
    assert (Hfind2' : find_convention conn2' category pattern = Some (reinforced row1 t2 None)).
    { rewrite (Hkeys category pattern row1 Hfind1), Z.eqb_refl. reflexivity. }
    assert (Hknown2' : session_known conn2' (Some a) = true).
    { unfold session_known in *. rewrite Hsess2', Hsess1. exact Hknown. }
    destruct (record_convention_existing conn2' t3 category pattern example source scope
                (Some a) _ Hfind2' Hknown2')
      as (conn3' & Hrun3' & Hfind3' & _).
    exists conn2', conn3', (asserted (reinforced row1 t2 None) t3 (Some a)).
    split; [rewrite Hrun2'; f_equal; f_equal; vm_compute; reflexivity |].
    split; [exact Hrun3' |]. split; [exact Hfind3' |].
    split; [reflexivity |].
    unfold asserted, reinforced, set_learning. subst row1.
    cbn [c_distinct_sessions c_session_id truthy andb opt_eqb].
    rewrite String.eqb_refl. cbn [negb]. rewrite andb_false_r. reflexivity.
Qed.

Lemma session_id_overwrite_recounts_witness :
  exists id conn1 conn2 conn3 row3,
    record_convention (mkStore [] [] [] ["sess-001"]) "t1" "naming" "snake_case" None
      "correction" "personal" (Some "sess-001") = (Ok id, conn1)
    /\ record_convention conn1 "t2" "naming" "snake_case" None "correction" "personal" None
       = (Ok id, conn2)
    /\ record_convention conn2 "t3" "naming" "snake_case" None "correction" "personal"
         (Some "sess-001") = (Ok id, conn3)
    /\ find_convention conn3 "naming" "snake_case" = Some row3
    /\ c_distinct_sessions row3 = 2.
Proof.
  destruct (session_id_overwrite_recounts (mkStore [] [] [] ["sess-001"]) "t1" "t2" "t3"
              "naming" "snake_case" None "correction" "personal" "sess-001"
              eq_refl eq_refl ltac:(discriminate) eq_refl)
    as (_ & _ & id & conn1 & conn2 & conn3 & row2 & row3
        & H1 & H2 & _ & _ & _ & H3 & H4 & _ & H5 & _).
  exists id, conn1, conn2, conn3, row3. auto.
Defined.

(** ** Fixes: the two paths of [record_fix] *)

Lemma record_fix_existing conn now error_text root_cause fix_ resource provider validated
    scope session_id existing :
  find_fix conn (_error_hash error_text) = Some existing ->
  exists conn',
    record_fix conn now error_text root_cause fix_ resource provider validated scope
      session_id = (Ok (f_id existing), conn')
    /\ (forall h, filter (has_hash h) (fixes conn')
                  = update_where (fun r => f_id r =? f_id existing)
                      (set_hits (f_hit_count existing + 1) now)
                      (filter (has_hash h) (fixes conn)))
    /\ List.length (fixes conn') = List.length (fixes conn)
    /\ map fix_dict (fixes conn') = map fix_dict (fixes conn)
    /\ sessions conn' = sessions conn.
Proof.
  unfold find_fix. intros Hfound. unfold record_fix.
  change (fun r : Fix => (f_error_hash r =? _error_hash error_text)%string)
    with (has_hash (_error_hash error_text)).
  rewrite Hfound. eexists. split; [reflexivity |].
  cbn [fixes with_fixes sessions].
  split; [| split; [| split]].
  - intros h. apply filter_update_where. reflexivity.
  - apply update_where_length.
  - unfold update_where. rewrite map_map. apply map_ext.
    intros r. destruct (f_id r =? f_id existing); reflexivity.
  - reflexivity.
Qed.

Lemma record_fix_new conn now error_text root_cause fix_ resource provider validated
    scope session_id :
  find_fix conn (_error_hash error_text) = None ->
  scope_check scope = true ->
  session_known conn session_id = true ->
  let row :=
    mkFix (next_id (map f_id (fixes conn))) (_error_hash error_text) error_text root_cause
      fix_ resource provider validated scope now now 1 session_id in
  exists conn',
    record_fix conn now error_text root_cause fix_ resource provider validated scope
      session_id = (Ok (f_id row), conn')
    /\ fixes conn' = (fixes conn ++ [row])%list
    /\ sessions conn' = sessions conn.
Proof.
  intros Hnone Hscope Hknown. unfold find_fix in *. cbv zeta.
  unfold record_fix, insert_fix.
  change (fun r : Fix => (f_error_hash r =? _error_hash error_text)%string)
    with (has_hash (_error_hash error_text)).
  rewrite Hnone.
  cbn [f_scope f_session_id f_error_hash f_error_text f_root_cause f_fix f_resource
       f_provider f_validated f_created_at f_updated_at f_hit_count].
  rewrite Hscope, Hknown. cbn [negb commit].
  eexists. split; [reflexivity |]. split; reflexivity.
Qed.

(** ** C3 *)

Lemma record_fix_calls_cons conn c rest :
  record_fix_calls conn (c :: rest)
  = let (r, conn1) := record_fix_call conn c in
    let (rs, conn2) := record_fix_calls conn1 rest in
    (r :: rs, conn2).
Proof. reflexivity. Qed.

Lemma same_normal_form_same_hash (e1 e2 : string) :
  _normalize_error e1 = _normalize_error e2 -> _error_hash e1 = _error_hash e2.
Proof. unfold _error_hash. now intros ->. Qed.

Lemma last_nonempty {A : Type} (d d' : A) (l : list A) :
  forall b, last (b :: l) d = last (b :: l) d'.
Proof.
  induction l as [| c l IH]; intros b; [reflexivity |].
  change (last (c :: l) d = last (c :: l) d'). apply IH.
Qed.

Lemma last_cons {A : Type} (a d : A) (l : list A) : last (a :: l) d = last l a.
Proof.
  destruct l as [| b l]; [reflexivity |].
  change (last (b :: l) d = last (b :: l) a). apply last_nonempty.
Qed.

Lemma set_hits_same (r : Fix) : set_hits (f_hit_count r) (f_updated_at r) r = r.
Proof. destruct r; reflexivity. Qed.

Lemma one_row_per_hash_updated conn conn' q set :
  (forall h, filter (has_hash h) (fixes conn')
             = update_where q set (filter (has_hash h) (fixes conn))) ->
  one_row_per_hash conn -> one_row_per_hash conn'.
Proof.
  intros Hrows Hinv h. rewrite Hrows, update_where_length. apply Hinv.
Qed.

Lemma one_row_per_hash_inserted conn conn' row :
  fixes conn' = (fixes conn ++ [row])%list ->
  find_fix conn (f_error_hash row) = None ->
  one_row_per_hash conn -> one_row_per_hash conn'.
Proof.
  intros Hrows Hnone Hinv h. rewrite Hrows, filter_app, length_app.
  cbn [filter]. unfold has_hash at 2.
  destruct (String.eqb_spec (f_error_hash row) h) as [<- | Hne]; cbn [List.length].
  - apply fetchone_none in Hnone. rewrite Hnone. cbn. lia.
  - specialize (Hinv h). lia.
Qed.

(** Reports of an error whose row is already there. *)
Lemma repeated_reports (calls : list FixCall) : forall conn row h,
  filter (has_hash h) (fixes conn) = [row] ->
  Forall (fun c => _error_hash (call_error_text c) = h) calls ->
  one_row_per_hash conn ->
  exists conn',
    record_fix_calls conn calls = (repeat (Ok (f_id row)) (List.length calls), conn')
    /\ filter (has_hash h) (fixes conn')
       = [set_hits (f_hit_count row + Z.of_nat (List.length calls))
            (last (map at_time calls) (f_updated_at row)) row]
    /\ List.length (fixes conn') = List.length (fixes conn)
    /\ one_row_per_hash conn'.
Proof.
  induction calls as [| c calls IH]; intros conn row h Hrow Hcalls Hinv.
  - exists conn. cbn [record_fix_calls List.length repeat map last].
    rewrite Z.add_0_r, set_hits_same. auto.
  - inversion Hcalls as [| c' calls' Hc Hrest]; subst c' calls'.
    assert (Hfind : find_fix conn (_error_hash (call_error_text c)) = Some row).
    { unfold find_fix. rewrite Hc, Hrow. reflexivity. }
    destruct (record_fix_existing conn (at_time c) (call_error_text c) (call_root_cause c)
                (call_fix c) (call_resource c) (call_provider c) (call_validated c)
                (call_scope c) (call_session_id c) row Hfind)
      as (conn1 & Hrun & Hrows & Hlen & _).
    assert (Hrow1 : filter (has_hash h) (fixes conn1)
                    = [set_hits (f_hit_count row + 1) (at_time c) row]).
    { rewrite Hrows, Hrow. cbn [update_where map]. rewrite Z.eqb_refl. reflexivity. }
    destruct (IH conn1 _ h Hrow1 Hrest (one_row_per_hash_updated _ _ _ _ Hrows Hinv))
      as (conn' & Hruns & Hfinal & Hlen' & Hinv').
    exists conn'. cbn [record_fix_calls]. fold (record_fix_call conn c).
    unfold record_fix_call at 1. rewrite Hrun, Hruns.
    cbn [set_hits f_id f_hit_count f_updated_at] in *.
    split; [reflexivity |]. split; [| split; [congruence | exact Hinv']].
    rewrite Hfinal. cbn [map List.length]. rewrite last_cons.
    unfold set_hits. cbn [f_id f_error_hash f_error_text f_root_cause f_fix f_resource
                          f_provider f_validated f_scope f_created_at f_session_id].
    do 2 f_equal. lia.
Qed.

Lemma record_fix_keeps_one_row_per_hash conn c :
  one_row_per_hash conn -> one_row_per_hash (snd (record_fix_call conn c)).
Proof.
  intros Hinv. unfold record_fix_call.
  destruct (find_fix conn (_error_hash (call_error_text c))) as [existing |] eqn:Hfind.
  - destruct (record_fix_existing conn (at_time c) (call_error_text c) (call_root_cause c)
                (call_fix c) (call_resource c) (call_provider c) (call_validated c)
                (call_scope c) (call_session_id c) existing Hfind)
      as (conn' & Hrun & Hrows & _).
    rewrite Hrun. exact (one_row_per_hash_updated _ _ _ _ Hrows Hinv).
  - destruct (scope_check (call_scope c)) eqn:Hscope;
      [destruct (session_known conn (call_session_id c)) eqn:Hknown |].
    + destruct (record_fix_new conn (at_time c) (call_error_text c) (call_root_cause c)
                  (call_fix c) (call_resource c) (call_provider c) (call_validated c)
                  (call_scope c) (call_session_id c) Hfind Hscope Hknown)
        as (conn' & Hrun & Hrows & _).
      rewrite Hrun. exact (one_row_per_hash_inserted conn conn' _ Hrows Hfind Hinv).
    + unfold record_fix, insert_fix. fold (has_hash (_error_hash (call_error_text c))).
      fold (find_fix conn (_error_hash (call_error_text c))). rewrite Hfind.
      cbn [f_scope f_session_id]. rewrite Hscope, Hknown. exact Hinv.
    + unfold record_fix, insert_fix. fold (has_hash (_error_hash (call_error_text c))).
      fold (find_fix conn (_error_hash (call_error_text c))). rewrite Hfind.
      cbn [f_scope]. rewrite Hscope. exact Hinv.
Qed.

(** C3: error texts with the same normal form have the same [error_hash];
    when no row has that hash yet and the first report is acceptable to the
    schema, the first call inserts a row with [hit_count = 1] and every
    later call on such a text returns that row's id, adds exactly 1 to its
    [hit_count] and refreshes [updated_at], without inserting; every call of
    [record_fix] keeps the table at one row per [error_hash] at most. *)
Theorem record_fix_deduplicates conn first rest :
  one_row_per_hash conn ->
  find_fix conn (_error_hash (call_error_text first)) = None ->
  scope_check (call_scope first) = true ->
  session_known conn (call_session_id first) = true ->
  Forall (fun c => _normalize_error (call_error_text c)
                   = _normalize_error (call_error_text first)) rest ->
  Forall (fun c => _error_hash (call_error_text c) = _error_hash (call_error_text first))
    rest
  /\ (forall conn0 c, one_row_per_hash conn0 ->
                      one_row_per_hash (snd (record_fix_call conn0 c)))
  /\ exists id conn1 conn',
       record_fix_call conn first = (Ok id, conn1)
       /\ filter (has_hash (_error_hash (call_error_text first))) (fixes conn1)
          = [mkFix id (_error_hash (call_error_text first)) (call_error_text first)
               (call_root_cause first) (call_fix first) (call_resource first)
               (call_provider first) (call_validated first) (call_scope first)
               (at_time first) (at_time first) 1 (call_session_id first)]
       /\ List.length (fixes conn1) = S (List.length (fixes conn))
       /\ record_fix_calls conn1 rest = (repeat (Ok id) (List.length rest), conn')
       /\ filter (has_hash (_error_hash (call_error_text first))) (fixes conn')
          = [mkFix id (_error_hash (call_error_text first)) (call_error_text first)
               (call_root_cause first) (call_fix first) (call_resource first)
               (call_provider first) (call_validated first) (call_scope first)
               (at_time first) (last (map at_time rest) (at_time first))
               (1 + Z.of_nat (List.length rest)) (call_session_id first)]
       /\ List.length (fixes conn') = List.length (fixes conn1)
       /\ one_row_per_hash conn'.
Proof.
  intros Hinv Hnone Hscope Hknown Hsame.
  assert (Hhash : Forall (fun c => _error_hash (call_error_text c)
                                   = _error_hash (call_error_text first)) rest).
  { eapply Forall_impl; [| exact Hsame]. intros c. apply same_normal_form_same_hash. }
  split; [exact Hhash |].
  split; [intros conn0 c; apply record_fix_keeps_one_row_per_hash |].
  destruct (record_fix_new conn (at_time first) (call_error_text first)
              (call_root_cause first) (call_fix first) (call_resource first)
              (call_provider first) (call_validated first) (call_scope first)
              (call_session_id first) Hnone Hscope Hknown)
    as (conn1 & Hrun & Hrows & _).
  set (row := mkFix (next_id (map f_id (fixes conn))) (_error_hash (call_error_text first))
                (call_error_text first) (call_root_cause first) (call_fix first)
                (call_resource first) (call_provider first) (call_validated first)
                (call_scope first) (at_time first) (at_time first) 1
                (call_session_id first)) in *.
  assert (Hrow1 : filter (has_hash (_error_hash (call_error_text first))) (fixes conn1)
                  = [row]).
  { rewrite Hrows, filter_app. apply fetchone_none in Hnone. rewrite Hnone.
    cbn [filter app]. unfold has_hash at 1. subst row. cbn [f_error_hash].
    rewrite String.eqb_refl. reflexivity. }
  assert (Hinv1 : one_row_per_hash conn1)
    by (apply (one_row_per_hash_inserted conn conn1 row Hrows Hnone Hinv)).
  destruct (repeated_reports rest conn1 row _ Hrow1 Hhash Hinv1)
    as (conn' & Hruns & Hfinal & Hlen & Hinv').
  exists (f_id row), conn1, conn'.
  split; [exact Hrun |]. split; [exact Hrow1 |].
  split; [rewrite Hrows, length_app; cbn [List.length]; lia |].
  split; [exact Hruns |]. split; [exact Hfinal |]. split; [exact Hlen | exact Hinv'].
Qed.

Lemma record_fix_deduplicates_witness :
  exists id conn' row,
    record_fix_calls (mkStore [] [] [] ["sess-001"])
      [mkFixCall "t1" "Error: timeout" "Network issue" "Increase timeout" None None 0
         "personal" (Some "sess-001");
       mkFixCall "t2" "  error:   TIMEOUT " "other" "other" None None 1 "team" None;
       mkFixCall "t3" "ERROR:	Timeout" "Network issue" "Increase timeout" None None 0
         "personal" None]
      = ([Ok id; Ok id; Ok id], conn')
    /\ fixes conn' = [row]
    /\ f_hit_count row = 3 /\ f_updated_at row = "t3".
Proof.
  destruct (record_fix_deduplicates (mkStore [] [] [] ["sess-001"])
              (mkFixCall "t1" "Error: timeout" "Network issue" "Increase timeout" None None
                 0 "personal" (Some "sess-001"))
              [mkFixCall "t2" "  error:   TIMEOUT " "other" "other" None None 1 "team" None;
               mkFixCall "t3" "ERROR:	Timeout" "Network issue" "Increase timeout" None
                 None 0 "personal" None])
    as (_ & _ & id & conn1 & conn' & Hrun1 & _ & Hlen1 & Hrun & Hrow & Hlen & _).
  - intros h. cbn. lia.
  - vm_compute; reflexivity.
  - reflexivity.
  - reflexivity.
  - repeat constructor; vm_compute; reflexivity.
  - rewrite Hlen1 in Hlen. cbn [List.length fixes] in Hlen.
    destruct (fixes conn') as [| r [| r' l]] eqn:E;
      [discriminate Hlen | | discriminate Hlen].
    cbn [filter] in Hrow. destruct (has_hash _ r); [| discriminate Hrow].
    injection Hrow as Hr. exists id, conn', r.
    split; [| split; [exact E | rewrite Hr; split; reflexivity]].
    rewrite record_fix_calls_cons, Hrun1, Hrun. reflexivity.
Defined.

(** ** C7 *)

Lemma memory_entry_shape {Sig : Type} (f : Fix) :
  source (@memory_entry Sig f) = "memory"
  /\ entry (@memory_entry Sig f) = MemoryEntry f
  /\ (overrides_canon (@memory_entry Sig f) = false ->
      override_reason (@memory_entry Sig f) = None).
Proof.
  unfold memory_entry, _should_override.
  destruct (_ || _); [cbn; repeat split; discriminate |].
  destruct (_ =? _)%string; [| cbn; auto].
  destruct (fd_validated (fix_dict f)) as [[| [p | p |] | p] |]; cbn; repeat split;
    discriminate || reflexivity.
Qed.

Lemma memory_entry_rule {Sig : Type} (f : Fix) :
  @memory_entry Sig f
  = if (f_scope f =? "team")%string || (f_scope f =? "org")%string
    then mkMerged "memory" true (Some (f_scope f ++ "-scoped")) (MemoryEntry f)
    else if (f_scope f =? "personal")%string && (f_validated f =? 1)
         then mkMerged "memory" true (Some "validated fix") (MemoryEntry f)
         else mkMerged "memory" false None (MemoryEntry f).
Proof.
  unfold memory_entry, _should_override, fix_dict, get. cbn [fd_scope fd_validated].
  destruct (_ || _); [reflexivity |].
  destruct (f_scope f =? "personal")%string; [| reflexivity]. cbn [andb].
  destruct (f_validated f) as [| [p | p |] | p]; reflexivity.
Qed.

Lemma classified_entries {Sig : Type} (overriding : Fix -> bool)
    (first last : Fix -> Merged Sig) (rows : list Fix) :
  (forall f, overrides_canon (first f) = true) ->
  (forall f, overrides_canon (last f) = false) ->
  partition (fun e => overrides_canon e)
    (map (fun f => if overriding f then first f else last f) rows)
  = (map first (filter overriding rows),
     map last (filter (fun f => negb (overriding f)) rows)).
Proof.
  intros Hfirst Hlast. induction rows as [| f rows IH]; [reflexivity |].
  cbn [map partition filter]. rewrite IH.
  destruct (overriding f); cbn [negb map]; [rewrite Hfirst | rewrite Hlast]; reflexivity.
Qed.

(** C7: the result holds [canon_results], [memory_results] and [merged];
    [merged] is first the Memory fixes that override, in lookup order: those
    of scope team or org, with their scope as the reason, and the personal
    ones with [validated = 1], with reason "validated fix"; then one entry
    per corpus match in the corpus's order, each with source "canon",
    [overrides_canon = false] and no reason; then the remaining Memory
    fixes, with [overrides_canon = false] and no reason. *)
Theorem merged_order {Sig : Type} (error_pattern : Sig -> string)
    (re_search : string -> string -> option bool) (signatures_file : option (list Sig))
    (conn : Store) (error_text : string) :
  let r := query_with_priority error_pattern re_search signatures_file conn error_text in
  let shared := fun f => (f_scope f =? "team")%string || (f_scope f =? "org")%string in
  let overriding :=
    fun f => shared f || ((f_scope f =? "personal")%string && (f_validated f =? 1)) in
  let reason :=
    fun f => if shared f then Some (f_scope f ++ "-scoped") else Some "validated fix" in
  memory_results r = lookup_fix conn (Some error_text) None None None
  /\ canon_results r
     = match signatures_file with
       | Some signatures => match_error error_pattern re_search error_text signatures
       | None => []
       end
  /\ merged r
     = (map (fun f => mkMerged "memory" true (reason f) (MemoryEntry f))
          (filter overriding (memory_results r))
        ++ map (fun c => mkMerged "canon" false None (CanonEntry c)) (canon_results r)
        ++ map (fun f => mkMerged "memory" false None (MemoryEntry f))
             (filter (fun f => negb (overriding f)) (memory_results r)))%list
  /\ List.length (merged r)
     = (List.length (canon_results r) + List.length (memory_results r))%nat.
Proof.
  cbv zeta. unfold query_with_priority.
  set (shared := fun f => (f_scope f =? "team")%string || (f_scope f =? "org")%string).
  set (overriding :=
         fun f => shared f || ((f_scope f =? "personal")%string && (f_validated f =? 1))).
  set (rows := lookup_fix conn (Some error_text) None None None).
  assert (Hentries :
    map (@memory_entry Sig) rows
    = map (fun f => if overriding f
                    then mkMerged "memory" true
                           (if shared f then Some (f_scope f ++ "-scoped")
                            else Some "validated fix") (MemoryEntry f)
                    else mkMerged "memory" false None (MemoryEntry f)) rows).
  { apply map_ext. intros f. rewrite memory_entry_rule. unfold overriding, shared.
    destruct (_ || _); [reflexivity |]. cbn [orb].
    destruct (_ && _); reflexivity. }
  rewrite Hentries, classified_entries by reflexivity.
  cbn [memory_results canon_results merged].
  split; [reflexivity |]. split; [reflexivity |]. split; [reflexivity |].
  rewrite !length_app, !length_map.
  pose proof (filter_length overriding rows) as Hlen. cbv beta in Hlen. lia.
Qed.

Lemma merged_order_witness :
  map (fun e => (source e, overrides_canon e, override_reason e))
    (merged (query_with_priority (fun pattern => pattern) literal_search
               (Some literal_corpus) mixed_fixes "Error: timeout"))
  = [("memory", true, Some "team-scoped"); ("memory", true, Some "validated fix");
     ("canon", false, None); ("memory", false, None)].
Proof.
  rewrite (proj1 (proj2 (proj2 (merged_order (fun pattern => pattern) literal_search
                                  (Some literal_corpus) mixed_fixes "Error: timeout")))).
  vm_compute. reflexivity.
Defined.

(** ** C8 *)

(** C8, as the spec words it, through [record_fix]: the fix reported again
    with [validated = 1] keeps its stored flag, so the stored fix still does
    not override. *)
Lemma rerecorded_fix_still_does_not_override :
  map f_validated (lookup_fix reported_twice (Some "Error: timeout") None None None) = [0]
  /\ map f_hit_count (lookup_fix reported_twice (Some "Error: timeout") None None None) = [2]
  /\ map (fun r => _should_override (fix_dict r))
       (lookup_fix reported_twice (Some "Error: timeout") None None None)
     = [(false, None)]
  /\ map (fun r => _should_override (fix_dict r))
       (lookup_fix reported_twice (Some "Error: timeout") None None None)
     <> [(true, Some "validated fix")].
Proof. vm_compute. repeat split. discriminate. Qed.

(** C8 (amended): [_should_override] gives (true, "<scope>-scoped") for
    scope team or org, (true, "validated fix") for scope personal with
    [validated = 1], and (false, None) for scope personal otherwise; so a
    personal fix record does not override with [validated = 0] and does with
    its [validated] field at 1.  [record_fix] on an existing [error_hash]
    leaves [validated] and [scope] of every row as they are, so reporting
    the error again with [validated = 1] does not change the decision. *)
Theorem should_override_rule (fix_ : FixDict) :
  let scope := get (fd_scope fix_) "personal" in
  (scope = "team" \/ scope = "org" ->
     _should_override fix_ = (true, Some (scope ++ "-scoped")))
  /\ (scope = "personal" -> fd_validated fix_ = Some 1 ->
        _should_override fix_ = (true, Some "validated fix"))
  /\ (scope = "personal" -> fd_validated fix_ <> Some 1 ->
        _should_override fix_ = (false, None))
  /\ (forall row, f_scope row = "personal" ->
        _should_override (fix_dict (with_validated 0 row)) = (false, None)
        /\ _should_override (fix_dict (with_validated 1 row)) = (true, Some "validated fix"))
  /\ (forall conn now error_text root_cause fx resource provider validated scope'
             session_id existing,
        find_fix conn (_error_hash error_text) = Some existing ->
        map fix_dict
          (fixes (snd (record_fix conn now error_text root_cause fx resource provider
                         validated scope' session_id)))
        = map fix_dict (fixes conn)).
Proof.
  intros scope.
  split; [| split; [| split; [| split]]].
  - intros [H | H]; unfold _should_override; fold scope; rewrite H; reflexivity.
  - intros H Hv. unfold _should_override. fold scope. rewrite H, Hv. reflexivity.
  - intros H Hv. unfold _should_override. fold scope. rewrite H. cbn.
    destruct (fd_validated fix_) as [[| [p | p |] | p] |]; try reflexivity.
    now elim Hv.
  - intros row H. unfold _should_override, fix_dict, with_validated.
    cbn [fd_scope fd_validated f_scope f_validated get]. rewrite H. split; reflexivity.
  - intros conn now error_text root_cause fx resource provider validated scope'
      session_id existing Hfind.
    destruct (record_fix_existing conn now error_text root_cause fx resource provider
                validated scope' session_id existing Hfind) as (conn' & Hrun & _ & _ & H & _).
    rewrite Hrun. exact H.
Qed.

Lemma should_override_rule_witness :
  _should_override (mkFixDict (Some "team") (Some 0)) = (true, Some "team-scoped")
  /\ _should_override (mkFixDict (Some "personal") (Some 1)) = (true, Some "validated fix")
  /\ _should_override (mkFixDict None (Some 0)) = (false, None).
Proof.
  split; [| split].
  - exact (proj1 (should_override_rule (mkFixDict (Some "team") (Some 0)))
             (or_introl eq_refl)).
  - exact (proj1 (proj2 (should_override_rule (mkFixDict (Some "personal") (Some 1))))
             eq_refl eq_refl).
  - apply (proj1 (proj2 (proj2 (should_override_rule (mkFixDict None (Some 0)))))).
    + reflexivity.
    + discriminate.
Defined.

(** ** C6 *)

Lemma Forall_number_from {A : Type} (with_id : Z -> A -> A) (P : A -> Prop) rows :
  (forall k r, In r rows -> P (with_id k r)) ->
  forall k, Forall P (number_from with_id k rows).
Proof.
  induction rows as [| r rows IH]; intros H k; cbn [number_from]; constructor.
  - apply H. now left.
  - apply IH. intros k' r' Hr'. apply H. now right.
Qed.

Lemma map_number_from {A B : Type} (g : A -> B) (with_id : Z -> A -> A) rows :
  (forall k r, g (with_id k r) = g r) ->
  forall k, map g (number_from with_id k rows) = map g rows.
Proof.
  intros H. induction rows as [| r rows IH]; intros k; cbn [number_from map].
  - reflexivity.
  - now rewrite H, IH.
Qed.

Lemma next_id_app (ids : list Z) : next_id (ids ++ [next_id ids]) = next_id ids + 1.
Proof.
  unfold next_id.
  assert (Hnonneg : forall l, 0 <= fold_right Z.max 0 l).
  { induction l; simpl; lia. }
  assert (Happ : forall l k, fold_right Z.max 0 (l ++ [k])
                             = Z.max (fold_right Z.max 0 l) (Z.max k 0)).
  { induction l as [| a l IH]; intros k; simpl; [lia |]. rewrite IH. lia. }
  rewrite Happ. specialize (Hnonneg ids). lia.
Qed.

Lemma in_scopes_qualifies (scope_filter scope : string) :
  in_scopes (if (scope_filter =? "org")%string then ["org"] else ["team"; "org"]) scope
  = qualifies scope_filter scope.
Proof.
  unfold qualifies, in_scopes. destruct (scope_filter =? "org")%string; cbn [existsb];
    now rewrite ?orb_false_r.
Qed.

Lemma qualifies_scope_check (scope_filter scope : string) :
  qualifies scope_filter scope = true ->
  scope_check scope = true /\ scope <> "personal".
Proof.
  unfold qualifies, scope_check. intros H.
  assert (Hs : scope = "team" \/ scope = "org").
  { destruct (scope_filter =? "org")%string.
    - right. now apply String.eqb_eq.
    - apply orb_prop in H. destruct H as [H | H]; apply String.eqb_eq in H; auto. }
  destruct Hs as [-> | ->]; split; (reflexivity || discriminate).
Qed.

Lemma copy_fixes_ok (rows : list Fix) : forall dst,
  (forall f, In f rows -> scope_check (f_scope f) = true) ->
  copy_fixes dst rows
  = Ok (with_fixes dst
          (fixes dst ++ number_from with_fix_id (next_id (map f_id (fixes dst)))
                          (map forked_fix rows))%list).
Proof.
  induction rows as [| f rows IH]; intros dst Hscope; cbn [copy_fixes map number_from].
  - rewrite app_nil_r. destruct dst; reflexivity.
  - unfold insert_fix. cbn [forked_fix f_scope f_session_id session_known negb].
    rewrite (Hscope f (or_introl eq_refl)). cbn [negb].
    rewrite IH by (intros f' Hf'; apply Hscope; now right).
    cbn [fixes with_fixes]. rewrite map_app. cbn [map with_fix_id f_id].
    rewrite next_id_app, <- app_assoc. reflexivity.
Qed.

Lemma copy_quirks_ok (rows : list Quirk) : forall dst,
  (forall q, In q rows -> scope_check (q_scope q) = true) ->
  copy_quirks dst rows
  = Ok (with_quirks dst
          (quirks dst ++ number_from with_quirk_id (next_id (map q_id (quirks dst)))
                           (map forked_quirk rows))%list).
Proof.
  induction rows as [| q rows IH]; intros dst Hscope; cbn [copy_quirks map number_from].
  - rewrite app_nil_r. destruct dst; reflexivity.
  - unfold insert_quirk. cbn [forked_quirk q_scope q_session_id session_known negb].
    rewrite (Hscope q (or_introl eq_refl)). cbn [negb].
    rewrite IH by (intros q' Hq'; apply Hscope; now right).
    cbn [quirks with_quirks]. rewrite map_app. cbn [map with_quirk_id q_id].
    rewrite next_id_app, <- app_assoc. reflexivity.
Qed.

Lemma same_key_true (category pattern : string) (c : Convention) :
  same_key category pattern c = true -> key_of c = (category, pattern).
Proof.
  unfold same_key, key_of. intros H. apply andb_prop in H. destruct H as [H1 H2].
  apply String.eqb_eq in H1, H2. now subst.
Qed.

(** The destination accepts the rows when the source respected the unique
    key and none of the keys is in the destination yet. *)
Lemma copy_conventions_ok (rows : list Convention) : forall dst,
  (forall c, In c rows -> scope_check (c_scope c) = true) ->
  NoDup (map key_of rows) ->
  (forall c r, In c rows -> In r (conventions dst) -> key_of r <> key_of c) ->
  copy_conventions dst rows
  = Ok (with_conventions dst
          (conventions dst
           ++ number_from with_convention_id (next_id (map c_id (conventions dst)))
                (map forked_convention rows))%list).
Proof.
  induction rows as [| c rows IH]; intros dst Hscope Hnodup Hfresh;
    cbn [copy_conventions map number_from].
  - rewrite app_nil_r. destruct dst; reflexivity.
  - unfold insert_convention.
    cbn [forked_convention c_scope c_session_id c_category c_pattern session_known negb].
    rewrite (Hscope c (or_introl eq_refl)). cbn [negb].
    assert (Hnew : existsb (same_key (c_category c) (c_pattern c)) (conventions dst) = false).
    { destruct (existsb _ (conventions dst)) eqn:E; [| reflexivity].
      apply existsb_exists in E. destruct E as (r & Hr & Hkey).
      apply same_key_true in Hkey. elim (Hfresh c r (or_introl eq_refl) Hr Hkey). }
    rewrite Hnew. cbn [map] in Hnodup. apply NoDup_cons_iff in Hnodup.
    destruct Hnodup as [Hnotin Hnodup].
    rewrite IH.
    + cbn [conventions with_conventions]. rewrite map_app.
      cbn [map with_convention_id c_id]. rewrite next_id_app, <- app_assoc. reflexivity.
    + intros c' Hc'. apply Hscope. now right.
    + exact Hnodup.
    + cbn [conventions with_conventions]. intros c' r Hc' Hr Hkey.
      apply in_app_or in Hr. destruct Hr as [Hr | [<- | []]].
      * exact (Hfresh c' r (or_intror Hc') Hr Hkey).
      * apply Hnotin. change (key_of c) with (key_of (with_convention_id
          (next_id (map c_id (conventions dst))) (forked_convention c))).
        rewrite Hkey. now apply in_map.
Qed.

Lemma NoDup_map_filter {A B : Type} (g : A -> B) (p : A -> bool) (l : list A) :
  NoDup (map g l) -> NoDup (map g (filter p l)).
Proof.
  induction l as [| a l IH]; cbn [map filter]; intros H; [constructor |].
  apply NoDup_cons_iff in H. destruct H as [Hnotin H].
  destruct (p a); [| now apply IH].
  cbn [map]. constructor; [| now apply IH].
  intros Hin. apply Hnotin. apply in_map_iff in Hin. destruct Hin as (x & <- & Hx).
  apply filter_In in Hx. apply in_map. tauto.
Qed.

Lemma insert_by_rank_perm {A : Type} (rank : A -> Z) (r : A) (l : list A) :
  Permutation (insert_by_rank rank r l) (r :: l).
Proof.
  induction l as [| x l IH]; cbn [insert_by_rank]; [reflexivity |].
  destruct (rank r <=? rank x); [reflexivity |].
  rewrite IH. apply perm_swap.
Qed.

Lemma in_plan_order_perm {A : Type} (rank : A -> Z) (l : list A) :
  Permutation (in_plan_order rank l) l.
Proof.
  induction l as [| r l IH]; [reflexivity |].
  unfold in_plan_order in *. cbn [fold_right].
  rewrite insert_by_rank_perm. now apply perm_skip.
Qed.

Lemma select_where_perm {A : Type} (rank : A -> Z) (p : A -> bool) (l : list A) :
  Permutation (select_where rank p l) (filter p l).
Proof. apply in_plan_order_perm. Qed.

Lemma select_where_In {A : Type} (rank : A -> Z) (p : A -> bool) (l : list A) (x : A) :
  In x (select_where rank p l) -> In x l /\ p x = true.
Proof.
  intros H. apply (Permutation_in x (select_where_perm rank p l)) in H.
  now apply filter_In in H.
Qed.

Lemma select_where_ext {A : Type} (rank : A -> Z) (p q : A -> bool) (l : list A) :
  (forall x, p x = q x) -> select_where rank p l = select_where rank q l.
Proof. intros H. unfold select_where. now rewrite (filter_ext p q H). Qed.

Lemma openable_parts (w : World) (path : string) :
  openable w path = true ->
  can_open w path = true /\ is_directory (file_at w path) = false.
Proof.
  unfold openable. intros H. apply andb_prop in H. destruct H as [H1 H2].
  now apply negb_true_iff in H2.
Qed.

Lemma copy_tables_forked (rank_of : string -> string -> Z -> Z) (scope_filter : string)
    (src : Store) :
  NoDup (map key_of (conventions src)) ->
  copy_tables rank_of (if (scope_filter =? "org")%string then ["org"] else ["team"; "org"])
    (Some src) empty_store
  = Ok (forked rank_of scope_filter src).
Proof.
  intros Hunique. unfold copy_tables, forked. cbn [select_all].
  rewrite (select_where_ext _ _ _ (fixes src)
             (fun f => in_scopes_qualifies scope_filter (f_scope f))).
  rewrite (select_where_ext _ _ _ (conventions src)
             (fun c => in_scopes_qualifies scope_filter (c_scope c))).
  rewrite (select_where_ext _ _ _ (quirks src)
             (fun q => in_scopes_qualifies scope_filter (q_scope q))).
  rewrite copy_fixes_ok.
  2:{ intros f Hf. apply select_where_In in Hf.
      now apply (qualifies_scope_check scope_filter). }
  rewrite copy_conventions_ok.
  - rewrite copy_quirks_ok; [reflexivity |].
    intros q Hq. apply select_where_In in Hq.
    now apply (qualifies_scope_check scope_filter).
  - intros c Hc. apply select_where_In in Hc.
    now apply (qualifies_scope_check scope_filter).
  - eapply Permutation_NoDup.
    + apply Permutation_map. symmetry. apply select_where_perm.
    + now apply NoDup_map_filter.
  - intros c r _ [].
Qed.

Lemma export_for_fork_ok (w : World) (db_path output_path scope_filter : string)
    (src : Store) :
  mkdir_ok w output_path = true ->
  openable w output_path = true ->
  openable w db_path = true ->
  db_path <> output_path ->
  file_at w db_path = Some (Database (Some src)) ->
  NoDup (map key_of (conventions src)) ->
  exists w',
    export_for_fork w db_path output_path scope_filter = (Ok output_path, w')
    /\ file_at w' output_path = Some (Database (Some (forked (plan w) scope_filter src)))
    /\ (forall p, p <> output_path -> file_at w' p = file_at w p)
    /\ mkdir_ok w' = mkdir_ok w /\ can_open w' = can_open w /\ plan w' = plan w.
Proof.
  intros Hmkdir Hout Hdb Hne Hsrc Hunique.
  destruct (openable_parts _ _ Hout) as [Hcan Hdir].
  assert (Hneb : (db_path =? output_path)%string = false) by now apply String.eqb_neq.
  unfold export_for_fork. rewrite Hmkdir, Hdir. cbn [negb].
  unfold openable at 1. cbn [can_open file_at write_file].
  rewrite String.eqb_refl, Hcan. cbn [is_directory negb andb].
  unfold sqlite_open. unfold openable at 1. cbn [can_open file_at write_file].
  rewrite Hneb. fold (openable w db_path). rewrite Hdb, Hsrc. cbn [negb plan].
  rewrite (copy_tables_forked _ _ _ Hunique).
  eexists. split; [reflexivity |]. cbn [file_at write_file mkdir_ok can_open plan].
  rewrite String.eqb_refl. split; [reflexivity |]. split; [| repeat split].
  intros p Hp. apply String.eqb_neq in Hp. now rewrite Hp.
Qed.

Lemma ids_number_from {A : Type} (with_id : Z -> A -> A) (id_of : A -> Z) :
  (forall k r, id_of (with_id k r) = k) ->
  forall rows k,
    map id_of (number_from with_id (Z.of_nat k) rows)
    = map Z.of_nat (seq k (List.length (number_from with_id (Z.of_nat k) rows))).
Proof.
  intros Hid. induction rows as [| r rows IH]; intros k; [reflexivity |].
  cbn [number_from map List.length seq]. rewrite Hid. f_equal.
  replace (Z.of_nat k + 1) with (Z.of_nat (S k)) by lia. apply IH.
Qed.

Lemma forked_columns (rank_of : string -> string -> Z -> Z) (scope_filter : string)
    (src : Store) :
  Permutation (map fix_columns (fixes (forked rank_of scope_filter src)))
    (map fix_columns (filter (fun f => qualifies scope_filter (f_scope f)) (fixes src)))
  /\ Permutation (map convention_columns (conventions (forked rank_of scope_filter src)))
       (map convention_columns
          (filter (fun c => qualifies scope_filter (c_scope c)) (conventions src)))
  /\ Permutation (map quirk_columns (quirks (forked rank_of scope_filter src)))
       (map quirk_columns
          (filter (fun q => qualifies scope_filter (q_scope q)) (quirks src))).
Proof.
  unfold forked. cbn [fixes conventions quirks].
  rewrite !map_number_from by reflexivity. rewrite !map_map.
  cbn [forked_fix forked_convention forked_quirk f_error_hash f_error_text f_root_cause
       f_fix f_resource f_provider f_validated f_scope f_created_at f_updated_at
       f_hit_count c_category c_pattern c_example c_source c_scope c_created_at
       c_updated_at c_confidence q_service q_description q_region q_workaround q_scope
       q_created_at q_updated_at].
  split; [| split]; apply Permutation_map, select_where_perm.
Qed.

Lemma forked_ids (rank_of : string -> string -> Z -> Z) (scope_filter : string)
    (src : Store) :
  let dst := forked rank_of scope_filter src in
  map f_id (fixes dst) = map Z.of_nat (seq 1 (List.length (fixes dst)))
  /\ map c_id (conventions dst) = map Z.of_nat (seq 1 (List.length (conventions dst)))
  /\ map q_id (quirks dst) = map Z.of_nat (seq 1 (List.length (quirks dst))).
Proof.
  cbv zeta. unfold forked. cbn [fixes conventions quirks].
  split; [| split];
    [apply (ids_number_from with_fix_id f_id) with (k := 1%nat)
    | apply (ids_number_from with_convention_id c_id) with (k := 1%nat)
    | apply (ids_number_from with_quirk_id q_id) with (k := 1%nat)]; reflexivity.
Qed.

Lemma forked_rows (rank_of : string -> string -> Z -> Z) (scope_filter : string)
    (src : Store) :
  let dst := forked rank_of scope_filter src in
  Forall (fun f => qualifies scope_filter (f_scope f) = true
                   /\ f_scope f <> "personal" /\ f_session_id f = None) (fixes dst)
  /\ Forall (fun c => qualifies scope_filter (c_scope c) = true
                      /\ c_scope c <> "personal" /\ c_session_id c = None
                      /\ c_distinct_sessions c = 1) (conventions dst)
  /\ Forall (fun q => qualifies scope_filter (q_scope q) = true
                      /\ q_scope q <> "personal" /\ q_session_id q = None) (quirks dst).
Proof.
  cbv zeta. unfold forked. cbn [fixes conventions quirks]. split; [| split].
  - apply Forall_number_from. intros k r Hr. apply in_map_iff in Hr.
    destruct Hr as (f & <- & Hf). apply select_where_In in Hf. destruct Hf as [_ Hq].
    cbn [with_fix_id forked_fix f_scope f_session_id].
    pose proof (qualifies_scope_check _ _ Hq). intuition.
  - apply Forall_number_from. intros k r Hr. apply in_map_iff in Hr.
    destruct Hr as (c & <- & Hc). apply select_where_In in Hc. destruct Hc as [_ Hq].
    cbn [with_convention_id forked_convention c_scope c_session_id c_distinct_sessions].
    pose proof (qualifies_scope_check _ _ Hq). intuition.
  - apply Forall_number_from. intros k r Hr. apply in_map_iff in Hr.
    destruct Hr as (q & <- & Hq'). apply select_where_In in Hq'. destruct Hq' as [_ Hq].
    cbn [with_quirk_id forked_quirk q_scope q_session_id].
    pose proof (qualifies_scope_check _ _ Hq). intuition.
Qed.

(** C6: when the destination can be made and the source is another file
    holding a store, the export returns the output path and leaves there a
    store whose three tables hold, column for column, exactly the
    qualifying source rows (team and org for filter "team", org alone for
    filter "org", never personal), each as often as the source has it, in
    the order in which the query visits them, numbered from 1, every
    [session_id] NULL, every convention with [distinct_sessions = 1] and
    its source confidence unchanged; its sessions table is empty. *)
Theorem export_for_fork_copies (w : World) (db_path output_path scope_filter : string)
    (src : Store) :
  mkdir_ok w output_path = true ->
  openable w output_path = true ->
  openable w db_path = true ->
  db_path <> output_path ->
  file_at w db_path = Some (Database (Some src)) ->
  NoDup (map key_of (conventions src)) ->
  let fix_columns :=
    fun f : Fix =>
      (f_error_hash f, f_error_text f, f_root_cause f, f_fix f, f_resource f, f_provider f,
       f_validated f, f_scope f, f_created_at f, f_updated_at f, f_hit_count f) in
  let convention_columns :=
    fun c : Convention =>
      (c_category c, c_pattern c, c_example c, c_source c, c_scope c, c_created_at c,
       c_updated_at c, c_confidence c) in
  let quirk_columns :=
    fun q : Quirk =>
      (q_service q, q_description q, q_region q, q_workaround q, q_scope q, q_created_at q,
       q_updated_at q) in
  exists w' dst,
    export_for_fork w db_path output_path scope_filter = (Ok output_path, w')
    /\ file_at w' output_path = Some (Database (Some dst))
    /\ file_at w' db_path = Some (Database (Some src))
    /\ Permutation (map fix_columns (fixes dst))
         (map fix_columns
            (filter (fun f => qualifies scope_filter (f_scope f)) (fixes src)))
    /\ Permutation (map convention_columns (conventions dst))
         (map convention_columns
            (filter (fun c => qualifies scope_filter (c_scope c)) (conventions src)))
    /\ Permutation (map quirk_columns (quirks dst))
         (map quirk_columns
            (filter (fun q => qualifies scope_filter (q_scope q)) (quirks src)))
    /\ map f_id (fixes dst) = map Z.of_nat (seq 1 (List.length (fixes dst)))
    /\ map c_id (conventions dst) = map Z.of_nat (seq 1 (List.length (conventions dst)))
    /\ map q_id (quirks dst) = map Z.of_nat (seq 1 (List.length (quirks dst)))
    /\ sessions dst = []
    /\ Forall (fun f => qualifies scope_filter (f_scope f) = true
                        /\ f_scope f <> "personal" /\ f_session_id f = None) (fixes dst)
    /\ Forall (fun c => qualifies scope_filter (c_scope c) = true
                        /\ c_scope c <> "personal" /\ c_session_id c = None
                        /\ c_distinct_sessions c = 1) (conventions dst)
    /\ Forall (fun q => qualifies scope_filter (q_scope q) = true
                        /\ q_scope q <> "personal" /\ q_session_id q = None) (quirks dst)
    /\ (forall scope, qualifies "team" scope = (scope =? "team")%string || (scope =? "org")%string)
    /\ (forall scope, qualifies "org" scope = (scope =? "org")%string).
Proof.
  intros Hmkdir Hout Hdb Hne Hsrc Hunique. cbv zeta.
  destruct (export_for_fork_ok w db_path output_path scope_filter src Hmkdir Hout Hdb Hne
              Hsrc Hunique) as (w' & Hrun & Hat & Hframe & _).
  destruct (forked_columns (plan w) scope_filter src) as (HF & HC & HQ).
  destruct (forked_ids (plan w) scope_filter src) as (IF & IC & IQ).
  destruct (forked_rows (plan w) scope_filter src) as (RF & RC & RQ).
  exists w', (forked (plan w) scope_filter src).
  split; [exact Hrun |]. split; [exact Hat |].
  split; [rewrite (Hframe db_path Hne); exact Hsrc |].
  split; [exact HF |]. split; [exact HC |]. split; [exact HQ |].
  split; [exact IF |]. split; [exact IC |]. split; [exact IQ |].
  split; [reflexivity |].
  split; [exact RF |]. split; [exact RC |]. split; [exact RQ |].
  split; reflexivity.
Qed.

Lemma export_for_fork_copies_witness :
  exists w' dst,
    export_for_fork fork_test_world "source.db" "fork.db" "team" = (Ok "fork.db", w')
    /\ file_at w' "fork.db" = Some (Database (Some dst))
    /\ Permutation (map (fun f => (f_error_text f, f_scope f, f_hit_count f)) (fixes dst))
         [("team fix", "team", 1); ("org fix", "org", 1)]
    /\ Permutation
         (map (fun c => (c_pattern c, c_scope c, c_confidence c)) (conventions dst))
         [("team conv", "team", literal 9 10)]
    /\ Permutation (map (fun q => (q_description q, q_scope q)) (quirks dst))
         [("org quirk", "org")]
    /\ map f_id (fixes dst) = [1; 2]
    /\ Forall (fun c => c_session_id c = None /\ c_distinct_sessions c = 1)
         (conventions dst)
    /\ sessions dst = [].
Proof.
  destruct (export_for_fork_copies fork_test_world "source.db" "fork.db" "team"
              fork_test_source eq_refl eq_refl eq_refl ltac:(discriminate) eq_refl)
    as (w' & dst & Hrun & Hfile & _ & HF & HC & HQ & IF & _ & _ & HS & _ & RC & _).
  - cbn. repeat constructor; cbn; intuition discriminate.
  - exists w', dst. split; [exact Hrun |]. split; [exact Hfile |].
    split; [| split; [| split; [| split; [| split]]]].
    + apply (Permutation_map
               (fun c : string * string * string * string * option string * option string
                        * Z * string * string * string * Z =>
                  let '(_, text, _, _, _, _, _, scope, _, _, hits) := c in
                  (text, scope, hits))) in HF.
      rewrite !map_map in HF. exact HF.
    + apply (Permutation_map
               (fun c : string * string * option string * string * string * string
                        * string * float =>
                  let '(_, pattern, _, _, scope, _, _, confidence) := c in
                  (pattern, scope, confidence))) in HC.
      rewrite !map_map in HC. exact HC.
    + apply (Permutation_map
               (fun c : string * string * option string * option string * string * string
                        * string =>
                  let '(_, description, _, _, scope, _, _) := c in (description, scope)))
        in HQ.
      rewrite !map_map in HQ. exact HQ.
    + rewrite IF. apply Permutation_length in HF. rewrite !length_map in HF.
      rewrite HF. reflexivity.
    + revert RC. apply Forall_impl. intros c H. tauto.
    + exact HS.
Defined.

(** The order of the copied rows is the plan's: through the index on scope
    the org rows come before the team rows, in a table scan the rows come
    by rowid. *)
Example fork_rows_follow_the_plan :
  match export_for_fork fork_test_world "source.db" "fork.db" "team" with
  | (Ok _, w') =>
      match file_at w' "fork.db" with
      | Some (Database (Some dst)) => map (fun f => (f_id f, f_error_text f)) (fixes dst)
      | _ => []
      end
  | _ => []
  end = [(1, "org fix"); (2, "team fix")]
  /\ match export_for_fork
             (mkWorld (file_at fork_test_world) (fun _ => true) (fun _ => true) table_scan)
             "source.db" "fork.db" "team" with
     | (Ok _, w') =>
         match file_at w' "fork.db" with
         | Some (Database (Some dst)) => map (fun f => (f_id f, f_error_text f)) (fixes dst)
         | _ => []
         end
     | _ => []
     end = [(1, "team fix"); (2, "org fix")].
Proof. split; vm_compute; reflexivity. Qed.

(** ** C9 *)

(** C9, as the spec words it, with a missing source: the export raises, and
    the destination it had already created stays behind as a store with the
    schema and no rows. *)
Lemma failed_export_leaves_destination :
  exists e w',
    export_for_fork nothing_there "memory/boid.db" "fork/boid.db" "team" = (Raise e, w')
    /\ e = OperationalError "no such table: fixes"
    /\ file_at w' "fork/boid.db" = Some (Database (Some empty_store))
    /\ usable (file_at w' "fork/boid.db") = true.
Proof. eexists. eexists. vm_compute. repeat split. Qed.

(** C9 (amended): when the destination directory cannot be created the
    export raises OSError and touches nothing; when the source cannot be
    opened or holds no store the export raises an sqlite3 error and copies
    no row, but the destination file, created with the schema before the
    source is opened, stays behind as an empty store, and a destination
    that was there before is gone. *)
Theorem export_for_fork_failures (w : World) (db_path output_path scope_filter : string) :
  (mkdir_ok w output_path = false ->
     export_for_fork w db_path output_path scope_filter
     = (Raise (OSError "cannot create the destination directory"), w))
  /\ (mkdir_ok w output_path = true ->
      openable w output_path = true ->
      db_path <> output_path ->
      source_unreadable w db_path ->
      exists e w',
        export_for_fork w db_path output_path scope_filter = (Raise e, w')
        /\ (exists msg, e = OperationalError msg \/ e = DatabaseError msg)
        /\ file_at w' output_path = Some (Database (Some empty_store))
        /\ usable (file_at w' output_path) = true).
Proof.
  split.
  - intros H. unfold export_for_fork. rewrite H. reflexivity.
  - intros Hmkdir Hout Hne Hsrc.
    assert (Hneb : (db_path =? output_path)%string = false) by now apply String.eqb_neq.
    destruct (openable_parts _ _ Hout) as [Hcan Hdir].
    unfold export_for_fork. rewrite Hmkdir, Hdir. cbn [negb].
    unfold openable at 1. cbn [can_open file_at write_file].
    rewrite String.eqb_refl, Hcan. cbn [is_directory negb andb].
    unfold sqlite_open. unfold openable at 1. cbn [can_open file_at write_file].
    rewrite Hneb. fold (openable w db_path).
    assert (Hneb' : (output_path =? db_path)%string = false)
      by (apply String.eqb_neq; congruence).
    destruct Hsrc as [Hsrc | [Hsrc | [Hsrc | Hsrc]]];
      destruct (openable w db_path); try discriminate Hsrc; cbn [negb];
      rewrite ?Hsrc; cbn [copy_tables select_all];
      (eexists; eexists; split; [reflexivity |]);
      (split; [eexists; (left; reflexivity) || (right; reflexivity) |]);
      unfold write_file; cbn [file_at]; rewrite ?Hneb', ?String.eqb_refl;
      split; reflexivity.
Qed.

Lemma export_for_fork_failures_witness :
  export_for_fork (mkWorld (fun _ => None) (fun _ => false) (fun _ => true) scope_index)
    "memory/boid.db" "fork/boid.db" "team"
  = (Raise (OSError "cannot create the destination directory"),
     mkWorld (fun _ => None) (fun _ => false) (fun _ => true) scope_index)
  /\ exists e w',
       export_for_fork
         (mkWorld (fun p => if (p =? "fork/boid.db")%string
                            then Some (Database (Some fork_test_source)) else None)
                  (fun _ => true) (fun p => negb (p =? "gone/boid.db")%string) scope_index)
         "gone/boid.db" "fork/boid.db" "org" = (Raise e, w')
       /\ (exists msg, e = OperationalError msg \/ e = DatabaseError msg)
       /\ file_at w' "fork/boid.db" = Some (Database (Some empty_store))
       /\ usable (file_at w' "fork/boid.db") = true.
Proof.
  split.
  - exact (proj1 (export_for_fork_failures
                    (mkWorld (fun _ => None) (fun _ => false) (fun _ => true) scope_index)
                    "memory/boid.db" "fork/boid.db" "team") eq_refl).
  - apply (proj2 (export_for_fork_failures
                    (mkWorld (fun p => if (p =? "fork/boid.db")%string
                                       then Some (Database (Some fork_test_source))
                                       else None)
                             (fun _ => true) (fun p => negb (p =? "gone/boid.db")%string) scope_index)
                    "gone/boid.db" "fork/boid.db" "org")).
    + reflexivity.
    + reflexivity.
    + discriminate.
    + left. reflexivity.
Defined.

(** A directory at the output path stops the export at [out.unlink()],
    before anything is written. *)
Lemma export_onto_a_directory (w : World) (db_path output_path scope_filter : string) :
  mkdir_ok w output_path = true ->
  file_at w output_path = Some Directory ->
  export_for_fork w db_path output_path scope_filter = (Raise (OSError "Is a directory"), w)
  /\ openable w output_path = false.
Proof.
  intros Hmkdir Hdir. unfold export_for_fork, openable. rewrite Hmkdir, Hdir.
  cbn [negb is_directory]. split; [reflexivity | apply andb_false_r].
Qed.

(** * Further properties *)

(** ** Strings: reversal, stripping, case *)

Lemma string_app_nil (s : string) : s ++ "" = s.
Proof. induction s as [| c s IH]; cbn; [reflexivity | now rewrite IH]. Qed.

Lemma string_app_assoc (a b c : string) : (a ++ b) ++ c = a ++ (b ++ c).
Proof. induction a as [| x a IH]; cbn; [reflexivity | now rewrite IH]. Qed.

Lemma reverse_onto_app (s acc : string) : reverse_onto s acc = reverse s ++ acc.
Proof.
  unfold reverse. revert acc. induction s as [| c s IH]; intros acc; cbn.
  - reflexivity.
  - rewrite (IH (String c acc)), (IH (String c "")), string_app_assoc. reflexivity.
Qed.

Lemma reverse_cons (c : ascii) (s : string) : reverse (String c s) = reverse s ++ String c "".
Proof. unfold reverse at 1. cbn. apply reverse_onto_app. Qed.

Lemma reverse_app (a b : string) : reverse (a ++ b) = reverse b ++ reverse a.
Proof.
  induction a as [| c a IH]; cbn [append].
  - now rewrite string_app_nil.
  - now rewrite !reverse_cons, IH, string_app_assoc.
Qed.

Lemma reverse_involutive (s : string) : reverse (reverse s) = s.
Proof.
  induction s as [| c s IH]; [reflexivity |].
  rewrite reverse_cons, reverse_app, IH. reflexivity.
Qed.

Lemma lstrip_app (a b : string) :
  lstrip (a ++ b) = match lstrip a with
                    | EmptyString => lstrip b
                    | String c r => String c r ++ b
                    end.
Proof.
  induction a as [| c a IH]; cbn [append lstrip]; [reflexivity |].
  destruct (isspace c); [exact IH | reflexivity].
Qed.

Lemma rstrip_rec_eq (s : string) : rstrip s = rstrip_rec s.
Proof.
  unfold rstrip. induction s as [| c s IH]; [reflexivity |].
  rewrite reverse_cons, lstrip_app. cbn [rstrip_rec]. rewrite <- IH.
  destruct (lstrip (reverse s)) as [| d r].
  - cbn [lstrip reverse reverse_onto]. destruct (isspace c); reflexivity.
  - rewrite reverse_app. cbn [append].
    change (reverse (String c "")) with (String c "").
    cbn [append]. destruct (reverse (String d r)) as [| d' r'] eqn:E; [| reflexivity].
    apply (f_equal reverse) in E. rewrite reverse_involutive in E. discriminate E.
Qed.

Lemma lstrip_starts (s : string) : lstrip s = "" \/ starts_clean (lstrip s) = true.
Proof.
  induction s as [| c s IH]; cbn [lstrip]; [now left |].
  destruct (isspace c) eqn:E; [exact IH |]. right. cbn. now rewrite E.
Qed.

Lemma lstrip_fixed (s : string) : starts_clean s = true -> lstrip s = s.
Proof.
  destruct s as [| c s]; cbn; [discriminate |].
  destruct (isspace c); [discriminate | reflexivity].
Qed.

Lemma rstrip_rec_fixed (s : string) : ends_nonspace s = true -> rstrip_rec s = s.
Proof.
  induction s as [| c s IH]; [discriminate |].
  cbn [ends_nonspace rstrip_rec]. destruct s as [| d s'].
  - cbn. destruct (isspace c); [discriminate | reflexivity].
  - intros H. rewrite (IH H). reflexivity.
Qed.

Lemma rstrip_rec_ends (s : string) :
  rstrip_rec s = "" \/ ends_nonspace (rstrip_rec s) = true.
Proof.
  induction s as [| c s IH]; [now left |].
  cbn [rstrip_rec]. destruct (rstrip_rec s) as [| d r].
  - destruct (isspace c) eqn:E; [now left |]. right. cbn. now rewrite E.
  - right. destruct IH as [IH | IH]; [discriminate |]. exact IH.
Qed.

Lemma rstrip_rec_starts (s : string) :
  starts_clean s = true -> starts_clean (rstrip_rec s) = true.
Proof.
  destruct s as [| c s]; [discriminate |]. cbn [starts_clean rstrip_rec]. intros H.
  destruct (rstrip_rec s); [| exact H].
  destruct (isspace c) eqn:E; [discriminate H |]. cbn. now rewrite E.
Qed.

Lemma strip_shape (s : string) :
  strip s = "" \/ (starts_clean (strip s) = true /\ ends_nonspace (strip s) = true).
Proof.
  unfold strip. rewrite rstrip_rec_eq.
  destruct (lstrip_starts s) as [H | H].
  - rewrite H. now left.
  - destruct (rstrip_rec_ends (lstrip s)) as [E | E]; [now left |].
    right. split; [now apply rstrip_rec_starts | exact E].
Qed.

Lemma strip_fixed (s : string) :
  starts_clean s = true -> ends_nonspace s = true -> strip s = s.
Proof.
  intros H1 H2. unfold strip. rewrite (lstrip_fixed s H1), rstrip_rec_eq.
  now apply rstrip_rec_fixed.
Qed.

Lemma lower_char_isspace (c : ascii) : isspace (lower_char c) = isspace c.
Proof. destruct c as [[] [] [] [] [] [] [] []]; reflexivity. Qed.

Lemma lower_char_idempotent (c : ascii) : lower_char (lower_char c) = lower_char c.
Proof. destruct c as [[] [] [] [] [] [] [] []]; reflexivity. Qed.

Lemma isspace_lower_fixed (c : ascii) : isspace c = true -> lower_char c = c.
Proof. destruct c as [[] [] [] [] [] [] [] []]; (reflexivity || discriminate). Qed.

Lemma lower_idempotent (s : string) : lower (lower s) = lower s.
Proof.
  induction s as [| c s IH]; cbn; [reflexivity |].
  now rewrite lower_char_idempotent, IH.
Qed.

Lemma lower_app (a b : string) : lower (a ++ b) = lower a ++ lower b.
Proof. induction a as [| c a IH]; cbn; [reflexivity | now rewrite IH]. Qed.

Lemma lstrip_lower (s : string) : lstrip (lower s) = lower (lstrip s).
Proof.
  induction s as [| c s IH]; cbn [lower lstrip]; [reflexivity |].
  rewrite lower_char_isspace. destruct (isspace c); [exact IH | reflexivity].
Qed.

Lemma rstrip_rec_lower (s : string) : rstrip_rec (lower s) = lower (rstrip_rec s).
Proof.
  induction s as [| c s IH]; cbn [lower rstrip_rec]; [reflexivity |].
  rewrite IH, lower_char_isspace.
  destruct (rstrip_rec s) as [| d r]; cbn [lower]; [| reflexivity].
  destruct (isspace c); reflexivity.
Qed.

Lemma strip_lower (s : string) : strip (lower s) = lower (strip s).
Proof. unfold strip. now rewrite !rstrip_rec_eq, lstrip_lower, rstrip_rec_lower. Qed.

Lemma collapse_lower (in_run : bool) (s : string) :
  collapse_spaces in_run (lower s) = lower (collapse_spaces in_run s).
Proof.
  revert in_run. induction s as [| c s IH]; intros in_run; cbn [lower collapse_spaces];
    [reflexivity |].
  rewrite lower_char_isspace. destruct (isspace c), in_run; cbn [lower]; now rewrite IH.
Qed.

Lemma collapse_spaced (s : string) :
  (ends_nonspace s = true -> spaced true (collapse_spaces true s) = true)
  /\ (s = "" \/ ends_nonspace s = true -> spaced false (collapse_spaces false s) = true).
Proof.
  induction s as [| c s [IH1 IH2]]; [split; [discriminate | reflexivity] |].
  assert (Hrest : ends_nonspace (String c s) = true -> s = "" \/ ends_nonspace s = true).
  { cbn [ends_nonspace]. destruct s; [now left | now right]. }
  assert (Hspace : isspace c = true -> ends_nonspace (String c s) = true ->
                   ends_nonspace s = true).
  { intros Hc. cbn [ends_nonspace]. destruct s; [rewrite Hc; discriminate | auto]. }
  split; cbn [collapse_spaces]; destruct (isspace c) eqn:Hc.
  - intros H. apply IH1, Hspace; auto.
  - intros H. cbn [spaced]. rewrite Hc. apply IH2, Hrest, H.
  - intros [H | H]; [discriminate |]. cbn [spaced].
    change (isspace " ") with true. cbn. apply IH1, Hspace; auto.
  - intros [H | H]; [discriminate |]. cbn [spaced]. rewrite Hc. apply IH2, Hrest, H.
Qed.

Lemma spaced_collapse_fixed (s : string) :
  (spaced true s = true -> forall in_run, collapse_spaces in_run s = s)
  /\ (spaced false s = true -> collapse_spaces false s = s).
Proof.
  induction s as [| c s [IH1 IH2]]; [split; [discriminate | reflexivity] |].
  split; cbn [spaced collapse_spaces]; destruct (isspace c) eqn:Hc.
  - discriminate.
  - intros H in_run. now rewrite (IH2 H).
  - cbn [negb andb]. intros H. apply andb_prop in H. destruct H as [Heq H].
    apply Ascii.eqb_eq in Heq. subst c. now rewrite (IH1 H true).
  - intros H. now rewrite (IH2 H).
Qed.

Lemma spaced_ends (s : string) :
  (spaced true s = true -> starts_clean s = true /\ ends_nonspace s = true)
  /\ (spaced false s = true -> s = "" \/ ends_nonspace s = true).
Proof.
  induction s as [| c s [IH1 IH2]]; [split; [discriminate | now left] |].
  split; cbn [spaced starts_clean ends_nonspace]; destruct (isspace c) eqn:Hc.
  - discriminate.
  - intros H. split; [reflexivity |]. destruct (IH2 H) as [-> | E]; [reflexivity |].
    destruct s; [discriminate | exact E].
  - cbn [negb andb]. intros H. apply andb_prop in H. destruct H as [_ H].
    right. destruct (IH1 H) as [_ E]. destruct s; [discriminate | exact E].
  - intros H. right. destruct (IH2 H) as [-> | E]; [reflexivity |].
    destruct s; [discriminate | exact E].
Qed.

Lemma spaced_lower (p : bool) (s : string) : spaced p (lower s) = spaced p s.
Proof.
  revert p. induction s as [| c s IH]; intros p; cbn [lower spaced]; [reflexivity |].
  rewrite lower_char_isspace. destruct (isspace c) eqn:Hc; [| apply IH].
  rewrite (isspace_lower_fixed c Hc), IH. reflexivity.
Qed.

Lemma starts_clean_lower (s : string) : starts_clean (lower s) = starts_clean s.
Proof. destruct s as [| c s]; cbn; [reflexivity | now rewrite lower_char_isspace]. Qed.

Lemma ends_nonspace_lower (s : string) : ends_nonspace (lower s) = ends_nonspace s.
Proof.
  induction s as [| c s IH]; [reflexivity |].
  cbn [lower ends_nonspace]. destruct s as [| d s'].
  - cbn. now rewrite lower_char_isspace.
  - exact IH.
Qed.

Lemma clean_collapse_spaced (s : string) :
  starts_clean s = true -> ends_nonspace s = true ->
  spaced true (collapse_spaces false s) = true.
Proof.
  destruct s as [| c s]; [discriminate |].
  cbn [starts_clean collapse_spaces spaced]. intros Hc He.
  apply negb_true_iff in Hc. rewrite Hc. cbn [spaced]. rewrite Hc.
  apply (proj2 (collapse_spaced s)).
  cbn [ends_nonspace] in He. destruct s; [now left | now right].
Qed.

Lemma normalized_is_normal (error_text : string) :
  normal_form (_normalize_error error_text).
Proof.
  unfold normal_form, _normalize_error. split.
  - destruct (strip_shape error_text) as [E | [Hs He]].
    + rewrite E. now left.
    + right. apply clean_collapse_spaced.
      * now rewrite starts_clean_lower.
      * now rewrite ends_nonspace_lower.
  - now rewrite <- collapse_lower, lower_idempotent.
Qed.

(** X1: whatever the error text, its normal form is lower case, has no
    whitespace at either end, and its only whitespace is single spaces
    between other characters. *)
Theorem normalize_error_normal_form (error_text : string) :
  normal_form (_normalize_error error_text).
Proof.
  exact (normalized_is_normal error_text).
Qed.

Lemma normal_form_fixed (s : string) : normal_form s -> _normalize_error s = s.
Proof.
  intros [[-> | Hsp] Hlow]; [reflexivity |].
  unfold _normalize_error.
  destruct (proj1 (spaced_ends s) Hsp) as [Hs He].
  rewrite (strip_fixed s Hs He), Hlow.
  exact (proj1 (spaced_collapse_fixed s) Hsp false).
Qed.

(** X2: normalizing is idempotent, so a normalized text and the raw text
    it came from have the same error hash. *)
Theorem normalize_error_idempotent (error_text : string) :
  _normalize_error (_normalize_error error_text) = _normalize_error error_text
  /\ _error_hash (_normalize_error error_text) = _error_hash error_text.
Proof.
  assert (E : _normalize_error (_normalize_error error_text) = _normalize_error error_text)
    by apply normal_form_fixed, normalized_is_normal.
  split; [exact E |]. unfold _error_hash. now rewrite E.
Qed.

Lemma lstrip_spaces (pre s : string) :
  all_chars isspace pre = true -> lstrip (pre ++ s) = lstrip s.
Proof.
  induction pre as [| c pre IH]; [reflexivity |].
  cbn [all_chars append lstrip]. intros H. apply andb_prop in H. destruct H as [Hc H].
  rewrite Hc. now apply IH.
Qed.

Lemma rstrip_rec_spaces (s post : string) :
  all_chars isspace post = true -> rstrip_rec (s ++ post) = rstrip_rec s.
Proof.
  intros H. induction s as [| c s IH].
  - cbn [append]. induction post as [| d post IHp]; [reflexivity |].
    cbn [all_chars] in H. apply andb_prop in H. destruct H as [Hd H].
    cbn [rstrip_rec]. rewrite (IHp H). cbn [rstrip_rec]. now rewrite Hd.
  - cbn [append rstrip_rec]. now rewrite IH.
Qed.

Lemma strip_padding (pre s post : string) :
  all_chars isspace pre = true -> all_chars isspace post = true ->
  strip (pre ++ s ++ post) = strip s.
Proof.
  intros Hpre Hpost. unfold strip. rewrite (lstrip_spaces pre _ Hpre), lstrip_app.
  destruct (lstrip s) as [| c r] eqn:E.
  - replace (lstrip post) with (lstrip (post ++ "")) by now rewrite string_app_nil.
    now rewrite (lstrip_spaces post "" Hpost).
  - change (String c r ++ post) with ((String c r) ++ post).
    now rewrite !rstrip_rec_eq, (rstrip_rec_spaces _ post Hpost).
Qed.

(** X3: the error hash ignores letter case and any whitespace around the
    text: two texts equal up to case, one of them padded with whitespace,
    have the same hash. *)
Theorem error_hash_ignores_case_and_padding (pre post e1 e2 : string) :
  all_chars isspace pre = true -> all_chars isspace post = true ->
  lower e1 = lower e2 ->
  _normalize_error (pre ++ e1 ++ post) = _normalize_error e2
  /\ _error_hash (pre ++ e1 ++ post) = _error_hash e2.
Proof.
  intros Hpre Hpost Hlow.
  assert (E : _normalize_error (pre ++ e1 ++ post) = _normalize_error e2).
  { unfold _normalize_error.
    rewrite (strip_padding pre e1 post Hpre Hpost), <- !strip_lower, Hlow. reflexivity. }
  split; [exact E |]. unfold _error_hash. now rewrite E.
Qed.

Lemma error_hash_ignores_case_and_padding_witness :
  _error_hash (String (chr 9) " " ++ "Error: Name  TAKEN" ++ String (chr 10) "")
  = _error_hash "error: name  taken".
Proof.
  apply (error_hash_ignores_case_and_padding (String (chr 9) " ") (String (chr 10) "")
           "Error: Name  TAKEN" "error: name  taken"); reflexivity.
Defined.

(** ** Lookups *)

Lemma insert_by_hits_perm (r : Fix) (l : list Fix) :
  Permutation (insert_by_hits r l) (r :: l).
Proof.
  induction l as [| x l IH]; cbn [insert_by_hits]; [reflexivity |].
  destruct (f_hit_count x <=? f_hit_count r); [reflexivity |].
  rewrite IH. apply perm_swap.
Qed.

Lemma order_by_hit_count_perm (rows : list Fix) :
  Permutation (order_by_hit_count_desc rows) rows.
Proof.
  induction rows as [| r rows IH]; [reflexivity |].
  unfold order_by_hit_count_desc in *. cbn [fold_right].
  rewrite insert_by_hits_perm. now apply perm_skip.
Qed.

Lemma insert_by_hits_sorted (r : Fix) (l : list Fix) :
  StronglySorted hits_desc l -> StronglySorted hits_desc (insert_by_hits r l).
Proof.
  induction 1 as [| x l Hl IH Hx]; cbn [insert_by_hits].
  - constructor; constructor.
  - destruct (f_hit_count x <=? f_hit_count r) eqn:E.
    + apply Z.leb_le in E. constructor; [now constructor |].
      constructor; [exact E |].
      revert Hx. apply Forall_impl. unfold hits_desc. intros. lia.
    + apply Z.leb_gt in E. constructor; [exact IH |].
      eapply Permutation_Forall; [symmetry; apply insert_by_hits_perm |].
      constructor; [unfold hits_desc; lia | exact Hx].
Qed.

Lemma order_by_hit_count_sorted (rows : list Fix) :
  StronglySorted hits_desc (order_by_hit_count_desc rows).
Proof.
  induction rows as [| r rows IH]; [constructor |].
  unfold order_by_hit_count_desc in *. cbn [fold_right]. now apply insert_by_hits_sorted.
Qed.


Lemma truthy_nonempty (s : option string) :
  truthy s = true -> exists c t, s = Some (String c t).
Proof. destruct s as [[| c t] |]; try discriminate. intros _. now exists c, t. Qed.



Lemma filter_all {A : Type} (p : A -> bool) (l : list A) :
  (forall x, In x l -> p x = true) -> filter p l = l.
Proof.
  induction l as [| x l IH]; intros H; [reflexivity |]. cbn [filter].
  rewrite (H x (or_introl eq_refl)), IH; [reflexivity |].
  intros y Hy. apply H. now right.
Qed.

Lemma lookup_fix_unfiltered (conn : Store) :
  lookup_fix conn (Some "") None None None = order_by_hit_count_desc (fixes conn).
Proof. unfold lookup_fix. cbn [truthy]. now rewrite filter_all. Qed.

Lemma lookup_fix_by_text (conn : Store) (error_text : string) :
  error_text <> "" ->
  lookup_fix conn (Some error_text) None None None
  = order_by_hit_count_desc (filter (has_hash (_error_hash error_text)) (fixes conn)).
Proof.
  intros Hne. destruct error_text as [| c t]; [contradiction |].
  unfold lookup_fix. cbn [truthy]. f_equal. apply filter_ext.
  intros r. unfold has_hash. now rewrite !andb_true_r.
Qed.

Lemma query_memory_results {Sig : Type} (error_pattern : Sig -> string)
    (re_search : string -> string -> option bool) (signatures_file : option (list Sig))
    (conn : Store) (error_text : string) :
  let r := query_with_priority error_pattern re_search signatures_file conn error_text in
  memory_results r = lookup_fix conn (Some error_text) None None None
  /\ List.length (merged r)
     = (List.length (canon_results r) + List.length (memory_results r))%nat.
Proof.
  cbv zeta. unfold query_with_priority.
  destruct (partition _ _) as [overriding non_overriding] eqn:E.
  cbn [memory_results merged canon_results]. split; [reflexivity |].
  apply partition_length in E. rewrite length_map in E.
  rewrite !length_app, length_map, E. lia.
Qed.

(** X5: a query with an empty error text is not filtered at all: every
    fix of the store comes back as a memory result, most hits first, and
    each one is listed in the merged result. *)
Theorem empty_query_returns_every_fix {Sig : Type} (error_pattern : Sig -> string)
    (re_search : string -> string -> option bool) (signatures_file : option (list Sig))
    (conn : Store) :
  let r := query_with_priority error_pattern re_search signatures_file conn "" in
  Permutation (memory_results r) (fixes conn)
  /\ StronglySorted hits_desc (memory_results r)
  /\ List.length (merged r)
     = (List.length (canon_results r) + List.length (fixes conn))%nat.
Proof.
  cbv zeta.
  destruct (query_memory_results error_pattern re_search signatures_file conn "")
    as [Hm Hl].
  rewrite Hl, Hm, lookup_fix_unfiltered.
  split; [apply order_by_hit_count_perm |]. split; [apply order_by_hit_count_sorted |].
  now rewrite (Permutation_length (order_by_hit_count_perm _)).
Qed.

Lemma at_most_one_is_the_one {A : Type} (l : list A) (x : A) :
  (List.length l <= 1)%nat -> fetchone l = Some x -> l = [x].
Proof.
  destruct l as [| a [| b l]]; cbn; intros Hlen Hx; try discriminate Hx.
  - now inversion Hx.
  - lia.
Qed.

(** X6: a fix that [record_fix] has recorded is found again by
    [lookup_fix] under any text with the same normal form, as the only
    result and under the id that [record_fix] returned. *)
Theorem recorded_fix_is_found (conn conn' : Store) (now : string)
    (error_text root_cause fix_ : string) (resource provider : option string)
    (validated : Z) (scope : string) (session_id : option string) (id : Z)
    (asked : string) :
  one_row_per_hash conn ->
  record_fix conn now error_text root_cause fix_ resource provider validated scope
    session_id = (Ok id, conn') ->
  asked <> "" ->
  _normalize_error asked = _normalize_error error_text ->
  exists row,
    lookup_fix conn' (Some asked) None None None = [row]
    /\ f_id row = id
    /\ f_error_hash row = _error_hash asked
    /\ 1 <= f_hit_count row - match find_fix conn (_error_hash error_text) with
                              | Some existing => f_hit_count existing
                              | None => 0
                              end <= 1.
Proof.
  intros Hone Hrec Hne Hnorm.
  rewrite (lookup_fix_by_text conn' asked Hne).
  rewrite (same_normal_form_same_hash asked error_text Hnorm).
  destruct (find_fix conn (_error_hash error_text)) as [existing |] eqn:Hfind.
  - destruct (record_fix_existing conn now error_text root_cause fix_ resource provider
                validated scope session_id existing Hfind)
      as [conn'' [Heq [Hfilter _]]].
    rewrite Heq in Hrec. inversion Hrec; subst id conn''. clear Hrec.
    rewrite Hfilter.
    rewrite (at_most_one_is_the_one _ existing (Hone (_error_hash error_text)) Hfind).
    unfold update_where. cbn [map]. rewrite Z.eqb_refl.
    eexists. split; [reflexivity |]. cbn [set_hits f_id f_error_hash f_hit_count].
    split; [reflexivity |]. split; [| lia].
    apply fetchone_filter_matches in Hfind. destruct Hfind as [Hh _].
    unfold has_hash in Hh. now apply String.eqb_eq in Hh.
  - destruct (scope_check scope) eqn:Hscope; [destruct (session_known conn session_id) eqn:Hknown |].
    + destruct (record_fix_new conn now error_text root_cause fix_ resource provider
                  validated scope session_id Hfind Hscope Hknown)
        as [conn'' [Heq [Hfixes _]]].
      rewrite Heq in Hrec. inversion Hrec; subst id conn''. clear Hrec.
      rewrite Hfixes, filter_app.
      rewrite (fetchone_none _ _ Hfind). cbn [filter app]. unfold has_hash at 1.
      cbn [f_error_hash]. rewrite String.eqb_refl. eexists. split; [reflexivity |].
      cbn [f_id f_error_hash f_hit_count]. split; [reflexivity |]. split; [reflexivity | lia].
    + exfalso. unfold record_fix, find_fix, has_hash in *. rewrite Hfind in Hrec.
      unfold commit, insert_fix in Hrec. cbn [f_scope f_session_id] in Hrec.
      rewrite Hscope, Hknown in Hrec. cbn [negb] in Hrec. discriminate Hrec.
    + exfalso. unfold record_fix, find_fix, has_hash in *. rewrite Hfind in Hrec.
      unfold commit, insert_fix in Hrec. cbn [f_scope f_session_id] in Hrec.
      rewrite Hscope in Hrec. cbn [negb] in Hrec. discriminate Hrec.
Qed.

Lemma recorded_fix_is_found_witness :
  exists row,
    lookup_fix
      (after (record_fix empty_store "t1" "Error: timeout" "Network issue"
                "Increase timeout" None None 0 "personal" None))
      (Some "  ERROR:   Timeout ") None None None = [row]
    /\ f_id row = 1.
Proof.
  destruct (recorded_fix_is_found empty_store
              (after (record_fix empty_store "t1" "Error: timeout" "Network issue"
                        "Increase timeout" None None 0 "personal" None))
              "t1" "Error: timeout" "Network issue" "Increase timeout" None None 0
              "personal" None 1 "  ERROR:   Timeout ")
    as [row [Hfound [Hid _]]].
  - intros h. cbn. lia.
  - vm_compute. reflexivity.
  - discriminate.
  - vm_compute. reflexivity.
  - exists row. split; assumption.
Defined.


Lemma insert_by_confidence_perm (r : Convention) (l : list Convention) :
  Permutation (insert_by_confidence r l) (r :: l).
Proof.
  induction l as [| x l IH]; cbn [insert_by_confidence]; [reflexivity |].
  destruct (leb (c_confidence x) (c_confidence r)); [reflexivity |].
  rewrite IH. apply perm_swap.
Qed.

Lemma order_by_confidence_perm (rows : list Convention) :
  Permutation (order_by_confidence_desc rows) rows.
Proof.
  induction rows as [| r rows IH]; [reflexivity |].
  unfold order_by_confidence_desc in *. cbn [fold_right].
  rewrite insert_by_confidence_perm. now apply perm_skip.
Qed.



Lemma lookup_conventions_rows (conn : Store) (category scope_filter : option string)
    (min_confidence : float) :
  exists p,
    map cr_row (lookup_conventions conn category scope_filter min_confidence)
    = order_by_confidence_desc (filter p (conventions conn))
    /\ forall c,
         p c = true <->
         (truthy category = true -> Some (c_category c) = category)
         /\ (truthy scope_filter = true -> Some (c_scope c) = scope_filter)
         /\ ((of_int 0 < min_confidence)%py = true ->
             (c_confidence c >= min_confidence)%py = true).
Proof.
  unfold lookup_conventions. eexists. split.
  - rewrite map_map. cbn [cr_row]. rewrite map_id. reflexivity.
  - intros c. cbv beta. rewrite !andb_true_iff.
    destruct (truthy category), (truthy scope_filter), (of_int 0 < min_confidence)%py;
      rewrite ?opt_eqb_eq; intuition discriminate.
Qed.



Lemma In_lookup_conventions (conn : Store) (category : string) (c : Convention) :
  In c (conventions conn) -> c_category c = category ->
  exists d,
    In d (lookup_conventions conn (Some category) None (of_int 0)) /\ cr_row d = c.
Proof.
  intros Hin Hcat.
  destruct (lookup_conventions_rows conn (Some category) None (of_int 0)) as [p [Hrows Hp]].
  assert (H : In c (map cr_row (lookup_conventions conn (Some category) None (of_int 0)))).
  { rewrite Hrows.
    apply (Permutation_in c (Permutation_sym (order_by_confidence_perm _))).
    apply filter_In. split; [exact Hin |]. apply Hp.
    split; [intros _; now rewrite Hcat |]. split; [discriminate |].
    intros H. vm_compute in H. discriminate H. }
  apply in_map_iff in H. destruct H as [d [Hd Hind]]. now exists d.
Qed.

(** X8: a convention that [record_convention] has recorded, new or met
    before, is listed by [lookup_conventions] for its category, under the
    id that [record_convention] returned. *)
Theorem recorded_convention_is_found (conn conn' : Store) (now : string)
    (category pattern : string) (example : option string) (source scope : string)
    (session_id : option string) (id : Z) :
  record_convention conn now category pattern example source scope session_id
    = (Ok id, conn') ->
  exists d,
    In d (lookup_conventions conn' (Some category) None (of_int 0))
    /\ c_id (cr_row d) = id
    /\ c_category (cr_row d) = category
    /\ c_pattern (cr_row d) = pattern
    /\ c_session_id (cr_row d) = session_id
    /\ c_updated_at (cr_row d) = now.
Proof.
  intros Hrec.
  assert (Hrow : exists c,
             find_convention conn' category pattern = Some c /\ c_id c = id
             /\ c_session_id c = session_id /\ c_updated_at c = now).
  { destruct (find_convention conn category pattern) as [existing |] eqn:Hfind.
    - destruct (session_known conn session_id) eqn:Hknown.
      + destruct (record_convention_existing conn now category pattern example source
                    scope session_id existing Hfind Hknown)
          as [conn'' [Heq [Hfound _]]].
        rewrite Heq in Hrec. inversion Hrec; subst id conn''.
        eexists. split; [exact Hfound |]. repeat split.
      + exfalso. unfold record_convention, find_convention in *. rewrite Hfind in Hrec.
        cbv zeta in Hrec. rewrite Hknown in Hrec. cbn [negb] in Hrec. discriminate Hrec.
    - destruct (scope_check scope) eqn:Hscope;
        [destruct (session_known conn session_id) eqn:Hknown |].
      + destruct (record_convention_new conn now category pattern example source scope
                    session_id Hfind Hscope Hknown)
          as [conn'' [Heq [_ [Hfound _]]]].
        rewrite Heq in Hrec. inversion Hrec; subst id conn''.
        eexists. split; [exact Hfound |]. repeat split.
      + exfalso. unfold record_convention, find_convention in *. rewrite Hfind in Hrec.
        unfold commit, insert_convention in Hrec. cbn [c_scope c_session_id] in Hrec.
        rewrite Hscope, Hknown in Hrec. cbn [negb] in Hrec. discriminate Hrec.
      + exfalso. unfold record_convention, find_convention in *. rewrite Hfind in Hrec.
        unfold commit, insert_convention in Hrec. cbn [c_scope c_session_id] in Hrec.
        rewrite Hscope in Hrec. cbn [negb] in Hrec. discriminate Hrec. }
  destruct Hrow as [c [Hfound [Hid [Hsid Hnow]]]].
  apply fetchone_filter_matches in Hfound. destruct Hfound as [Hkey Hin].
  apply same_key_true in Hkey. unfold key_of in Hkey. inversion Hkey as [[Hcat Hpat]].
  destruct (In_lookup_conventions conn' (c_category c) c Hin eq_refl) as [d [Hd Hdc]].
  exists d. rewrite Hdc. repeat split; try assumption.
Qed.

Lemma recorded_convention_is_found_witness :
  exists d,
    In d (lookup_conventions
            (after (record_convention three_sessions "t1" "naming" "snake_case" None
                      "correction" "personal" (Some "session-A")))
            (Some "naming") None (of_int 0))
    /\ c_id (cr_row d) = 1.
Proof.
  destruct (recorded_convention_is_found three_sessions
              (after (record_convention three_sessions "t1" "naming" "snake_case" None
                        "correction" "personal" (Some "session-A")))
              "t1" "naming" "snake_case" None "correction" "personal"
              (Some "session-A") 1)
    as [d [Hin [Hid _]]].
  - vm_compute. reflexivity.
  - exists d. split; assumption.
Defined.

Lemma record_quirk_ok (conn conn' : Store) (now : string)
    (service description : string) (region workaround : option string)
    (scope : string) (session_id : option string) (id : Z) :
  record_quirk conn now service description region workaround scope session_id
    = (Ok id, conn') ->
  scope_check scope = true /\ session_known conn session_id = true
  /\ id = next_id (map q_id (quirks conn))
  /\ conn' = with_quirks conn
               (quirks conn
                ++ [mkQuirk id service description region workaround scope now now
                      session_id])%list.
Proof.
  unfold record_quirk, commit, insert_quirk. cbn [q_scope q_session_id].
  destruct (scope_check scope); cbn [negb]; [| discriminate].
  destruct (session_known conn session_id); cbn [negb]; [| discriminate].
  intros H. inversion H. auto.
Qed.

Lemma lookup_quirks_app (conn : Store) (rows : list Quirk)
    (service region scope_filter : option string) :
  lookup_quirks (with_quirks conn (quirks conn ++ rows)%list) service region scope_filter
  = (lookup_quirks conn service region scope_filter
     ++ lookup_quirks (with_quirks conn rows) service region scope_filter)%list.
Proof. unfold lookup_quirks. cbn [quirks with_quirks]. apply filter_app. Qed.

(** X9: [record_quirk] never merges: recording the same quirk a second
    time adds a second row under the next id, and [lookup_quirks] for the
    service then lists both after the rows it listed before. *)
Theorem record_quirk_never_merges (conn conn1 : Store) (now1 now2 : string)
    (service description : string) (region workaround : option string)
    (scope : string) (session_id : option string) (id : Z) :
  record_quirk conn now1 service description region workaround scope session_id
    = (Ok id, conn1) ->
  exists conn2,
    record_quirk conn1 now2 service description region workaround scope session_id
      = (Ok (id + 1), conn2)
    /\ quirks conn2
       = (quirks conn
          ++ [mkQuirk id service description region workaround scope now1 now1 session_id;
              mkQuirk (id + 1) service description region workaround scope now2 now2
                session_id])%list
    /\ lookup_quirks conn2 (Some service) None None
       = (lookup_quirks conn (Some service) None None
          ++ [mkQuirk id service description region workaround scope now1 now1 session_id;
              mkQuirk (id + 1) service description region workaround scope now2 now2
                session_id])%list
    /\ fixes conn2 = fixes conn /\ conventions conn2 = conventions conn
    /\ sessions conn2 = sessions conn.
Proof.
  intros H. apply record_quirk_ok in H. destruct H as [Hscope [Hknown [-> ->]]].
  unfold record_quirk, commit, insert_quirk.
  cbn [q_scope q_session_id quirks with_quirks]. rewrite Hscope.
  change (session_known (with_quirks conn _) session_id)
    with (session_known conn session_id).
  rewrite Hknown. cbn [negb].
  rewrite map_app. cbn [map q_id]. rewrite next_id_app.
  eexists. split; [reflexivity |].
  cbn [quirks with_quirks fixes conventions sessions with_quirk_id q_service q_description
       q_region q_workaround q_scope q_created_at q_updated_at q_session_id].
  rewrite <- app_assoc. cbn [app].
  split; [reflexivity |]. split; [| auto].
  change (mkStore (fixes conn) (conventions conn) ?l (sessions conn))
    with (with_quirks conn l).
  unfold lookup_quirks. cbn [quirks with_quirks]. rewrite filter_app. f_equal.
  assert (Hs : forall q, q_service q = service ->
               (if truthy (Some service)
                then fun r => opt_eqb (Some (q_service r)) (Some service)
                else fun _ => true) q = true).
  { intros q Hq. destruct (truthy (Some service)); [| reflexivity].
    cbn [opt_eqb]. rewrite Hq. apply String.eqb_refl. }
  cbn [filter]. rewrite !Hs by reflexivity. reflexivity.
Qed.

Lemma record_quirk_never_merges_witness :
  exists conn2,
    record_quirk
      (after (record_quirk three_sessions "t1" "s3" "eventual consistency" None None
                "team" (Some "session-A")))
      "t2" "s3" "eventual consistency" None None "team" (Some "session-A")
    = (Ok 2, conn2)
    /\ List.length (quirks conn2) = 2%nat.
Proof.
  destruct (record_quirk_never_merges three_sessions
              (after (record_quirk three_sessions "t1" "s3" "eventual consistency" None
                        None "team" (Some "session-A")))
              "t1" "t2" "s3" "eventual consistency" None None "team" (Some "session-A") 1)
    as [conn2 [Hrec [Hrows _]]].
  - vm_compute. reflexivity.
  - exists conn2. split; [exact Hrec |]. rewrite Hrows. reflexivity.
Defined.

(** ** Rounding never yields a NaN *)

Lemma iter_pos_keeps {A : Type} (P : A -> Prop) (f : A -> A) :
  (forall x, P x -> P (f x)) -> forall n x, P x -> P (iter_pos f n x).
Proof.
  intros Hf. induction n as [n IH | n IH |]; intros x Hx; cbn [iter_pos]; auto.
Qed.

Lemma shr_1_nonneg (mrs : shr_record) : 0 <= shr_m mrs -> 0 <= shr_m (shr_1 mrs).
Proof.
  destruct mrs as [m r s]. destruct m as [| [p | p |] | p]; cbn; intros H; lia.
Qed.

Lemma shr_fexp_nonneg (m e : Z) (l : location) :
  0 <= m -> 0 <= shr_m (fst (shr_fexp prec emax m e l)).
Proof.
  intros Hm. unfold shr_fexp, shr.
  assert (H0 : 0 <= shr_m (shr_record_of_loc m l)) by (destruct l as [| []]; exact Hm).
  destruct (fexp prec emax (Zdigits2 m + e) - e) as [| p | p]; cbn [fst]; try exact H0.
  apply (iter_pos_keeps (fun mrs => 0 <= shr_m mrs)); [apply shr_1_nonneg | exact H0].
Qed.

Lemma round_nearest_even_nonneg (m : Z) (l : location) :
  0 <= m -> 0 <= round_nearest_even m l.
Proof.
  intros Hm. destruct l as [| []]; cbn [round_nearest_even]; try lia.
  destruct (Z.even m); lia.
Qed.

Lemma binary_round_aux_not_nan (sx : bool) (mx ex : Z) (lx : location) :
  0 <= mx -> is_nan (binary_round_aux prec emax sx mx ex lx) = false.
Proof.
  intros Hm. unfold binary_round_aux.
  pose proof (shr_fexp_nonneg mx ex lx Hm) as H1.
  destruct (shr_fexp prec emax mx ex lx) as [mrs' e']. cbn [fst] in H1.
  pose proof (shr_fexp_nonneg _ e' loc_Exact
                (round_nearest_even_nonneg _ (loc_of_shr_record mrs') H1)) as H2.
  destruct (shr_fexp prec emax _ e' loc_Exact) as [mrs'' e'']. cbn [fst] in H2.
  destruct (shr_m mrs'') as [| p | p]; [reflexivity | | lia].
  destruct (e'' <=? emax - prec); reflexivity.
Qed.

Lemma binary_normalize_not_nan (m e : Z) (szero : bool) :
  is_nan (binary_normalize prec emax m e szero) = false.
Proof.
  destruct m as [| p | p]; cbn [binary_normalize]; [reflexivity | |];
    unfold binary_round; destruct (shl_align _ _ _) as [mz ez];
    apply binary_round_aux_not_nan; lia.
Qed.

(** A sum with a finite number is a NaN only if the other term is. *)
Lemma add_finite_not_nan (a : float) (s : bool) (m : positive) (e : Z) :
  is_nan a = false -> is_nan (a + S754_finite s m e)%py = false.
Proof.
  destruct a as [sa | sa | | sa ma ea]; intros Ha; try discriminate Ha;
    try reflexivity.
  unfold Float64.add, SFadd. apply binary_normalize_not_nan.
Qed.

Lemma leb_not_nan (a b : float) : leb a b = true -> is_nan a = false.
Proof. destruct a; [reflexivity | reflexivity | discriminate | reflexivity]. Qed.

(** A confidence at most 1.0 stays so under an increment capped at 1.0. *)
Lemma capped_stays_capped (c delta : float) :
  leb c CONFIDENCE_CAP = true ->
  delta = CORRECTION_DELTA \/ delta = REINFORCE_DELTA ->
  leb (py_min (c + delta)%py CONFIDENCE_CAP) CONFIDENCE_CAP = true.
Proof.
  intros Hc Hd.
  assert (Hfin : exists s m e, delta = S754_finite s m e).
  { destruct Hd as [-> | ->]; vm_compute; eauto. }
  destruct Hfin as [s [m [e ->]]].
  apply py_min_least; [| vm_compute; reflexivity].
  apply add_finite_not_nan. exact (leb_not_nan _ _ Hc).
Qed.

(** ** The order of the floats *)

Lemma leb_trans (a b c : float) : leb a b = true -> leb b c = true -> leb a c = true.
Proof.
  unfold leb, SFleb.
  destruct a as [sa | sa | | sa ma ea], b as [sb | sb | | sb mb eb],
    c as [sc | sc | | sc mc ec];
    cbn [SFcompare]; try discriminate; try reflexivity;
    try destruct sa; try destruct sb; try destruct sc;
    try discriminate; try reflexivity;
    rewrite ?compare_cont_Z;
    repeat match goal with
           | |- context [(?x ?= ?y)] => destruct (Z.compare_spec x y)
           end;
    cbn [CompOpp]; intros; try reflexivity; try discriminate; exfalso; lia.
Qed.

Lemma ltb_false_leb (a b : float) :
  is_nan a = false -> is_nan b = false -> ltb a b = false -> leb b a = true.
Proof.
  intros Ha Hb. unfold ltb, leb, SFltb, SFleb. rewrite (SFcompare_antisym b a).
  destruct (SFcompare a b) as [[ | | ] |] eqn:E; cbn; try reflexivity; try discriminate.
  destruct a, b; simpl in *; discriminate.
Qed.

Lemma ceiling_below_threshold (raw : float) :
  (py_min raw SINGLE_SESSION_CEILING >= OVERRIDE_THRESHOLD)%py = false.
Proof.
  unfold py_min. destruct (ltb SINGLE_SESSION_CEILING raw) eqn:E.
  - vm_compute. reflexivity.
  - destruct (is_nan raw) eqn:N.
    + destruct raw; try discriminate N. rewrite threshold_bits. reflexivity.
    + apply at_most_0_79_fails. apply (leb_trans _ SINGLE_SESSION_CEILING).
      * apply ltb_false_leb; [vm_compute; reflexivity | exact N | exact E].
      * vm_compute. reflexivity.
Qed.

(** X10: a personal convention seen in at most one session never
    overrides Canon, whatever its raw confidence: the single-session
    ceiling of 0.7 lies below the override threshold. *)
Theorem single_session_never_overrides (conv : ConvDict) :
  get (cd_scope conv) "personal" = "personal" ->
  get (cd_distinct_sessions conv) 1 <= 1 ->
  _should_override_convention conv = (false, None).
Proof.
  intros Hscope Hds. unfold _should_override_convention. cbv zeta.
  rewrite Hscope.
  change (("personal" =? "team")%string || ("personal" =? "org")%string) with false.
  change ("personal" =? "personal")%string with true. cbv iota.
  unfold effective_confidence. rewrite (proj2 (Z.leb_le _ _) Hds).
  now rewrite ceiling_below_threshold.
Qed.

Lemma single_session_never_overrides_witness :
  _should_override_convention (mkConvDict (Some "personal") (Some (literal 1 1)) (Some 1))
  = (false, None).
Proof.
  apply (single_session_never_overrides
           (mkConvDict (Some "personal") (Some (literal 1 1)) (Some 1))).
  - reflexivity.
  - cbn. lia.
Defined.

Lemma binary_round_aux_sign (sx : bool) (mx ex : Z) (lx : location) :
  0 <= mx -> has_sign sx (binary_round_aux prec emax sx mx ex lx).
Proof.
  intros Hm. unfold binary_round_aux.
  pose proof (shr_fexp_nonneg mx ex lx Hm) as H1.
  destruct (shr_fexp prec emax mx ex lx) as [mrs' e']. cbn [fst] in H1.
  pose proof (shr_fexp_nonneg _ e' loc_Exact
                (round_nearest_even_nonneg _ (loc_of_shr_record mrs') H1)) as H2.
  destruct (shr_fexp prec emax _ e' loc_Exact) as [mrs'' e'']. cbn [fst] in H2.
  destruct (shr_m mrs'') as [| p | p]; [reflexivity | | lia].
  destruct (e'' <=? emax - prec); reflexivity.
Qed.

Lemma of_int_positive_sign (n : Z) : 0 < n -> has_sign false (of_int n).
Proof.
  destruct n as [| p | p]; try lia. intros _.
  unfold of_int. cbn [binary_normalize]. unfold binary_round.
  destruct (shl_align _ _ _) as [mz ez]. apply binary_round_aux_sign. lia.
Qed.

Lemma session_bonus_finite (distinct_sessions : Z) :
  1 < distinct_sessions ->
  finite_nonneg
    (py_min (of_int (distinct_sessions - 1) * SESSION_BONUS_PER)%py SESSION_BONUS_CAP).
Proof.
  intros Hds.
  pose proof (of_int_positive_sign (distinct_sessions - 1) ltac:(lia)) as Hn.
  assert (Hper : exists m e, SESSION_BONUS_PER = S754_finite false m e)
    by (vm_compute; eauto).
  destruct Hper as [m [e ->]].
  assert (Hp : has_sign false (of_int (distinct_sessions - 1) * S754_finite false m e)%py).
  { destruct (of_int (distinct_sessions - 1)) as [s | s | | s mn en]; cbn in Hn;
      try contradiction; subst s; try reflexivity.
    unfold Float64.mul, SFmul. cbn [xorb]. apply binary_round_aux_sign. lia. }
  unfold py_min.
  destruct (of_int (distinct_sessions - 1) * S754_finite false m e)%py
    as [s | s | | s mp ep]; cbn in Hp; try contradiction; subst s.
  - exact I.
  - vm_compute. reflexivity.
  - destruct (ltb SESSION_BONUS_CAP (S754_finite false mp ep)); [vm_compute |]; reflexivity.
Qed.

Lemma add_finite_nonneg_not_nan (a b : float) :
  is_nan a = false -> finite_nonneg b -> is_nan (a + b)%py = false.
Proof.
  intros Ha Hb. destruct b as [s | s | | s m e]; cbn in Hb; try contradiction.
  - destruct a as [sa | sa | | sa ma ea]; try discriminate Ha; try reflexivity.
    destruct sa, s; reflexivity.
  - now apply add_finite_not_nan.
Qed.

(** X11: for a raw confidence that is a number, the effective confidence
    never exceeds 1.0, and never exceeds 0.7 while the convention has been
    seen in at most one session. *)
Theorem effective_confidence_bounded (raw : float) (distinct_sessions : Z) :
  is_nan raw = false ->
  leb (effective_confidence raw distinct_sessions) CONFIDENCE_CAP = true
  /\ is_nan (effective_confidence raw distinct_sessions) = false
  /\ (distinct_sessions <= 1 ->
      leb (effective_confidence raw distinct_sessions) SINGLE_SESSION_CEILING = true).
Proof.
  intros Hraw.
  assert (Hcap : is_nan CONFIDENCE_CAP = false) by (vm_compute; reflexivity).
  assert (Hceil : is_nan SINGLE_SESSION_CEILING = false) by (vm_compute; reflexivity).
  unfold effective_confidence. destruct (distinct_sessions <=? 1) eqn:E.
  - destruct (py_min_least raw SINGLE_SESSION_CEILING Hraw Hceil) as [_ [Hle Hone]].
    split; [| split; [| intros _; exact Hle]].
    + apply (leb_trans _ SINGLE_SESSION_CEILING); [exact Hle | vm_compute; reflexivity].
    + exact (leb_not_nan _ _ Hle).
  - apply Z.leb_gt in E. cbv zeta.
    pose proof (add_finite_nonneg_not_nan raw _ Hraw (session_bonus_finite _ E)) as Hsum.
    destruct (py_min_least _ CONFIDENCE_CAP Hsum Hcap) as [_ [Hle _]].
    split; [exact Hle |]. split; [exact (leb_not_nan _ _ Hle) | lia].
Qed.

Lemma effective_confidence_bounded_witness :
  leb (effective_confidence (literal 95 100) 4) CONFIDENCE_CAP = true.
Proof.
  apply (effective_confidence_bounded (literal 95 100) 4). vm_compute. reflexivity.
Defined.

(** ** What a write operation can do to the store *)

Lemma record_fix_effect conn now error_text root_cause fix_ resource provider validated
    scope session_id :
  let r := record_fix conn now error_text root_cause fix_ resource provider validated
             scope session_id in
  effect conn (snd r) /\ (forall e, fst r = Raise e -> snd r = conn).
Proof.
  cbv zeta. unfold record_fix.
  destruct (fetchone _) as [existing |] eqn:Hfind.
  - cbn [fst snd]. split; [| discriminate].
    apply effect_fix_hit. now apply fetchone_filter_matches in Hfind.
  - unfold commit, insert_fix. cbn [f_scope f_session_id].
    destruct (scope_check scope) eqn:Hs; cbn [negb];
      [destruct (session_known conn session_id) eqn:Hk; cbn [negb] |]; cbn [fst snd].
    + split; [| discriminate].
      apply (effect_fix_new conn (with_fix_id _ _)); cbn; auto.
    + split; [apply effect_none | reflexivity].
    + split; [apply effect_none | reflexivity].
Qed.

Lemma record_convention_effect conn now category pattern example src scope session_id :
  let r := record_convention conn now category pattern example src scope session_id in
  effect conn (snd r) /\ (forall e, fst r = Raise e -> snd r = conn).
Proof.
  cbv zeta. unfold record_convention.
  destruct (fetchone _) as [existing |] eqn:Hfind.
  - destruct (session_known conn session_id) eqn:Hk; cbn [negb fst snd].
    + split; [| discriminate].
      apply effect_learned; auto.
      * now apply fetchone_filter_matches in Hfind.
      * destruct (truthy session_id && negb (opt_eqb session_id (c_session_id existing)));
          auto.
    + split; [apply effect_none | reflexivity].
  - unfold commit, insert_convention. cbn [c_scope c_session_id c_category c_pattern].
    destruct (scope_check scope) eqn:Hs; cbn [negb];
      [destruct (session_known conn session_id) eqn:Hk; cbn [negb];
       [destruct (existsb _ _) eqn:Hex |] |]; cbn [fst snd];
      try (split; [apply effect_none | reflexivity]).
    split; [| discriminate].
    apply (effect_convention_new conn (with_convention_id _ _)); cbn; auto.
Qed.

Lemma record_quirk_effect conn now service description region workaround scope session_id :
  let r := record_quirk conn now service description region workaround scope session_id in
  effect conn (snd r) /\ (forall e, fst r = Raise e -> snd r = conn).
Proof.
  cbv zeta. unfold record_quirk, commit, insert_quirk. cbn [q_scope q_session_id].
  destruct (scope_check scope) eqn:Hs; cbn [negb];
    [destruct (session_known conn session_id) eqn:Hk; cbn [negb] |]; cbn [fst snd];
    try (split; [apply effect_none | reflexivity]).
  split; [| discriminate].
  apply (effect_quirk_new conn (with_quirk_id _ _)); cbn; auto.
Qed.

Lemma reinforce_convention_effect conn now convention_id session_id :
  let r := reinforce_convention conn now convention_id session_id in
  effect conn (snd r) /\ (forall e, fst r = Raise e -> snd r = conn).
Proof.
  cbv zeta. unfold reinforce_convention.
  destruct (fetchone _) as [row |] eqn:Hfind; cbn [fst snd];
    [| split; [apply effect_none | reflexivity]].
  cbv zeta.
  destruct (session_known conn _) eqn:Hk; cbn [negb fst snd];
    [| split; [apply effect_none | reflexivity]].
  split; [| discriminate].
  apply effect_learned; auto.
  - now apply fetchone_filter_matches in Hfind.
  - destruct (truthy session_id && negb (opt_eqb session_id (c_session_id row))); auto.
Qed.

Lemma run_op_effect (conn : Store) (now : string) (op : write_op) :
  effect conn (snd (run_op conn now op))
  /\ (fst (run_op conn now op) = true -> snd (run_op conn now op) = conn).
Proof.
  destruct op as [error_text root_cause fix_ resource provider validated scope session_id
                 | category pattern example src scope session_id
                 | service description region workaround scope session_id
                 | convention_id session_id
                 | convention_id]; cbn [run_op].
  - pose proof (record_fix_effect conn now error_text root_cause fix_ resource provider
                  validated scope session_id) as H. cbv zeta in H.
    destruct (record_fix _ _ _ _ _ _ _ _ _ _) as [[v | e] conn']; cbn [fst snd] in *;
      (split; [tauto |]); [discriminate | intros _; now apply (proj2 H e)].
  - pose proof (record_convention_effect conn now category pattern example src scope
                  session_id) as H. cbv zeta in H.
    destruct (record_convention _ _ _ _ _ _ _ _) as [[v | e] conn']; cbn [fst snd] in *;
      (split; [tauto |]); [discriminate | intros _; now apply (proj2 H e)].
  - pose proof (record_quirk_effect conn now service description region workaround scope
                  session_id) as H. cbv zeta in H.
    destruct (record_quirk _ _ _ _ _ _ _ _) as [[v | e] conn']; cbn [fst snd] in *;
      (split; [tauto |]); [discriminate | intros _; now apply (proj2 H e)].
  - pose proof (reinforce_convention_effect conn now convention_id session_id) as H.
    cbv zeta in H.
    destruct (reinforce_convention _ _ _ _) as [[v | e] conn']; cbn [fst snd] in *;
      (split; [tauto |]); [discriminate | intros _; now apply (proj2 H e)].
  - cbn [contradict_convention fst snd]. split; [apply effect_reset | discriminate].
Qed.

Lemma map_update_where {A B : Type} (g : A -> B) (q : A -> bool) (set : A -> A)
    (rows : list A) :
  (forall r, g (set r) = g r) -> map g (update_where q set rows) = map g rows.
Proof.
  intros Hg. unfold update_where. rewrite map_map. apply map_ext.
  intros r. destruct (q r); [apply Hg | reflexivity].
Qed.

Lemma Forall_update_where {A : Type} (P : A -> Prop) (q : A -> bool) (set : A -> A)
    (rows : list A) :
  (forall r, P r -> P (set r)) -> Forall P rows -> Forall P (update_where q set rows).
Proof.
  intros Hset H. unfold update_where. apply Forall_map.
  revert H. apply Forall_impl. intros r Hr. destruct (q r); auto.
Qed.

Lemma NoDup_snoc {A : Type} (l : list A) (x : A) :
  NoDup l -> ~ In x l -> NoDup (l ++ [x]).
Proof.
  intros Hl Hx. apply NoDup_app; [exact Hl | repeat constructor; intros [] |].
  intros y Hy [<- | []]. contradiction.
Qed.

Lemma next_id_fresh (ids : list Z) : ~ In (next_id ids) ids.
Proof. intros H. apply next_id_above in H. lia. Qed.

Lemma filter_nil_none {A : Type} (p : A -> bool) (rows : list A) (r : A) :
  fetchone (filter p rows) = None -> In r rows -> p r = false.
Proof.
  intros Hnone Hin. apply fetchone_none in Hnone.
  destruct (p r) eqn:E; [| reflexivity].
  assert (H : In r (filter p rows)) by (apply filter_In; auto).
  rewrite Hnone in H. destruct H.
Qed.

Lemma effect_sessions (conn conn' : Store) : effect conn conn' -> sessions conn' = sessions conn.
Proof. destruct 1; reflexivity. Qed.

Lemma effect_keys_unique (conn conn' : Store) :
  effect conn conn' -> keys_unique conn -> keys_unique conn'.
Proof.
  intros Heff [Hf [Hc [Hq [Hh Hk]]]]. unfold keys_unique.
  destruct Heff; cbn [fixes conventions quirks with_fixes with_conventions with_quirks];
    rewrite ?map_update_where by reflexivity; rewrite ?map_app; cbn [map];
    repeat split; try assumption.
  - apply NoDup_snoc; [exact Hf |]. rewrite H. apply next_id_fresh.
  - apply NoDup_snoc; [exact Hh |]. intros Hin. apply in_map_iff in Hin.
    destruct Hin as [r [Hr Hin]].
    pose proof (filter_nil_none _ _ r H4 Hin) as E. unfold has_hash in E.
    rewrite Hr, String.eqb_refl in E. discriminate E.
  - apply NoDup_snoc; [exact Hc |]. rewrite H. apply next_id_fresh.
  - apply NoDup_snoc; [exact Hk |]. intros Hin. apply in_map_iff in Hin.
    destruct Hin as [r [Hr Hin]].
    pose proof (filter_nil_none _ _ r H4 Hin) as E. unfold same_key in E.
    unfold key_of in Hr. inversion Hr as [[E1 E2]].
    rewrite E1, E2, !String.eqb_refl in E. discriminate E.
  - apply NoDup_snoc; [exact Hq |]. rewrite H. apply next_id_fresh.
Qed.

Lemma effect_constraints_hold (conn conn' : Store) :
  effect conn conn' -> constraints_hold conn -> constraints_hold conn'.
Proof.
  intros Heff [Hf [Hc Hq]]. unfold constraints_hold.
  destruct Heff; cbn [fixes conventions quirks with_fixes with_conventions with_quirks];
    repeat split; try assumption;
    try (apply Forall_update_where; [intros r Hr; cbn; tauto | assumption]);
    try (apply Forall_app; split; [assumption | repeat constructor; assumption]).
Qed.

Lemma effect_counters_sound (conn conn' : Store) :
  effect conn conn' -> counters_sound conn -> counters_sound conn'.
Proof.
  intros Heff [Hf Hc]. unfold counters_sound.
  destruct Heff; cbn [fixes conventions quirks with_fixes with_conventions with_quirks];
    split; try assumption.
  - rewrite Forall_forall in Hf. destruct (Hf existing H) as [_ Hhits].
    apply Forall_update_where; [| now apply Forall_forall].
    intros r [Hr _]. cbn. split; [exact Hr | lia].
  - apply Forall_app. split; [assumption |]. repeat constructor; [assumption | lia].
  - rewrite Forall_forall in Hc. destruct (Hc existing H) as [Hds Hconf].
    apply Forall_update_where; [| now apply Forall_forall].
    intros r _. cbn. split; [lia |]. now apply capped_stays_capped.
  - apply Forall_update_where; [| assumption].
    intros r [Hr _]. cbn. split; [exact Hr | vm_compute; reflexivity].
  - apply Forall_app. split; [assumption |]. repeat constructor; [lia |].
    rewrite H0. vm_compute. reflexivity.
Qed.

Lemma run_ops_effects (P : Store -> Prop) :
  (forall conn conn', effect conn conn' -> P conn -> P conn') ->
  forall ops conn, P conn -> P (run_ops conn ops).
Proof.
  intros Hstep. induction ops as [| [now op] ops IH]; intros conn HP; [exact HP |].
  cbn [run_ops]. apply IH. apply (Hstep conn); [apply run_op_effect | exact HP].
Qed.

(** X12: whatever sequence of write operations runs, raising ones
    included, the keys of the store stay unique: the ids of each table, the
    error hash among the fixes, and (category, pattern) among the
    conventions. *)
Theorem run_ops_keeps_keys_unique (conn : Store) (ops : list (string * write_op)) :
  keys_unique conn -> keys_unique (run_ops conn ops).
Proof.
  revert conn. induction ops as [| [now op] ops IH]; intros conn H; [exact H |].
  cbn [run_ops]. apply IH.
  apply (effect_keys_unique conn); [apply run_op_effect | exact H].
Qed.

(** X13: whatever sequence of write operations runs, every row keeps a
    scope of the schema and a session that exists or none, and the sessions
    table is never written. *)
Theorem run_ops_keeps_constraints (conn : Store) (ops : list (string * write_op)) :
  constraints_hold conn ->
  constraints_hold (run_ops conn ops) /\ sessions (run_ops conn ops) = sessions conn.
Proof.
  intros H.
  apply (run_ops_effects
           (fun c => constraints_hold c /\ sessions c = sessions conn)); [| now split].
  intros c c' Heff [Hc Hs]. split; [now apply (effect_constraints_hold c) |].
  now rewrite (effect_sessions c c' Heff).
Qed.

(** X14: whatever sequence of write operations runs, every fix keeps the
    hash of its own text and a hit count of at least 1, and every
    convention a session count of at least 1 and a raw confidence of at
    most 1.0. *)
Theorem run_ops_keeps_counters (conn : Store) (ops : list (string * write_op)) :
  counters_sound conn -> counters_sound (run_ops conn ops).
Proof.
  revert conn. induction ops as [| [now op] ops IH]; intros conn H; [exact H |].
  cbn [run_ops]. apply IH.
  apply (effect_counters_sound conn); [apply run_op_effect | exact H].
Qed.

(** X15: a write operation that raises leaves the store as it was. *)
Theorem raising_op_changes_nothing (conn : Store) (now : string) (op : write_op) :
  fst (run_op conn now op) = true -> snd (run_op conn now op) = conn.
Proof.
  destruct op as [error_text root_cause fix_ resource provider validated scope session_id
                 | category pattern example src scope session_id
                 | service description region workaround scope session_id
                 | convention_id session_id
                 | convention_id]; cbn [run_op].
  - pose proof (proj2 (record_fix_effect conn now error_text root_cause fix_ resource
                         provider validated scope session_id)) as H.
    destruct (record_fix _ _ _ _ _ _ _ _ _ _) as [[v | e] conn']; cbn [fst snd] in *;
      [discriminate | intros _; now apply (H e)].
  - pose proof (proj2 (record_convention_effect conn now category pattern example src
                         scope session_id)) as H.
    destruct (record_convention _ _ _ _ _ _ _ _) as [[v | e] conn']; cbn [fst snd] in *;
      [discriminate | intros _; now apply (H e)].
  - pose proof (proj2 (record_quirk_effect conn now service description region workaround
                         scope session_id)) as H.
    destruct (record_quirk _ _ _ _ _ _ _ _) as [[v | e] conn']; cbn [fst snd] in *;
      [discriminate | intros _; now apply (H e)].
  - pose proof (proj2 (reinforce_convention_effect conn now convention_id session_id)) as H.
    destruct (reinforce_convention _ _ _ _) as [[v | e] conn']; cbn [fst snd] in *;
      [discriminate | intros _; now apply (H e)].
  - cbn [contradict_convention fst]. discriminate.
Qed.

Lemma run_ops_keeps_keys_unique_witness : keys_unique (run_ops three_sessions session_log).
Proof.
  apply (run_ops_keeps_keys_unique three_sessions session_log).
  unfold keys_unique. cbn. repeat split; constructor.
Defined.

Lemma run_ops_keeps_constraints_witness :
  constraints_hold (run_ops three_sessions session_log).
Proof.
  apply (run_ops_keeps_constraints three_sessions session_log).
  unfold constraints_hold. cbn. repeat split; constructor.
Defined.

Lemma run_ops_keeps_counters_witness : counters_sound (run_ops three_sessions session_log).
Proof.
  apply (run_ops_keeps_counters three_sessions session_log).
  unfold counters_sound. cbn. split; constructor.
Defined.

Lemma raising_op_changes_nothing_witness :
  snd (run_op three_sessions "t5"
         (RecordQuirk "s3" "eventual consistency" None None "galaxy" None))
  = three_sessions.
Proof.
  apply (raising_op_changes_nothing three_sessions "t5"
           (RecordQuirk "s3" "eventual consistency" None None "galaxy" None)).
  reflexivity.
Defined.

Lemma effect_ids_kept (conn conn' : Store) :
  effect conn conn' ->
  (exists more, map f_id (fixes conn') = map f_id (fixes conn) ++ more)%list
  /\ (exists more, map c_id (conventions conn') = map c_id (conventions conn) ++ more)%list
  /\ (exists more, map q_id (quirks conn') = map q_id (quirks conn) ++ more)%list.
Proof.
  destruct 1; cbn [fixes conventions quirks with_fixes with_conventions with_quirks];
    rewrite ?map_update_where by reflexivity; rewrite ?map_app;
    repeat split; try (exists []; now rewrite app_nil_r); eauto.
Qed.

(** X16: no sequence of write operations deletes or renumbers a row: the
    ids of each table, in their order, stay a prefix of what the table
    holds afterwards. *)
Theorem run_ops_never_deletes (conn : Store) (ops : list (string * write_op)) :
  (exists more,
     map f_id (fixes (run_ops conn ops)) = map f_id (fixes conn) ++ more)%list
  /\ (exists more,
        map c_id (conventions (run_ops conn ops)) = map c_id (conventions conn) ++ more)%list
  /\ (exists more,
        map q_id (quirks (run_ops conn ops)) = map q_id (quirks conn) ++ more)%list.
Proof.
  apply (run_ops_effects
           (fun c =>
              (exists more, map f_id (fixes c) = map f_id (fixes conn) ++ more)%list
              /\ (exists more,
                    map c_id (conventions c) = map c_id (conventions conn) ++ more)%list
              /\ (exists more,
                    map q_id (quirks c) = map q_id (quirks conn) ++ more)%list)).
  - intros c c' Heff [[m1 H1] [[m2 H2] [m3 H3]]].
    destruct (effect_ids_kept c c' Heff) as [[n1 E1] [[n2 E2] [n3 E3]]].
    rewrite E1, E2, E3, H1, H2, H3, <- !app_assoc.
    repeat split; eexists; reflexivity.
  - repeat split; exists []; now rewrite app_nil_r.
Qed.

(** ** Reinforcing and contradicting a convention that exists *)

Lemma session_known_same (a b : Store) (session_id : option string) :
  sessions a = sessions b -> session_known a session_id = session_known b session_id.
Proof. unfold session_known. now intros ->. Qed.

(** X17: contradicting a convention that exists puts its confidence at
    0.3 and keeps its session count and session; every other convention and
    the other tables stay as they are; and a reinforcement right after
    returns 0.4 whatever the confidence was before the contradiction. *)
Theorem contradict_convention_resets (conn : Store) (now : string) (convention_id : Z)
    (row : Convention) :
  convention_by_id conn convention_id = Some row ->
  exists conn',
    contradict_convention conn now convention_id = (Ok CONTRADICTION_RESET, conn')
    /\ convention_by_id conn' convention_id
       = Some (set_confidence CONTRADICTION_RESET now row)
    /\ (forall j r, j <> convention_id ->
          convention_by_id conn j = Some r -> convention_by_id conn' j = Some r)
    /\ fixes conn' = fixes conn /\ quirks conn' = quirks conn
    /\ sessions conn' = sessions conn
    /\ (forall now' session_id,
          session_known conn session_id = true ->
          session_known conn (c_session_id row) = true ->
          fst (reinforce_convention conn' now' convention_id session_id)
          = Ok (literal 4 10)).
Proof.
  intros Hfind. unfold contradict_convention. eexists. split; [reflexivity |].
  assert (Hat : convention_by_id
                  (with_conventions conn
                     (update_where (fun r => c_id r =? convention_id)
                        (set_confidence CONTRADICTION_RESET now) (conventions conn)))
                  convention_id
                = Some (set_confidence CONTRADICTION_RESET now row)).
  { unfold convention_by_id in *. cbn [conventions with_conventions].
    rewrite filter_update_where by reflexivity.
    rewrite fetchone_update_where, Hfind. cbn [option_map].
    apply fetchone_filter_matches in Hfind. destruct Hfind as [Hid _].
    now rewrite Hid. }
  split; [exact Hat |]. split; [| split; [reflexivity | split; [reflexivity |
    split; [reflexivity |]]]].
  - intros j r Hj Hr. unfold convention_by_id in *. cbn [conventions with_conventions].
    rewrite filter_update_where by reflexivity.
    rewrite fetchone_update_where, Hr. cbn [option_map].
    apply fetchone_filter_matches in Hr. destruct Hr as [Hid _].
    apply Z.eqb_eq in Hid. destruct (Z.eqb_spec (c_id r) convention_id); [lia | reflexivity].
  - intros now' session_id Hsid Hrow.
    destruct (reinforce_convention_existing _ now' convention_id session_id _ Hat)
      as [conn'' [Heq _]].
    + unfold reinforced. cbn [c_session_id set_learning set_confidence].
      destruct (truthy session_id && negb (opt_eqb session_id (c_session_id row)));
        assumption.
    + rewrite Heq. cbn [fst]. f_equal; vm_compute; reflexivity.
Qed.

Lemma contradict_convention_resets_witness :
  exists conn',
    contradict_convention lifecycle "t5" 1 = (Ok CONTRADICTION_RESET, conn')
    /\ option_map c_distinct_sessions (convention_by_id conn' 1) = Some 4.
Proof.
  destruct (contradict_convention_resets lifecycle "t5" 1
              (mkConvention 1 "naming" "snake_case" None "correction" "personal" "t1" "t4"
                 (CONFIDENCE_BASE + REINFORCE_DELTA + REINFORCE_DELTA + REINFORCE_DELTA)%py
                 (Some "session-D") 4))
    as [conn' [Hrun [Hrow _]]].
  - vm_compute. reflexivity.
  - exists conn'. split; [exact Hrun |]. rewrite Hrow. reflexivity.
Defined.

(** X18: [reinforce_convention] compares the session with the one stored
    last only, so [distinct_sessions] counts the changes of session along
    the calls, not the sessions: two sessions that alternate raise it at
    every call. *)
Theorem reinforce_counts_session_changes (visits : list (string * string)) :
  forall (conn : Store) (convention_id : Z) (row : Convention),
  convention_by_id conn convention_id = Some row ->
  session_known conn (c_session_id row) = true ->
  Forall (fun v => snd v <> "" /\ session_known conn (Some (snd v)) = true) visits ->
  exists row',
    convention_by_id (reinforce_each conn convention_id visits) convention_id = Some row'
    /\ c_distinct_sessions row'
       = c_distinct_sessions row + session_changes (c_session_id row) (map snd visits)
    /\ c_session_id row' = last (map (fun v => Some (snd v)) visits) (c_session_id row).
Proof.
  induction visits as [| [now session_id] visits IH]; intros conn convention_id row Hfind Hrow Hall.
  - exists row. cbn. split; [exact Hfind |]. split; [lia | reflexivity].
  - inversion Hall as [| ? ? [Hne Hknown] Hrest]; subst. cbn [snd] in Hne, Hknown.
    assert (Htruthy : truthy (Some session_id) = true)
      by (destruct session_id; [contradiction | reflexivity]).
    assert (Hnew : c_session_id (reinforced row now (Some session_id)) = Some session_id).
    { unfold reinforced. cbn [c_session_id set_learning]. rewrite Htruthy. cbn [andb].
      destruct (opt_eqb (Some session_id) (c_session_id row)) eqn:E; cbn [negb];
        [| reflexivity].
      apply opt_eqb_eq in E. now rewrite <- E. }
    destruct (reinforce_convention_existing conn now convention_id (Some session_id) row
                Hfind) as [conn1 [Heq [Hfind1 [_ [Hsessions _]]]]].
    { now rewrite Hnew. }
    destruct (IH conn1 convention_id (reinforced row now (Some session_id)) Hfind1)
      as [row' [Hfound [Hcount Hlast]]].
    { rewrite Hnew, (session_known_same conn1 conn _ Hsessions). exact Hknown. }
    { revert Hrest. apply Forall_impl. intros v [Hv1 Hv2]. split; [exact Hv1 |].
      now rewrite (session_known_same conn1 conn _ Hsessions). }
    exists row'. cbn [reinforce_each]. unfold after at 1. rewrite Heq. cbn [snd].
    split; [exact Hfound |]. rewrite Hcount, Hlast, Hnew. split.
    + cbn [map snd session_changes]. unfold reinforced.
      cbn [c_distinct_sessions set_learning]. rewrite Htruthy. cbn [andb].
      destruct (opt_eqb (Some session_id) (c_session_id row)); cbn [negb]; lia.
    + cbn [map snd]. destruct visits as [| v visits']; [reflexivity |].
      cbn [map].
      change (last (Some (snd v) :: map (fun v0 => Some (snd v0)) visits') (Some session_id)
              = last (Some (snd v) :: map (fun v0 => Some (snd v0)) visits')
                  (c_session_id row)).
      apply last_nonempty.
Qed.

Lemma reinforce_counts_session_changes_witness :
  exists row',
    convention_by_id
      (reinforce_each
         (after (record_convention three_sessions "t1" "naming" "snake_case" None
                   "correction" "personal" (Some "session-A")))
         1 [("t2", "session-B"); ("t3", "session-A"); ("t4", "session-B")]) 1
    = Some row'
    /\ c_distinct_sessions row' = 4.
Proof.
  destruct (reinforce_counts_session_changes
              [("t2", "session-B"); ("t3", "session-A"); ("t4", "session-B")]
              (after (record_convention three_sessions "t1" "naming" "snake_case" None
                        "correction" "personal" (Some "session-A")))
              1
              (mkConvention 1 "naming" "snake_case" None "correction" "personal" "t1" "t1"
                 CONFIDENCE_BASE (Some "session-A") 1))
    as [row' [Hfound [Hcount _]]].
  - vm_compute. reflexivity.
  - reflexivity.
  - repeat constructor; discriminate.
  - exists row'. split; [exact Hfound |]. rewrite Hcount. reflexivity.
Defined.

(** ** Fork export: composition and frame *)

Lemma filter_perm {A : Type} (p : A -> bool) (l l' : list A) :
  Permutation l l' -> Permutation (filter p l) (filter p l').
Proof.
  induction 1 as [| x l l' H IH | x y l | l l' l'' H1 IH1 H2 IH2]; cbn [filter].
  - constructor.
  - destruct (p x); [now apply perm_skip | exact IH].
  - destruct (p x), (p y); try reflexivity. apply perm_swap.
  - now transitivity (filter p l').
Qed.

Lemma filter_map_commute {A C : Type} (cols : A -> C) (pc : C -> bool) (l : list A) :
  filter pc (map cols l) = map cols (filter (fun a => pc (cols a)) l).
Proof.
  induction l as [| a l IH]; [reflexivity |]. cbn [map filter].
  destruct (pc (cols a)); cbn [map]; now rewrite IH.
Qed.

Lemma filter_twice {A : Type} (p q : A -> bool) (l : list A) :
  filter q (filter p l) = filter (fun a => p a && q a) l.
Proof.
  induction l as [| a l IH]; [reflexivity |]. cbn [filter].
  destruct (p a); cbn [filter andb]; [destruct (q a) |]; now rewrite IH.
Qed.

(** Filtering again what a copy holds, seen through the columns. *)
Lemma refiltered_columns {A C : Type} (cols : A -> C) (pc : C -> bool) (p q : A -> bool)
    (copy rows : list A) :
  (forall a, q a = pc (cols a)) ->
  Permutation (map cols copy) (map cols (filter p rows)) ->
  Permutation (map cols (filter q copy)) (map cols (filter (fun a => p a && q a) rows)).
Proof.
  intros Hq H.
  rewrite (filter_ext q _ Hq), <- filter_map_commute.
  rewrite <- filter_twice, (filter_ext q _ Hq), <- filter_map_commute.
  now apply filter_perm.
Qed.

Lemma forked_twice_columns (r1 r2 : string -> string -> Z -> Z) (f1 f2 : string)
    (src : Store) :
  let dst2 := forked r2 f2 (forked r1 f1 src) in
  Permutation (map fix_columns (fixes dst2))
    (map fix_columns
       (filter (fun f => qualifies f1 (f_scope f) && qualifies f2 (f_scope f)) (fixes src)))
  /\ Permutation (map convention_columns (conventions dst2))
       (map convention_columns
          (filter (fun c => qualifies f1 (c_scope c) && qualifies f2 (c_scope c))
             (conventions src)))
  /\ Permutation (map quirk_columns (quirks dst2))
       (map quirk_columns
          (filter (fun q => qualifies f1 (q_scope q) && qualifies f2 (q_scope q))
             (quirks src))).
Proof.
  cbv zeta.
  destruct (forked_columns r2 f2 (forked r1 f1 src)) as (HF2 & HC2 & HQ2).
  destruct (forked_columns r1 f1 src) as (HF1 & HC1 & HQ1).
  split; [| split].
  - rewrite HF2.
    apply (refiltered_columns fix_columns
             (fun c => let '(_, _, _, _, _, _, _, scope, _, _, _) := c in
                       qualifies f2 scope));
      [reflexivity | exact HF1].
  - rewrite HC2.
    apply (refiltered_columns convention_columns
             (fun c => let '(_, _, _, _, scope, _, _, _) := c in qualifies f2 scope));
      [reflexivity | exact HC1].
  - rewrite HQ2.
    apply (refiltered_columns quirk_columns
             (fun c => let '(_, _, _, _, scope, _, _) := c in qualifies f2 scope));
      [reflexivity | exact HQ1].
Qed.

Lemma qualifies_org_least (scope_filter scope : string) :
  qualifies "org" scope = true -> qualifies scope_filter scope = true.
Proof.
  unfold qualifies. change ("org" =? "org")%string with true. cbv iota. intros ->.
  rewrite orb_true_r. now destruct (scope_filter =? "org")%string.
Qed.

Lemma qualifies_both_org (f1 f2 scope : string) :
  f2 = "org" \/ f1 = "org" ->
  qualifies f1 scope && qualifies f2 scope = (scope =? "org")%string.
Proof.
  change (scope =? "org")%string with (qualifies "org" scope).
  intros [-> | ->].
  - destruct (qualifies "org" scope) eqn:E; [| apply andb_false_r].
    now rewrite (qualifies_org_least f1 scope E).
  - destruct (qualifies "org" scope) eqn:E; [| reflexivity].
    now rewrite (qualifies_org_least f2 scope E).
Qed.

Lemma forked_keys_unique (rank_of : string -> string -> Z -> Z) (scope_filter : string)
    (src : Store) :
  NoDup (map key_of (conventions src)) ->
  NoDup (map key_of (conventions (forked rank_of scope_filter src))).
Proof.
  intros H. unfold forked. cbn [conventions].
  rewrite map_number_from by reflexivity. rewrite map_map.
  rewrite (map_ext _ key_of) by reflexivity.
  eapply Permutation_NoDup.
  - apply Permutation_map. symmetry. apply select_where_perm.
  - now apply NoDup_map_filter.
Qed.

(** X19: a fork can be forked again: the second export succeeds and
    leaves the first fork as it is, and the second fork holds, column for
    column, exactly the source rows that pass both filters.  With the same
    filter twice it holds the rows of the first fork; with "org" at either
    step it holds the org rows of the source.  Every convention in it has
    no session and counts one. *)
Theorem fork_of_a_fork (w : World) (db_path first second f1 f2 : string) (src : Store) :
  mkdir_ok w first = true -> openable w first = true ->
  mkdir_ok w second = true -> openable w second = true ->
  openable w db_path = true ->
  db_path <> first -> first <> second ->
  file_at w db_path = Some (Database (Some src)) ->
  NoDup (map key_of (conventions src)) ->
  let fix_columns :=
    fun f : Fix =>
      (f_error_hash f, f_error_text f, f_root_cause f, f_fix f, f_resource f, f_provider f,
       f_validated f, f_scope f, f_created_at f, f_updated_at f, f_hit_count f) in
  let convention_columns :=
    fun c : Convention =>
      (c_category c, c_pattern c, c_example c, c_source c, c_scope c, c_created_at c,
       c_updated_at c, c_confidence c) in
  let quirk_columns :=
    fun q : Quirk =>
      (q_service q, q_description q, q_region q, q_workaround q, q_scope q, q_created_at q,
       q_updated_at q) in
  let both := fun scope => qualifies f1 scope && qualifies f2 scope in
  exists w1 w2 dst1 dst2,
    export_for_fork w db_path first f1 = (Ok first, w1)
    /\ export_for_fork w1 first second f2 = (Ok second, w2)
    /\ file_at w1 first = Some (Database (Some dst1))
    /\ file_at w2 first = Some (Database (Some dst1))
    /\ file_at w2 second = Some (Database (Some dst2))
    /\ Permutation (map fix_columns (fixes dst2))
         (map fix_columns (filter (fun f => both (f_scope f)) (fixes src)))
    /\ Permutation (map convention_columns (conventions dst2))
         (map convention_columns (filter (fun c => both (c_scope c)) (conventions src)))
    /\ Permutation (map quirk_columns (quirks dst2))
         (map quirk_columns (filter (fun q => both (q_scope q)) (quirks src)))
    /\ (f2 = f1 ->
        Permutation (map fix_columns (fixes dst2)) (map fix_columns (fixes dst1))
        /\ Permutation (map convention_columns (conventions dst2))
             (map convention_columns (conventions dst1))
        /\ Permutation (map quirk_columns (quirks dst2))
             (map quirk_columns (quirks dst1)))
    /\ (f2 = "org" \/ f1 = "org" ->
        Permutation (map fix_columns (fixes dst2))
          (map fix_columns (filter (fun f => (f_scope f =? "org")%string) (fixes src)))
        /\ Permutation (map convention_columns (conventions dst2))
             (map convention_columns
                (filter (fun c => (c_scope c =? "org")%string) (conventions src)))
        /\ Permutation (map quirk_columns (quirks dst2))
             (map quirk_columns
                (filter (fun q => (q_scope q =? "org")%string) (quirks src))))
    /\ Forall (fun c => c_session_id c = None /\ c_distinct_sessions c = 1)
         (conventions dst2)
    /\ (forall scope, qualifies "team" scope = (scope =? "team")%string || (scope =? "org")%string)
    /\ (forall scope, qualifies "org" scope = (scope =? "org")%string).
Proof.
  intros Hm1 Ho1 Hm2 Ho2 Hdb Hne1 Hne2 Hsrc Hunique. cbv zeta.
  destruct (export_for_fork_ok w db_path first f1 src Hm1 Ho1 Hdb Hne1 Hsrc Hunique)
    as (w1 & Hrun1 & Hat1 & Hframe1 & Hmk1 & Hcan1 & Hplan1).
  destruct (openable_parts _ _ Ho1) as [Hcanf _].
  destruct (openable_parts _ _ Ho2) as [Hcans Hdirs].
  assert (Hsecond : second <> first) by congruence.
  destruct (export_for_fork_ok w1 first second f2 (forked (plan w) f1 src))
    as (w2 & Hrun2 & Hat2 & Hframe2 & _).
  { now rewrite Hmk1. }
  { unfold openable. now rewrite Hcan1, (Hframe1 second Hsecond), Hcans, Hdirs. }
  { unfold openable. now rewrite Hcan1, Hat1, Hcanf. }
  { exact Hne2. }
  { exact Hat1. }
  { now apply forked_keys_unique. }
  rewrite Hplan1 in Hat2.
  destruct (forked_twice_columns (plan w) (plan w) f1 f2 src) as (HF & HC & HQ).
  destruct (forked_columns (plan w) f1 src) as (HF1 & HC1 & HQ1).
  destruct (forked_rows (plan w) f2 (forked (plan w) f1 src)) as (_ & RC & _).
  exists w1, w2, (forked (plan w) f1 src), (forked (plan w) f2 (forked (plan w) f1 src)).
  split; [exact Hrun1 |]. split; [exact Hrun2 |]. split; [exact Hat1 |].
  split; [now rewrite (Hframe2 first Hne2) |]. split; [exact Hat2 |].
  split; [exact HF |]. split; [exact HC |]. split; [exact HQ |].
  split; [| split; [| split; [| split; reflexivity]]].
  - intros ->. rewrite HF, HC, HQ, HF1, HC1, HQ1.
    rewrite (filter_ext _ _ (fun f => andb_diag (qualifies f1 (f_scope f)))).
    rewrite (filter_ext _ _ (fun c => andb_diag (qualifies f1 (c_scope c)))).
    rewrite (filter_ext _ _ (fun q => andb_diag (qualifies f1 (q_scope q)))).
    repeat split; reflexivity.
  - intros Horg. rewrite HF, HC, HQ.
    rewrite (filter_ext _ _ (fun f => qualifies_both_org f1 f2 (f_scope f) Horg)).
    rewrite (filter_ext _ _ (fun c => qualifies_both_org f1 f2 (c_scope c) Horg)).
    rewrite (filter_ext _ _ (fun q => qualifies_both_org f1 f2 (q_scope q) Horg)).
    repeat split; reflexivity.
  - revert RC. apply Forall_impl. intros c H. tauto.
Qed.

Lemma fork_of_a_fork_witness :
  exists w1 w2 dst1 dst2,
    export_for_fork fork_test_world "source.db" "team.db" "team" = (Ok "team.db", w1)
    /\ export_for_fork w1 "team.db" "org.db" "org" = (Ok "org.db", w2)
    /\ file_at w2 "team.db" = Some (Database (Some dst1))
    /\ file_at w2 "org.db" = Some (Database (Some dst2))
    /\ Permutation (map (fun f => (f_error_text f, f_scope f)) (fixes dst2))
         [("org fix", "org")].
Proof.
  destruct (fork_of_a_fork fork_test_world "source.db" "team.db" "org.db" "team" "org"
              fork_test_source eq_refl eq_refl eq_refl eq_refl eq_refl
              ltac:(discriminate) ltac:(discriminate) eq_refl)
    as (w1 & w2 & dst1 & dst2 & H1 & H2 & _ & Hfirst & Hsecond & _ & _ & _ & _ & Horg & _).
  - cbn. repeat constructor; cbn; intuition discriminate.
  - exists w1, w2, dst1, dst2. split; [exact H1 |]. split; [exact H2 |].
    split; [exact Hfirst |]. split; [exact Hsecond |].
    destruct (Horg (or_introl eq_refl)) as [HF _].
    apply (Permutation_map
             (fun c : string * string * string * string * option string * option string
                      * Z * string * string * string * Z =>
                let '(_, text, _, _, _, _, _, scope, _, _, _) := c in (text, scope)))
      in HF.
    rewrite !map_map in HF. exact HF.
Defined.

(** X20: an export whose output path is the source path erases the
    source: the file is replaced by an empty store before it is read, so
    the export succeeds and copies nothing. *)
Theorem export_onto_the_source_erases_it (w : World) (path scope_filter : string) :
  mkdir_ok w path = true -> openable w path = true ->
  exists w',
    export_for_fork w path path scope_filter = (Ok path, w')
    /\ file_at w' path = Some (Database (Some empty_store))
    /\ (forall p, p <> path -> file_at w' p = file_at w p).
Proof.
  intros Hmkdir Hopen. destruct (openable_parts _ _ Hopen) as [Hcan Hdir].
  unfold export_for_fork. rewrite Hmkdir, Hdir. cbn [negb].
  unfold openable at 1. cbn [can_open file_at write_file].
  rewrite String.eqb_refl, Hcan. cbn [is_directory negb andb].
  unfold sqlite_open. unfold openable at 1. cbn [can_open file_at write_file].
  rewrite String.eqb_refl, Hcan. cbn [is_directory negb andb].
  assert (Hcopy : forall rank_of,
             copy_tables rank_of
               (if (scope_filter =? "org")%string then ["org"] else ["team"; "org"])
               (Some empty_store) empty_store = Ok empty_store)
    by (intros rank_of; destruct (scope_filter =? "org")%string; reflexivity).
  rewrite Hcopy. eexists. split; [reflexivity |]. cbn [file_at write_file].
  rewrite String.eqb_refl. split; [reflexivity |].
  intros p Hp. apply String.eqb_neq in Hp. now rewrite Hp.
Qed.

Lemma export_onto_the_source_erases_it_witness :
  exists w',
    export_for_fork fork_test_world "source.db" "source.db" "team" = (Ok "source.db", w')
    /\ file_at w' "source.db" = Some (Database (Some empty_store)).
Proof.
  destruct (export_onto_the_source_erases_it fork_test_world "source.db" "team"
              eq_refl eq_refl) as [w' [Hrun [Hat _]]].
  exists w'. split; assumption.
Defined.

Ltac other_path :=
  repeat match goal with
         | H : ?p <> ?q |- context [(?p =? ?q)%string] =>
             rewrite (proj2 (String.eqb_neq p q) H)
         end.

(** X21: the export never changes a source file that exists and is not
    the output path, whether it returns or raises.  A source path that
    holds nothing is another matter: opening it creates an empty database
    file there, the export then raises OperationalError for want of the
    fixes table, and the output path is left with the empty schema. *)
Theorem export_keeps_an_existing_source (w : World)
    (db_path output_path scope_filter : string) :
  (db_path <> output_path -> file_at w db_path <> None ->
   file_at (snd (export_for_fork w db_path output_path scope_filter)) db_path
   = file_at w db_path)
  /\ (mkdir_ok w output_path = true -> openable w output_path = true ->
      openable w db_path = true -> db_path <> output_path ->
      file_at w db_path = None ->
      exists w',
        export_for_fork w db_path output_path scope_filter
        = (Raise (OperationalError "no such table: fixes"), w')
        /\ file_at w' db_path = Some (Database None)
        /\ file_at w' output_path = Some (Database (Some empty_store))).
Proof.
  split.
  - intros Hne Hthere. unfold export_for_fork.
    destruct (mkdir_ok w output_path); cbn [negb]; [| reflexivity].
    destruct (is_directory (file_at w output_path)); [reflexivity |].
    destruct (openable _ output_path); cbn [negb];
      [| cbn [snd file_at write_file]; other_path; reflexivity].
    unfold sqlite_open.
    destruct (openable _ db_path); cbn [negb];
      [| cbn [snd file_at write_file]; other_path; reflexivity].
    cbn [file_at write_file]. other_path.
    destruct (file_at w db_path) as [[| tables |] |] eqn:E; [| | | congruence];
      try (cbn [snd file_at write_file]; other_path; exact E).
    destruct (copy_tables _ _ _ _); cbn [snd file_at write_file]; other_path; exact E.
  - intros Hmkdir Hout Hdb Hne Hnone.
    destruct (openable_parts _ _ Hout) as [Hcan Hdir].
    assert (Hneb : (db_path =? output_path)%string = false) by now apply String.eqb_neq.
    assert (Hneb' : (output_path =? db_path)%string = false)
      by (apply String.eqb_neq; congruence).
    unfold export_for_fork. rewrite Hmkdir, Hdir. cbn [negb].
    unfold openable at 1. cbn [can_open file_at write_file].
    rewrite String.eqb_refl, Hcan. cbn [is_directory negb andb].
    unfold sqlite_open. unfold openable at 1. cbn [can_open file_at write_file].
    rewrite Hneb. fold (openable w db_path). rewrite Hdb, Hnone. cbn [negb].
    unfold copy_tables. cbn [select_all].
    eexists. split; [reflexivity |]. cbn [file_at write_file].
    rewrite String.eqb_refl, Hneb', String.eqb_refl. split; reflexivity.
Qed.

Lemma export_keeps_an_existing_source_witness :
  file_at (snd (export_for_fork fork_test_world "source.db" "fork.db" "team")) "source.db"
  = Some (Database (Some fork_test_source))
  /\ exists w',
       export_for_fork fork_test_world "missing.db" "fork.db" "team"
       = (Raise (OperationalError "no such table: fixes"), w')
       /\ file_at w' "missing.db" = Some (Database None).
Proof.
  split.
  - apply (proj1 (export_keeps_an_existing_source fork_test_world "source.db" "fork.db"
                    "team")); discriminate.
  - destruct (proj2 (export_keeps_an_existing_source fork_test_world "missing.db"
                       "fork.db" "team") eq_refl eq_refl eq_refl ltac:(discriminate)
                eq_refl) as (w' & Hrun & Hat & _).
    exists w'. split; assumption.
Defined.

(** ** Deduplication *)

Section DedupFacts.

Variable Entry : Type.
Variable field_of : Entry -> string.

Lemma truthy_some (key : string) : truthy (Some key) = true <-> key <> "".
Proof. destruct key; cbn; split; congruence. Qed.

Lemma existsb_eqb_In (key : string) (seen : list string) :
  existsb (String.eqb key) seen = true <-> In key seen.
Proof.
  rewrite existsb_exists. split.
  - intros [x [Hx E]]. apply String.eqb_eq in E. now subst.
  - intros H. exists key. split; [exact H | apply String.eqb_refl].
Qed.

Lemma dedup_from_keys (entries : list Entry) : forall seen,
  NoDup (map field_of (dedup_from field_of seen entries))
  /\ forall e, In e (dedup_from field_of seen entries) ->
       In e entries /\ field_of e <> "" /\ ~ In (field_of e) seen.
Proof.
  induction entries as [| entry rest IH]; intros seen; cbn [dedup_from].
  - split; [constructor | intros e []].
  - destruct (truthy (Some (field_of entry))) eqn:Ht; cbn [andb];
      [destruct (existsb (String.eqb (field_of entry)) seen) eqn:Hs; cbn [negb] |].
    + destruct (IH seen) as [Hnd Hin]. split; [exact Hnd |].
      intros e He. destruct (Hin e He) as [H1 H2]. split; [now right | exact H2].
    + destruct (IH (field_of entry :: seen)) as [Hnd Hin]. split.
      * cbn [map]. constructor; [| exact Hnd]. intros Hk.
        apply in_map_iff in Hk. destruct Hk as [e [Hke He]].
        destruct (Hin e He) as [_ [_ Hnot]]. apply Hnot. left. now symmetry.
      * intros e [<- | He].
        -- split; [now left |]. split; [now apply truthy_some |].
           intros Hs'. apply existsb_eqb_In in Hs'. congruence.
        -- destruct (Hin e He) as [H1 [H2 H3]]. split; [now right |].
           split; [exact H2 |]. intros Hs'. apply H3. now right.
    + destruct (IH seen) as [Hnd Hin]. split; [exact Hnd |].
      intros e He. destruct (Hin e He) as [H1 H2]. split; [now right | exact H2].
Qed.

Lemma dedup_from_first (before : list Entry) : forall seen e rest,
  field_of e <> "" -> ~ In (field_of e) seen ->
  ~ In (field_of e) (map field_of before) ->
  In e (dedup_from field_of seen (before ++ e :: rest)).
Proof.
  induction before as [| b before IH]; intros seen e rest Hne Hseen Hbefore;
    cbn [app dedup_from].
  - apply truthy_some in Hne. rewrite Hne. cbn [andb].
    destruct (existsb (String.eqb (field_of e)) seen) eqn:Hs.
    + apply existsb_eqb_In in Hs. contradiction.
    + now left.
  - cbn [map] in Hbefore.
    assert (Hb : field_of b <> field_of e) by (intros E; apply Hbefore; now left).
    assert (Hrest : ~ In (field_of e) (map field_of before))
      by (intros H; apply Hbefore; now right).
    destruct (truthy (Some (field_of b)) && negb (existsb (String.eqb (field_of b)) seen)).
    + right. apply IH; try assumption. intros [E | H]; [now apply Hb | contradiction].
    + now apply IH.
Qed.

Lemma dedup_from_idempotent (entries : list Entry) : forall seen,
  dedup_from field_of seen (dedup_from field_of seen entries)
  = dedup_from field_of seen entries.
Proof.
  induction entries as [| entry rest IH]; intros seen; [reflexivity |].
  cbn [dedup_from].
  destruct (truthy (Some (field_of entry))
            && negb (existsb (String.eqb (field_of entry)) seen)) eqn:E; [| apply IH].
  cbn [dedup_from]. rewrite E. now rewrite IH.
Qed.

End DedupFacts.

(** X22: [dedup_by_field] keeps, in their order, entries with pairwise
    distinct non-empty keys; the first entry with a given non-empty key is
    always among them; and deduplicating twice changes nothing more. *)
Theorem dedup_by_field_keeps_first {Entry : Type} (field_of : Entry -> string)
    (entries : list Entry) :
  NoDup (map field_of (dedup_by_field field_of entries))
  /\ (forall e, In e (dedup_by_field field_of entries) ->
        In e entries /\ field_of e <> "")
  /\ (forall before e rest,
        entries = (before ++ e :: rest)%list -> field_of e <> "" ->
        ~ In (field_of e) (map field_of before) ->
        In e (dedup_by_field field_of entries))
  /\ dedup_by_field field_of (dedup_by_field field_of entries)
     = dedup_by_field field_of entries.
Proof.
  unfold dedup_by_field. destruct (dedup_from_keys Entry field_of entries []) as [Hnd Hin].
  split; [exact Hnd |]. split; [| split].
  - intros e He. destruct (Hin e He) as [H1 [H2 _]]. now split.
  - intros before e rest -> Hne Hfirst. apply dedup_from_first; auto.
  - apply dedup_from_idempotent.
Qed.

Lemma dedup_by_field_keeps_first_witness :
  In ("E001", "first") (dedup_by_field fst [("", "no id"); ("E001", "first"); ("E001", "second")]).
Proof.
  apply (proj1 (proj2 (proj2 (dedup_by_field_keeps_first fst
                  [("", "no id"); ("E001", "first"); ("E001", "second")])))
           [("", "no id")] ("E001", "first") [("E001", "second")]).
  - reflexivity.
  - discriminate.
  - cbn. intros [H | []]. discriminate H.
Defined.

(** ** Version comparison *)

Lemma compare_at_opp (indices : list nat) (pa pb : list Z) :
  compare_at indices pb pa = - compare_at indices pa pb.
Proof.
  induction indices as [| i rest IH]; [reflexivity |]. cbn [compare_at].
  destruct (Z.ltb_spec (nth i pa 0) (nth i pb 0)), (Z.gtb_spec (nth i pa 0) (nth i pb 0)),
    (Z.ltb_spec (nth i pb 0) (nth i pa 0)), (Z.gtb_spec (nth i pb 0) (nth i pa 0));
    try lia; exact IH.
Qed.

Lemma compare_at_sign (indices : list nat) (pa pb : list Z) :
  compare_at indices pa pb = -1 \/ compare_at indices pa pb = 0
  \/ compare_at indices pa pb = 1.
Proof.
  induction indices as [| i rest IH]; cbn [compare_at]; [auto |].
  destruct (nth i pa 0 <? nth i pb 0); [auto |].
  destruct (nth i pa 0 >? nth i pb 0); auto.
Qed.

Lemma compare_at_same (indices : list nat) (pa pb : list Z) :
  (forall i, In i indices -> nth i pa 0 = nth i pb 0) -> compare_at indices pa pb = 0.
Proof.
  induction indices as [| i rest IH]; intros H; [reflexivity |]. cbn [compare_at].
  rewrite (H i (or_introl eq_refl)), Z.ltb_irrefl.
  destruct (Z.gtb_spec (nth i pb 0) (nth i pb 0)); [lia |].
  apply IH. intros j Hj. apply H. now right.
Qed.

Lemma compare_at_ext (indices : list nat) (pa pa' pb : list Z) :
  (forall i, nth i pa 0 = nth i pa' 0) ->
  compare_at indices pa pb = compare_at indices pa' pb.
Proof.
  intros H. induction indices as [| i rest IH]; [reflexivity |]. cbn [compare_at].
  now rewrite H, IH.
Qed.

Lemma compare_at_app_same (first more : list nat) (pa pb : list Z) :
  (forall i, In i more -> nth i pa 0 = nth i pb 0) ->
  compare_at (first ++ more) pa pb = compare_at first pa pb.
Proof.
  intros H. induction first as [| i rest IH]; cbn [app compare_at].
  - now apply compare_at_same.
  - now rewrite IH.
Qed.

Lemma compare_at_beyond (n k : nat) (pa pb : list Z) :
  (List.length pa <= n)%nat -> (List.length pb <= n)%nat ->
  compare_at (seq 0 (n + k)) pa pb = compare_at (seq 0 n) pa pb.
Proof.
  intros Ha Hb. rewrite seq_app. apply compare_at_app_same.
  intros i Hi. apply in_seq in Hi. rewrite !nth_overflow by lia. reflexivity.
Qed.

Lemma nth_padded (pa : list Z) (i : nat) : nth i (pa ++ [0]) 0 = nth i pa 0.
Proof.
  destruct (Nat.lt_ge_cases i (List.length pa)) as [H | H].
  - now apply app_nth1.
  - rewrite (nth_overflow pa) by exact H. rewrite app_nth2 by exact H.
    destruct (i - List.length pa)%nat as [| [| j]]; reflexivity.
Qed.

Lemma compare_padded (pa pb : list Z) :
  compare_at (seq 0 (Nat.max (List.length (pa ++ [0])) (List.length pb))) (pa ++ [0]) pb
  = compare_at (seq 0 (Nat.max (List.length pa) (List.length pb))) pa pb.
Proof.
  rewrite (compare_at_ext _ (pa ++ [0]) pa pb (nth_padded pa)).
  rewrite length_app. cbn [List.length].
  set (n := Nat.max (List.length pa) (List.length pb)).
  replace (Nat.max (List.length pa + 1) (List.length pb))
    with (n + (Nat.max (List.length pa + 1) (List.length pb) - n))%nat by lia.
  apply compare_at_beyond; lia.
Qed.

Lemma split_dots_app (a x : string) : forall piece,
  split_dots piece (a ++ String "." x)
  = (split_dots piece a ++ split_dots EmptyString x)%list.
Proof.
  induction a as [| c a IH]; intros piece; cbn [append split_dots].
  - reflexivity.
  - destruct (Ascii.eqb c "."); cbn [app]; now rewrite IH.
Qed.

Lemma split_dots_one (x : string) : forall piece,
  all_chars (fun c => negb (Ascii.eqb c ".")) x = true ->
  split_dots piece x = [reverse piece ++ x].
Proof.
  induction x as [| c x IH]; intros piece H; cbn [split_dots].
  - now rewrite string_app_nil.
  - cbn [all_chars] in H. apply andb_prop in H. destruct H as [Hc H].
    apply negb_true_iff in Hc. rewrite Hc, (IH _ H), reverse_cons, string_app_assoc.
    reflexivity.
Qed.

Lemma ints_of_app (l more : list string) :
  ints_of (l ++ more)
  = match ints_of l with
    | Raise e => Raise e
    | Ok ns =>
        match ints_of more with
        | Raise e => Raise e
        | Ok ms => Ok (ns ++ ms)%list
        end
    end.
Proof.
  induction l as [| x l IH]; cbn [app ints_of].
  - destruct (ints_of more); reflexivity.
  - destruct (isdigit x); [| exact IH].
    destruct (int_of_digits x); [| reflexivity].
    rewrite IH. destruct (ints_of l); [| reflexivity].
    destruct (ints_of more); reflexivity.
Qed.

Lemma version_parts_suffix (a x : string) :
  all_chars (fun c => negb (Ascii.eqb c ".")) x = true ->
  version_parts (a ++ String "." x)
  = match version_parts a with
    | Raise e => Raise e
    | Ok ns =>
        match ints_of [x] with
        | Raise e => Raise e
        | Ok ms => Ok (ns ++ ms)%list
        end
    end.
Proof.
  intros H. unfold version_parts.
  now rewrite split_dots_app, (split_dots_one x EmptyString H), ints_of_app.
Qed.

(** X23: where [_compare_versions] returns, it returns -1, 0 or 1,
    exchanging the arguments changes the sign, and a version compares
    equal to itself. *)
Theorem compare_versions_antisymmetric (a b : string) (r : Z) :
  _compare_versions a b = Ok r ->
  _compare_versions b a = Ok (- r)
  /\ (r = -1 \/ r = 0 \/ r = 1)
  /\ _compare_versions a a = Ok 0
  /\ _compare_versions b b = Ok 0.
Proof.
  unfold _compare_versions.
  destruct (version_parts a) as [pa | ea]; [| discriminate].
  destruct (version_parts b) as [pb | eb]; [| discriminate].
  intros H. inversion H as [Hr]. rewrite Nat.max_comm, compare_at_opp.
  split; [reflexivity |]. split; [apply compare_at_sign |].
  split; f_equal; apply compare_at_same; reflexivity.
Qed.

Lemma compare_versions_antisymmetric_witness :
  _compare_versions "1.10.0" "1.9" = Ok (- -1).
Proof.
  apply (compare_versions_antisymmetric "1.9" "1.10.0" (-1)). vm_compute. reflexivity.
Defined.

(** X24: [_compare_versions] reads only the components made of digits:
    a last component that is not, such as a pre-release tag, is dropped
    with everything in it, and a further component 0 changes nothing. *)
Theorem compare_versions_ignores (a b tag : string) :
  (isdigit tag = false ->
   all_chars (fun c => negb (Ascii.eqb c ".")) tag = true ->
   _compare_versions (a ++ String "." tag) b = _compare_versions a b
   /\ _compare_versions b (a ++ String "." tag) = _compare_versions b a)
  /\ _compare_versions (a ++ ".0") b = _compare_versions a b.
Proof.
  split.
  - intros Htag Hdots.
    assert (E : version_parts (a ++ String "." tag) = version_parts a).
    { rewrite (version_parts_suffix a tag Hdots). cbn [ints_of]. rewrite Htag.
      destruct (version_parts a); [now rewrite app_nil_r | reflexivity]. }
    unfold _compare_versions. now rewrite E.
  - unfold _compare_versions.
    change (a ++ ".0") with (a ++ String "." "0").
    rewrite (version_parts_suffix a "0" eq_refl).
    change (ints_of ["0"]) with (Ok [0] : result (list Z)).
    destruct (version_parts a) as [pa | ea]; [| reflexivity].
    destruct (version_parts b) as [pb | eb]; [| reflexivity].
    now rewrite compare_padded.
Qed.

Lemma compare_versions_ignores_witness :
  _compare_versions "1.6.0-rc1" "1.6" = _compare_versions "1.6" "1.6".
Proof.
  apply (compare_versions_ignores "1.6" "1.6" "0-rc1"); reflexivity.
Defined.

(** ** What a repeated report discards *)

(** X25: once an error hash or a (category, pattern) is stored, recording
    it again reads nothing but the key, the time and, for a convention, the
    session: the cause, fix, resource, provider, validated flag, scope and
    session of a repeated fix, and the example, source and scope of a
    repeated convention, are dropped, and a scope outside the schema is
    not even rejected. *)
Theorem repeated_report_discards_details (conn : Store) (now : string) :
  (forall error_text existing root_cause fix_ resource provider validated scope session_id
          error_text' root_cause' fix_' resource' provider' validated' scope' session_id',
      find_fix conn (_error_hash error_text) = Some existing ->
      _normalize_error error_text' = _normalize_error error_text ->
      record_fix conn now error_text' root_cause' fix_' resource' provider' validated'
        scope' session_id'
      = record_fix conn now error_text root_cause fix_ resource provider validated scope
          session_id
      /\ fst (record_fix conn now error_text root_cause fix_ resource provider validated
                scope session_id) = Ok (f_id existing))
  /\ (forall category pattern existing example src scope example' src' scope' session_id,
        find_convention conn category pattern = Some existing ->
        record_convention conn now category pattern example' src' scope' session_id
        = record_convention conn now category pattern example src scope session_id).
Proof.
  split.
  - intros error_text existing root_cause fix_ resource provider validated scope session_id
      error_text' root_cause' fix_' resource' provider' validated' scope' session_id'
      Hfind Hnorm.
    apply same_normal_form_same_hash in Hnorm.
    unfold record_fix. rewrite Hnorm. unfold find_fix, has_hash in Hfind.
    rewrite Hfind. split; reflexivity.
  - intros category pattern existing example src scope example' src' scope' session_id Hfind.
    unfold record_convention. unfold find_convention in Hfind. rewrite Hfind. reflexivity.
Qed.

Lemma repeated_report_discards_details_witness :
  record_fix
    (after (record_fix empty_store "t1" "Error: timeout" "Network issue" "Increase timeout"
              None None 0 "personal" None))
    "t2" " error:  TIMEOUT" "Another cause" "Another fix" (Some "aws_instance") None 1
    "galaxy" (Some "nobody")
  = record_fix
      (after (record_fix empty_store "t1" "Error: timeout" "Network issue"
                "Increase timeout" None None 0 "personal" None))
      "t2" "Error: timeout" "Network issue" "Increase timeout" None None 0 "personal" None.
Proof.
  refine (proj1 (proj1 (repeated_report_discards_details
                          (after (record_fix empty_store "t1" "Error: timeout"
                                    "Network issue" "Increase timeout" None None 0
                                    "personal" None)) "t2")
                   "Error: timeout"
                   (mkFix 1 (_error_hash "Error: timeout") "Error: timeout" "Network issue"
                      "Increase timeout" None None 0 "personal" "t1" "t1" 1 None)
                   "Network issue" "Increase timeout" None None 0 "personal" None
                   " error:  TIMEOUT" "Another cause" "Another fix" (Some "aws_instance")
                   None 1 "galaxy" (Some "nobody") _ _)).
  - vm_compute. reflexivity.
  - vm_compute. reflexivity.
Defined.

(** ** A fork and the override resolver *)

Lemma qualifies_team_or_org (scope_filter scope : string) :
  qualifies scope_filter scope = true -> scope = "team" \/ scope = "org".
Proof.
  unfold qualifies. destruct (scope_filter =? "org")%string.
  - intros H. apply String.eqb_eq in H. now right.
  - intros H. apply orb_prop in H. destruct H as [H | H]; apply String.eqb_eq in H; auto.
Qed.

Lemma team_or_org_overrides (scope : string) :
  scope = "team" \/ scope = "org" ->
  ((scope =? "team")%string || (scope =? "org")%string) = true.
Proof. intros [-> | ->]; reflexivity. Qed.

(** X26: everything in a fork overrides Canon: every fix and every
    convention of an exported store is classified as overriding, with its
    scope as the reason, although a forked convention counts one session
    again and may have any confidence. *)
Theorem forked_entries_override (w : World) (db_path output_path scope_filter : string)
    (src : Store) :
  mkdir_ok w output_path = true ->
  openable w output_path = true ->
  openable w db_path = true ->
  db_path <> output_path ->
  file_at w db_path = Some (Database (Some src)) ->
  NoDup (map key_of (conventions src)) ->
  exists w' dst,
    export_for_fork w db_path output_path scope_filter = (Ok output_path, w')
    /\ file_at w' output_path = Some (Database (Some dst))
    /\ Forall (fun f => _should_override (fix_dict f) = (true, Some (f_scope f ++ "-scoped")))
         (fixes dst)
    /\ Forall (fun c => _should_override_convention (conv_dict c)
                        = (true, Some (c_scope c ++ "-scoped"))
                        /\ c_distinct_sessions c = 1)
         (conventions dst).
Proof.
  intros Hmkdir Hout Hdb Hne Hsrc Hunique.
  destruct (export_for_fork_ok w db_path output_path scope_filter src Hmkdir Hout Hdb Hne
              Hsrc Hunique) as [w' [Hrun [Hat _]]].
  destruct (forked_rows (plan w) scope_filter src) as (RF & RC & _).
  exists w', (forked (plan w) scope_filter src).
  split; [exact Hrun |]. split; [exact Hat |]. split.
  - revert RF. apply Forall_impl. intros f [Hq _].
    apply qualifies_team_or_org, team_or_org_overrides in Hq.
    unfold _should_override, fix_dict, get. cbn [fd_scope]. now rewrite Hq.
  - revert RC. apply Forall_impl. intros c [Hq [_ [_ Hds]]]. split; [| exact Hds].
    apply qualifies_team_or_org, team_or_org_overrides in Hq.
    unfold _should_override_convention, conv_dict, get. cbn [cd_scope]. now rewrite Hq.
Qed.

Lemma forked_entries_override_witness :
  exists w' dst,
    export_for_fork fork_test_world "source.db" "fork.db" "team" = (Ok "fork.db", w')
    /\ file_at w' "fork.db" = Some (Database (Some dst))
    /\ Forall (fun c => _should_override_convention (conv_dict c)
                        = (true, Some (c_scope c ++ "-scoped"))
                        /\ c_distinct_sessions c = 1)
         (conventions dst).
Proof.
  destruct (forked_entries_override fork_test_world "source.db" "fork.db" "team"
              fork_test_source eq_refl eq_refl eq_refl ltac:(discriminate) eq_refl)
    as [w' [dst [Hrun [Hat [_ Hconv]]]]].
  - cbn. repeat constructor; cbn; intuition discriminate.
  - exists w', dst. repeat split; assumption.
Defined.
